(** * doodle-blocks: the connection engine and the field editing protocol

    A shallow embedding of [Blockly.RenderedConnection] (rendered_connection.js),
    [Blockly.FieldDropdown] (field_dropdown.js), [Blockly.Field] (field.js)
    and [Blockly.FieldTextInput] (core/field_textinput.js), with the
    properties the specification states about them and further properties
    read off the code.

    Layout: Part I holds the model (one module per JavaScript class), Part II
    the lemmas and theorems on the statements of the specification, Part III
    further properties of the code. *)

From Stdlib Require Import ZArith String Ascii List Bool Lia Floats.
From stdpp Require Import gmap list.

(* ================================================================== *)
(** * Part I. The model                                                *)
(* ================================================================== *)

(** ** JavaScript numbers

    Coordinates, radii and offsets are JavaScript numbers.  The geometry is
    written once over the operations the source uses ([+], binary and unary
    [-], [*], [Math.sqrt], [Math.abs], [<], [==]); two instances are given:
    [F64], IEEE 754 binary64 as the engine computes, and [ZExact], integers
    without rounding (with the integer square root), for the statements
    that hold in any arithmetic. *)
Module JS.

Class Number : Type := {
  num : Type;
  add : num -> num -> num;
  sub : num -> num -> num;
  mul : num -> num -> num;
  neg : num -> num;
  abs : num -> num;
  sqrt : num -> num;
  ltb : num -> num -> bool;
  eqb : num -> num -> bool
}.

(** [a > b] is [b < a] on numbers. *)
Definition gtb `{Number} (a b : num) : bool := ltb b a.

(** "Not greater": [a <= b] on numbers that compare, and true where one
    side is NaN.  Only the scan modelled from the specification uses it
    ("pruning as soon as the x-distance alone exceeds maxRadius"). *)
Definition leb `{Number} (a b : num) : bool := negb (ltb b a).

Definition F64 : Number := {|
  num := float;
  add := PrimFloat.add;
  sub := PrimFloat.sub;
  mul := PrimFloat.mul;
  neg := PrimFloat.opp;
  abs := PrimFloat.abs;
  sqrt := PrimFloat.sqrt;
  ltb := PrimFloat.ltb;
  eqb := PrimFloat.eqb
|}.

Definition ZExact : Number := {|
  num := Z;
  add := Z.add;
  sub := Z.sub;
  mul := Z.mul;
  neg := Z.opp;
  abs := Z.abs;
  sqrt := Z.sqrt;
  ltb := Z.ltb;
  eqb := Z.eqb
|}.

(** The laws of comparison the search relies on.  They hold of exact
    numbers and of binary64, NaN included: a comparison with NaN is
    false. *)
Class OrderLaws (N : Number) : Prop := {
  ltb_irrefl : forall a : num, ltb a a = false;
  ltb_trans : forall a b c : num,
      ltb a b = true -> ltb b c = true -> ltb a c = true;
  eqb_not_ltb : forall a b : num, eqb a b = true -> ltb b a = false;
  ltb_eqb : forall a b c : num,
      ltb a b = true -> eqb b c = true -> ltb a c = true;
  eqb_ltb : forall a b c : num,
      eqb a b = true -> ltb b c = true -> ltb a c = true;
  eqb_trans : forall a b c : num,
      eqb a b = true -> eqb b c = true -> eqb a c = true
}.

(** The laws of distance of exact arithmetic.  Binary64 does not satisfy
    them as they stand: they fail where a coordinate is NaN, and [far_leg]
    where a square underflows. *)
Class NumberLaws (N : Number) : Prop := {
  (* a <= b <= c: what is out of reach at b is out of reach at c *)
  far_right : forall a b c r : num,
      ltb b a = false -> ltb c b = false ->
      ltb r (abs (sub a b)) = true -> ltb r (abs (sub a c)) = true;
  (* c <= b <= a *)
  far_left : forall a b c r : num,
      ltb a b = false -> ltb b c = false ->
      ltb r (abs (sub a b)) = true -> ltb r (abs (sub a c)) = true;
  (* the x-distance never exceeds the Euclidean distance *)
  far_leg : forall dx dy r : num,
      ltb r (abs dx) = true ->
      ltb r (sqrt (add (mul dx dx) (mul dy dy))) = true
}.

(** Completion of a call: a normal result or a thrown exception. *)
Inductive Completion (A : Type) : Type :=
  | Normal (a : A)
  | Throw (msg : string).
Arguments Normal {A} a.
Arguments Throw {A} msg.

End JS.

Export JS.

Declare Scope num_scope.
Delimit Scope num_scope with num.
Infix "+" := JS.add : num_scope.
Infix "-" := JS.sub : num_scope.
Infix "*" := JS.mul : num_scope.
Notation "- a" := (JS.neg a) : num_scope.
Infix "<?" := JS.ltb : num_scope.
Infix ">?" := JS.gtb : num_scope.
Infix "<=?" := JS.leb : num_scope.
Infix "=?" := JS.eqb : num_scope.

(** ** The object store

    Connections and connection databases are JavaScript objects held by
    reference: a workspace maps references to their current contents, and a
    database lists the references of its entries in index order. *)
Module Store.

Abbreviation ConnRef := nat (only parsing).
Abbreviation DbRef := nat (only parsing).
Abbreviation BlockRef := nat (only parsing).

(** The four kinds of connection (Blockly.INPUT_VALUE, ...). *)
Inductive ConnectionType : Type :=
  | INPUT_VALUE
  | OUTPUT_VALUE
  | NEXT_STATEMENT
  | PREVIOUS_STATEMENT.

#[global] Instance ConnectionType_eq_dec : EqDecision ConnectionType.
Proof. solve_decision. Defined.

Section WithNumber.
Context {N : Number}.

(** The fields of a [Blockly.RenderedConnection] the modelled methods use. *)
Record Connection : Type := mkConnection {
  type : ConnectionType;
  x : num;
  y : num;
  hidden : bool;
  inDB : bool;
  db : DbRef;
  dbOpposite : DbRef;
  sourceBlock : BlockRef
}.

Definition set_xy (c : Connection) (a b : num) : Connection :=
  mkConnection (type c) a b (hidden c) (inDB c) (db c) (dbOpposite c)
               (sourceBlock c).

Definition set_hidden (c : Connection) (h : bool) : Connection :=
  mkConnection (type c) (x c) (y c) h (inDB c) (db c) (dbOpposite c)
               (sourceBlock c).

Definition set_inDB (c : Connection) (b : bool) : Connection :=
  mkConnection (type c) (x c) (y c) (hidden c) b (db c) (dbOpposite c)
               (sourceBlock c).

Record Workspace : Type := mkWorkspace {
  connections : gmap ConnRef Connection;
  databases : gmap DbRef (list ConnRef)
}.

(** Methods run in a state monad over the workspace; a [Throw] aborts. *)
Definition M (A : Type) : Type := Workspace -> Completion (A * Workspace).

Definition ret {A} (a : A) : M A := fun ws => Normal (a, ws).

Definition bind {A B} (m : M A) (k : A -> M B) : M B :=
  fun ws =>
    match m ws with
    | Normal (a, ws') => k a ws'
    | Throw msg => Throw msg
    end.

Definition throw {A} (msg : string) : M A := fun _ => Throw msg.

(** Dereference [r]; reading a property of a missing object is a TypeError. *)
Definition getConnection (r : ConnRef) : M Connection :=
  fun ws =>
    match connections ws !! r with
    | Some c => Normal (c, ws)
    | None => Throw "TypeError: connection is undefined"
    end.

Definition putConnection (r : ConnRef) (c : Connection) : M unit :=
  fun ws => Normal (tt, mkWorkspace (<[r := c]> (connections ws)) (databases ws)).

Definition getDatabase (d : DbRef) : M (list ConnRef) :=
  fun ws =>
    match databases ws !! d with
    | Some l => Normal (l, ws)
    | None => Throw "TypeError: database is undefined"
    end.

Definition putDatabase (d : DbRef) (l : list ConnRef) : M unit :=
  fun ws => Normal (tt, mkWorkspace (connections ws) (<[d := l]> (databases ws))).

(** The entries of a list of references with the objects they refer to;
    [None] when a reference dangles. *)
Fixpoint deref (m : gmap ConnRef Connection) (l : list ConnRef)
    : option (list (ConnRef * Connection)) :=
  match l with
  | [] => Some []
  | r :: l' =>
      match m !! r, deref m l' with
      | Some c, Some es => Some ((r, c) :: es)
      | _, _ => None
      end
  end.

End WithNumber.

End Store.

Export Store.

Notation "a <- m ;; k" := (Store.bind m (fun a => k))
  (at level 100, m at next level, right associativity).
Notation "m ;; k" := (Store.bind m (fun _ => k))
  (at level 100, right associativity).

(** ** The spatial index (Blockly.ConnectionDB) *)
Module ConnectionDB.
Section WithNumber.
Context {N : Number}.

(** Modelled from the spec: connection_db.js is not among the sources.  The
    index is "one ordered collection per connection kind, ordered by x then a
    tie-break on y"; [precedes a b] is that order, strict. *)
Definition precedes (a b : Connection) : bool :=
  (x a <? x b)%num || ((x a =? x b)%num && (y a <? y b)%num).

(** The entries of a database with the objects they refer to. *)
Fixpoint entries (l : list ConnRef) : M (list (ConnRef * Connection)) :=
  match l with
  | [] => ret []
  | r :: l' =>
      c <- getConnection r ;;
      es <- entries l' ;;
      ret ((r, c) :: es)
  end.

(** Modelled from the spec: the insertion index of [conn], the first entry
    that [conn] precedes ("insert ... preserving the x-then-y order"). *)
Fixpoint findPositionForConnection (es : list (ConnRef * Connection))
    (conn : Connection) : nat :=
  match es with
  | [] => 0
  | (_, e) :: es' =>
      if precedes conn e then 0 else S (findPositionForConnection es' conn)
  end.

(** Modelled from the spec: [addConnection] inserts at the position the order
    gives and marks the connection registered; a double insert is a
    ProgrammingError (section 7). *)
Definition addConnection (d : DbRef) (r : ConnRef) : M unit :=
  conn <- getConnection r ;;
  if inDB conn then throw "Connection already in database."
  else
    l <- getDatabase d ;;
    es <- entries l ;;
    let position := findPositionForConnection es conn in
    putDatabase d (take position l ++ r :: drop position l) ;;
    putConnection r (set_inDB conn true).

(** [l] without its first occurrence of [r]; [None] when there is none. *)
Fixpoint splice (r : ConnRef) (l : list ConnRef) : option (list ConnRef) :=
  match l with
  | [] => None
  | e :: l' =>
      if decide (e = r) then Some l'
      else match splice r l' with
           | Some l'' => Some (e :: l'')
           | None => None
           end
  end.

(** Modelled from the spec: [removeConnection] takes the entry out and marks
    the connection unregistered; removing an absent connection is a
    ProgrammingError (section 7). *)
Definition removeConnection (d : DbRef) (r : ConnRef) : M unit :=
  conn <- getConnection r ;;
  if negb (inDB conn) then throw "Connection not in database."
  else
    l <- getDatabase d ;;
    match splice r l with
    | None => throw "Unable to find connection in connectionDB."
    | Some l' =>
        putDatabase d l' ;;
        putConnection r (set_inDB conn false)
    end.

(** Modelled from the spec: "pruning as soon as the x-distance alone exceeds
    maxRadius". *)
Definition isInXRange (e : Connection) (baseX maxRadius : num) : bool :=
  (abs (baseX - x e) <=? maxRadius)%num.

(** The longest prefix of [es] within x-range of [baseX]. *)
Fixpoint walk (es : list (ConnRef * Connection)) (baseX maxRadius : num)
    : list (ConnRef * Connection) :=
  match es with
  | [] => []
  | (r, e) :: es' =>
      if isInXRange e baseX maxRadius
      then (r, e) :: walk es' baseX maxRadius
      else []
  end.

(** Modelled from the spec: the "bounded scan outward from the connection's
    x-sorted position in both directions": the entries visited, in the order
    they are visited (upwards from the insertion position, then downwards
    from the entry before it). *)
Definition scan (es : list (ConnRef * Connection)) (conn : Connection)
    (maxRadius : num) : list (ConnRef * Connection) :=
  let closestIndex := findPositionForConnection es conn in
  walk (drop closestIndex es) (x conn) maxRadius
  ++ walk (reverse (take closestIndex es)) (x conn) maxRadius.

(** One step of the search: [temp] becomes the best candidate when it is
    allowed within [maxRadius] and either nothing was found yet or it is
    strictly closer than the best ("first found wins on exact ties"). *)
Definition track (isConnectionAllowed : Connection -> Connection -> num -> bool)
    (distanceFrom : Connection -> Connection -> num)
    (conn : Connection) (maxRadius : num)
    (best : option ConnRef * num) (temp : ConnRef * Connection)
    : option ConnRef * num :=
  let '(bestConnection, bestRadius) := best in
  if isConnectionAllowed conn (snd temp) maxRadius
     && match bestConnection with
        | None => true
        | Some _ => (distanceFrom conn (snd temp) <? bestRadius)%num
        end
  then (Some (fst temp), distanceFrom conn (snd temp))
  else best.

(** Modelled from the spec: [searchForClosest(connection, maxRadius,
    dragOffset)] "performs the same bounded scan but tracks the single
    minimum-distance legal candidate (via isConnectionAllowed)", from the
    dragged position of the connection (its recorded position plus the
    offset).  The result is the pair (connection or null, radius). *)
Definition searchForClosest
    (isConnectionAllowed : Connection -> Connection -> num -> bool)
    (distanceFrom : Connection -> Connection -> num)
    (d : DbRef) (r : ConnRef) (maxRadius : num) (dxy : num * num)
    : M (option ConnRef * num) :=
  conn <- getConnection r ;;
  l <- getDatabase d ;;
  es <- entries l ;;
  let dragged := set_xy conn (x conn + fst dxy)%num (y conn + snd dxy)%num in
  ret (fold_left (track isConnectionAllowed distanceFrom dragged maxRadius)
                 (scan es dragged maxRadius) (None, maxRadius)).

(** The order invariant of a database: no entry precedes an earlier one. *)
Fixpoint sortedIndex (es : list (ConnRef * Connection)) : bool :=
  match es with
  | [] => true
  | e0 :: es' =>
      forallb (fun e => negb (precedes (snd e) (snd e0))) es'
      && sortedIndex es'
  end.

End WithNumber.
End ConnectionDB.

(** ** Blocks

    The blocks below a connection form a tree: a connection has at most one
    block attached, and a block owns its output, previous and next
    connections and the connections of its inputs. *)
Module BlockTree.

Inductive Block : Type :=
  | mkBlock (id : BlockRef) (collapsed_ : bool)
            (outputConnection nextConnection previousConnection
               : option ConnectionNode)
            (inputList : list ConnectionNode)
(** A connection as a node of the tree: the reference of the connection
    object and the block attached to it ([targetBlock()]), if any. *)
with ConnectionNode : Type :=
  | mkNode (connection : ConnRef) (target : option Block).

Definition blockId (b : Block) : BlockRef :=
  match b with mkBlock id _ _ _ _ _ => id end.

Definition isCollapsed (b : Block) : bool :=
  match b with mkBlock _ c _ _ _ _ => c end.

Definition outputConnection (b : Block) : option ConnectionNode :=
  match b with mkBlock _ _ o _ _ _ => o end.

Definition nextConnection (b : Block) : option ConnectionNode :=
  match b with mkBlock _ _ _ n _ _ => n end.

Definition previousConnection (b : Block) : option ConnectionNode :=
  match b with mkBlock _ _ _ _ p _ => p end.

Definition inputList (b : Block) : list ConnectionNode :=
  match b with mkBlock _ _ _ _ _ i => i end.

Definition connection (k : ConnectionNode) : ConnRef :=
  match k with mkNode r _ => r end.

Definition targetBlock (k : ConnectionNode) : option Block :=
  match k with mkNode _ t => t end.

(** Modelled from the spec: [getConnections(true)] of block_svg.js, which is
    not among the sources: all the connections a block owns ("input slots,
    one optional output/previous, one optional next"), the block's own three
    first. *)
Definition getConnections (b : Block) : list ConnectionNode :=
  option_list (outputConnection b) ++ option_list (previousConnection b)
  ++ option_list (nextConnection b) ++ inputList b.

(** The connections [unhideAll] goes through on an attached block: the
    three direct ones when the block is collapsed, all of them otherwise. *)
Definition revealed (b : Block) : list ConnectionNode :=
  if isCollapsed b
  then option_list (outputConnection b) ++ option_list (nextConnection b)
       ++ option_list (previousConnection b)
  else getConnections b.

(** Modelled from the spec: [getDescendants()] of block.js, which is not
    among the sources: the block and "every descendant block", the blocks
    attached to its inputs and to its next connection, and theirs. *)
Fixpoint getDescendants (b : Block) : list Block :=
  match b with
  | mkBlock _ _ _ n _ ins =>
      b :: (fix each (ks : list ConnectionNode) : list Block :=
              match ks with
              | [] => []
              | k :: ks' => attached k ++ each ks'
              end) ins
        ++ match n with
           | Some k => attached k
           | None => []
           end
  end
with attached (k : ConnectionNode) : list Block :=
  match k with
  | mkNode _ (Some b) => getDescendants b
  | mkNode _ None => []
  end.

End BlockTree.

Export BlockTree.

(** ** Blockly.RenderedConnection (rendered_connection.js) *)
Module RenderedConnection.

(** [Blockly.dragMode]. *)
Inductive DragMode : Type := DRAG_NONE | DRAG_STICKY | DRAG_FREE.

(** What [bumpAwayFrom_] reads of a root block. *)
Record BlockProps : Type := mkBlockProps {
  isInFlyout : bool;
  isMovable : bool;
  RTL : bool
}.

Section WithNumber.
Context {N : Number}.

(** [Blockly.Connection.prototype.isConnectionAllowed] of the superclass
    (connection.js, not among the sources): kind, type and ancestry checks. *)
Variable superIsConnectionAllowed : Connection -> Connection -> bool.

Definition distanceFrom (this otherConnection : Connection) : num :=
  let xDiff := (x this - x otherConnection)%num in
  let yDiff := (y this - y otherConnection)%num in
  sqrt (xDiff * xDiff + yDiff * yDiff)%num.

Definition moveTo (this : ConnRef) (a b : num) : M unit :=
  conn <- getConnection this ;;
  (if inDB conn then ConnectionDB.removeConnection (db conn) this else ret tt) ;;
  conn <- getConnection this ;;
  putConnection this (set_xy conn a b) ;;
  conn <- getConnection this ;;
  if negb (hidden conn) then ConnectionDB.addConnection (db conn) this
  else ret tt.

Definition moveBy (this : ConnRef) (dx dy : num) : M unit :=
  conn <- getConnection this ;;
  moveTo this (x conn + dx)%num (y conn + dy)%num.

Definition setHidden (this : ConnRef) (hidden' : bool) : M unit :=
  conn <- getConnection this ;;
  putConnection this (set_hidden conn hidden') ;;
  conn <- getConnection this ;;
  if hidden' && inDB conn then ConnectionDB.removeConnection (db conn) this
  else if negb hidden' && negb (inDB conn)
       then ConnectionDB.addConnection (db conn) this
       else ret tt.

Definition isConnectionAllowed (this candidate : Connection)
    (opt_maxRadius : num) : bool :=
  if (distanceFrom this candidate >? opt_maxRadius)%num then false
  else superIsConnectionAllowed this candidate.

Definition closest (this : ConnRef) (maxLimit : num) (dxy : num * num)
    : M (option ConnRef * num) :=
  conn <- getConnection this ;;
  ConnectionDB.searchForClosest isConnectionAllowed distanceFrom
    (dbOpposite conn) this maxLimit dxy.

(** The globals [bumpAwayFrom_] reads. *)
Record Globals : Type := mkGlobals {
  dragMode : DragMode;
  selected : option BlockRef;
  SNAP_RADIUS : num
}.

(** What [bumpAwayFrom_] does to blocks, in order. *)
Inductive Effect : Type :=
  | AddSelect (block : BlockRef)
  | MoveBlockBy (block : BlockRef) (dx dy : num)
  | RemoveSelect (block : BlockRef).

(** [block.getRootBlock()] and the properties of blocks (block.js and
    block_svg.js, not among the sources). *)
Variable getRootBlock : BlockRef -> BlockRef.
Variable blockProps : BlockRef -> BlockProps.

Definition bumpAwayFrom_ (g : Globals) (this staticConnection : Connection)
    : list Effect :=
  match dragMode g with
  | DRAG_NONE =>
      let rootBlock := getRootBlock (sourceBlock this) in
      if isInFlyout (blockProps rootBlock) then []
      else
        let swap :=
          if negb (isMovable (blockProps rootBlock)) then
            let rootBlock' := getRootBlock (sourceBlock staticConnection) in
            if negb (isMovable (blockProps rootBlock')) then None
            else Some (rootBlock', this, true)
          else Some (rootBlock, staticConnection, false) in
        match swap with
        | None => []
        | Some (rootBlock, staticConnection, reverse) =>
            let isSelected := bool_decide (selected g = Some rootBlock) in
            let dx := ((x staticConnection + SNAP_RADIUS g) - x this)%num in
            let dy := ((y staticConnection + SNAP_RADIUS g) - y this)%num in
            let dy := if reverse then (- dy)%num else dy in
            let dx := if RTL (blockProps rootBlock) then (- dx)%num else dx in
            (if isSelected then [] else [AddSelect rootBlock])
            ++ [MoveBlockBy rootBlock dx dy]
            ++ (if isSelected then [] else [RemoveSelect rootBlock])
        end
  | _ => []
  end.

Definition followsDown (t : ConnectionType) : bool :=
  match t with
  | INPUT_VALUE | NEXT_STATEMENT => true
  | _ => false
  end.

(** [unhideAll].  The loop over [connections] is unrolled over the fields
    of the block so that the recursion is structural; [unhideAll_unfold]
    below gives the equation with the loop. *)
Fixpoint unhideAll (this : ConnectionNode) : M (list Block) :=
  match this with
  | mkNode r tgt =>
      setHidden r false ;;
      conn <- getConnection r ;;
      if negb (followsDown (type conn)) then ret []
      else
        match tgt with
        | None => ret []
        | Some block =>
            renderList <- unhideConnections block ;;
            if bool_decide (renderList = []) then ret [block]
            else ret renderList
        end
  end
with unhideConnections (block : Block) : M (list (Block)) :=
  match block with
  | mkBlock _ collapsed o n p inputs =>
      let one (k : option ConnectionNode) : M (list Block) :=
        match k with
        | Some k' => unhideAll k'
        | None => ret []
        end in
      let each :=
        fix each (ks : list ConnectionNode) : M (list Block) :=
          match ks with
          | [] => ret []
          | k :: ks' =>
              a <- unhideAll k ;;
              b <- each ks' ;;
              ret (a ++ b)
          end in
      if collapsed then
        a <- one o ;; b <- one n ;; c <- one p ;; ret (a ++ b ++ c)
      else
        a <- one o ;; b <- one p ;; c <- one n ;; d <- each inputs ;;
        ret (a ++ b ++ c ++ d)
  end.

(** The loop [for (i ...) renderList.push.apply(renderList,
    connections[i].unhideAll())]. *)
Fixpoint unhideEach (connections : list ConnectionNode) : M (list Block) :=
  match connections with
  | [] => ret []
  | k :: ks =>
      a <- unhideAll k ;;
      b <- unhideEach ks ;;
      ret (a ++ b)
  end.

(** [offsetInBlock_], the coordinate object each connection holds since
    its constructor, by connection. *)
Definition setOffsetInBlock (offsetInBlock_ : gmap ConnRef (num * num))
    (this : ConnRef) (a b : num) : gmap ConnRef (num * num) :=
  <[this := (a, b)]> offsetInBlock_.

Definition moveToOffset (offsetInBlock_ : gmap ConnRef (num * num))
    (this : ConnRef) (blockTL : num * num) : M unit :=
  match offsetInBlock_ !! this with
  | Some offset =>
      moveTo this (fst blockTL + fst offset)%num (snd blockTL + snd offset)%num
  | None => throw "TypeError: Cannot read property 'x' of undefined"
  end.

(** The loop [for (j ...) connections[j].setHidden(true)] of [hideAll]. *)
Fixpoint hideEach (connections : list ConnectionNode) : M unit :=
  match connections with
  | [] => ret tt
  | k :: ks => setHidden (connection k) true ;; hideEach ks
  end.

(** The loop over the descendant blocks.  Closing the bubbles of their icons
    does not touch a connection and is left out. *)
Fixpoint hideBlocks (blocks : list Block) : M unit :=
  match blocks with
  | [] => ret tt
  | block :: bs => hideEach (getConnections block) ;; hideBlocks bs
  end.

(** [hideAll]; [this.targetConnection] is set exactly when a block is
    attached. *)
Definition hideAll (this : ConnectionNode) : M unit :=
  setHidden (connection this) true ;;
  match targetBlock this with
  | Some block => hideBlocks (getDescendants block)
  | None => ret tt
  end.

End WithNumber.
End RenderedConnection.

(** ** JavaScript strings and the built-in functions on them

    A string is its sequence of UTF-16 code units; [lit] reads an ASCII
    literal. *)
Module JSString.

Abbreviation jsstring := (list N).

Definition lit (s : string) : jsstring :=
  map N_of_ascii (list_ascii_of_string s).

(** The characters matched by the class of white space of regular
    expressions: WhiteSpace and LineTerminator. *)
Definition isWhiteSpace (ch : N) : bool :=
  (N.leb 9 ch && N.leb ch 13) || N.eqb ch 32 || N.eqb ch 160
  || N.eqb ch 5760 || (N.leb 8192 ch && N.leb ch 8202)
  || N.eqb ch 8232 || N.eqb ch 8233 || N.eqb ch 8239 || N.eqb ch 8287
  || N.eqb ch 12288 || N.eqb ch 65279.

(** [s.substring(0, n)] for an integer [n]: a negative [n] counts as 0 and
    an [n] beyond the length as the length. *)
Definition substring0 (s : jsstring) (n : Z) : jsstring :=
  take (Z.to_nat n) s.

(** [s.replace(/O/ig, '0')]: the letter O, capital (79) or small (111),
    becomes the digit 0 (48). *)
Definition replaceO (s : jsstring) : jsstring :=
  map (fun ch => if N.eqb ch 79 || N.eqb ch 111 then 48%N else ch) s.

(** [s.replace(/,/g, '')]: commas (44) are deleted. *)
Definition removeCommas (s : jsstring) : jsstring :=
  List.filter (fun ch => negb (N.eqb ch 44)) s.

(** The built-in functions on numbers that [numberValidator] calls:
    the literal [0], [parseFloat] on a string, [isNaN] and [String(n)]. *)
Class Builtins : Type := {
  number : Type;
  zero : number;
  parseFloat : jsstring -> number;
  isNaN : number -> bool;
  toString : number -> jsstring
}.

(** *** A model of the built-ins on decimal literals

    Numbers are kept as exact decimals, [digits * 10^exp10] with a sign:
    parsing follows StrDecimalLiteral and printing follows Number::toString
    of ECMAScript.  Nothing is rounded to binary64, so the model agrees with
    an engine on literals of at most 15 significant digits within the range
    of binary64. *)
Inductive Decimal : Type :=
  | NaN
  | Infinity (negative : bool)
  | Dec (negative : bool) (digits : N) (exp10 : Z).

Definition isDigit (ch : N) : bool := N.leb 48 ch && N.leb ch 57.

(** The longest prefix of digits, and the rest. *)
Fixpoint spanDigits (s : jsstring) : jsstring * jsstring :=
  match s with
  | ch :: s' =>
      if isDigit ch
      then let '(ds, rest) := spanDigits s' in (ch :: ds, rest)
      else ([], s)
  | [] => ([], [])
  end.

Definition digitsValue (ds : jsstring) : N :=
  fold_left (fun acc ch => (acc * 10 + (ch - 48))%N) ds 0%N.

Fixpoint dropWhiteSpace (s : jsstring) : jsstring :=
  match s with
  | ch :: s' => if isWhiteSpace ch then dropWhiteSpace s' else s
  | [] => []
  end.

Fixpoint isPrefix (p s : jsstring) : bool :=
  match p, s with
  | [], _ => true
  | a :: p', b :: s' => N.eqb a b && isPrefix p' s'
  | _ :: _, [] => false
  end.

(** The value of the exponent part (e or E, a sign, digits) at the head of
    [s]; 0 when [s] does not start with one. *)
Definition exponentPart (s : jsstring) : Z :=
  match s with
  | ch :: s' =>
      if N.eqb ch 101 || N.eqb ch 69 then
        let '(negative, s'') :=
          match s' with
          | sg :: t => if N.eqb sg 45 then (true, t)
                       else if N.eqb sg 43 then (false, t) else (false, s')
          | [] => (false, s')
          end in
        let '(ds, _) := spanDigits s'' in
        match ds with
        | [] => 0%Z
        | _ => if negative then (- Z.of_N (digitsValue ds))%Z
               else Z.of_N (digitsValue ds)
        end
      else 0%Z
  | [] => 0%Z
  end.

(** StrUnsignedDecimalLiteral at the head of [s]. *)
Definition parseUnsigned (negative : bool) (s : jsstring) : Decimal :=
  if isPrefix (lit "Infinity") s then Infinity negative
  else
    let '(whole, rest) := spanDigits s in
    match rest with
    | 46%N :: rest' =>
        let '(fraction, rest'') := spanDigits rest' in
        match whole, fraction with
        | [], [] => NaN
        | _, [] => Dec negative (digitsValue whole) (exponentPart rest'')
        | _, _ =>
            Dec negative (digitsValue (whole ++ fraction))
                (exponentPart rest'' - Z.of_nat (length fraction))
        end
    | _ =>
        match whole with
        | [] => NaN
        | _ => Dec negative (digitsValue whole) (exponentPart rest)
        end
    end.

(** [parseFloat]: leading white space is skipped, then the longest prefix
    that is a StrDecimalLiteral is read; NaN when there is none. *)
Definition decimalParseFloat (s : jsstring) : Decimal :=
  match dropWhiteSpace s with
  | 45%N :: s' => parseUnsigned true s'
  | 43%N :: s' => parseUnsigned false s'
  | s' => parseUnsigned false s'
  end.

(** The decimal digits of [n], most significant first; [fuel] bounds their
    number. *)
Fixpoint digitsOf (fuel : nat) (n : N) (acc : jsstring) : jsstring :=
  match fuel with
  | O => acc
  | S fuel' =>
      if N.eqb n 0 then acc
      else digitsOf fuel' (n / 10)%N ((48 + n mod 10)%N :: acc)
  end.

Definition decimalDigits (n : N) : jsstring :=
  digitsOf (S (N.to_nat (N.log2 n))) n [].

Fixpoint dropZeros (ds : jsstring) : jsstring :=
  match ds with
  | 48%N :: ds' => dropZeros ds'
  | _ => ds
  end.

(** The integer part of the exponent as a string of digits. *)
Definition natDigits (n : Z) : jsstring :=
  if Z.eqb n 0 then [48%N] else decimalDigits (Z.to_N (Z.abs n)).

(** Number::toString of a positive finite value [digits * 10^exp10]. *)
Definition positiveToString (digits : N) (exp10 : Z) : jsstring :=
  let all := decimalDigits digits in
  let s := reverse (dropZeros (reverse all)) in
  let k := Z.of_nat (length s) in
  let n := (Z.of_nat (length all) + exp10)%Z in
  if Z.leb k n && Z.leb n 21 then
    s ++ replicate (Z.to_nat (n - k)) 48%N
  else if Z.ltb 0 n && Z.leb n 21 then
    take (Z.to_nat n) s ++ [46%N] ++ drop (Z.to_nat n) s
  else if Z.ltb (-6) n && Z.leb n 0 then
    [48%N; 46%N] ++ replicate (Z.to_nat (- n)) 48%N ++ s
  else
    let e := (n - 1)%Z in
    let sign := if Z.ltb e 0 then 45%N else 43%N in
    match s with
    | [d] => [d] ++ [101%N; sign] ++ natDigits e
    | d :: ds => [d; 46%N] ++ ds ++ [101%N; sign] ++ natDigits e
    | [] => []
    end.

(** [String(n)]. *)
Definition decimalToString (n : Decimal) : jsstring :=
  match n with
  | NaN => lit "NaN"
  | Infinity negative =>
      if negative then lit "-Infinity" else lit "Infinity"
  | Dec negative digits exp10 =>
      if N.eqb digits 0 then lit "0"
      else (if negative then [45%N] else []) ++ positiveToString digits exp10
  end.

Definition decimalIsNaN (n : Decimal) : bool :=
  match n with NaN => true | _ => false end.

(** [2 * n]. *)
Definition twice (n : Decimal) : Decimal :=
  match n with
  | Dec negative digits exp10 => Dec negative (2 * digits) exp10
  | _ => n
  end.

Definition DecimalBuiltins : Builtins := {|
  number := Decimal;
  zero := Dec false 0 0;
  parseFloat := decimalParseFloat;
  isNaN := decimalIsNaN;
  toString := decimalToString
|}.

End JSString.

Export JSString.

(** ** Blockly.Field (field.js) *)
Module Field.

(** What a field reads of the block it is attached to. *)
Record SourceBlock : Type := mkSourceBlock {
  RTL : bool;
  rendered : bool
}.

(** What a validator returns: [null], [undefined] or a string. *)
Inductive ValidatorResult : Type :=
  | Null
  | Undefined
  | Text (s : jsstring).

(** What the methods do besides changing the field, in order. *)
Inductive Effect : Type :=
  | FireChange (oldValue newValue : jsstring)
  | Render
  | BumpNeighbours
  | FinishEditing (text : jsstring)
  | RenderField.

(** The field as a validator sees it: validators are called with the field
    as [this], and may read its properties. *)
Record Self : Type := mkSelf {
  selfText : jsstring;
  selfSourceBlock : option SourceBlock;
  selfMaxDisplayLength : Z
}.

(** A validator: a function of the field it is called on and of the text
    offered. *)
Definition Validator : Type := Self -> jsstring -> ValidatorResult.

Record Field : Type := mkField {
  text : jsstring;
  sourceBlock : option SourceBlock;
  validator_ : option Validator;
  classValidator : Validator;
  maxDisplayLength : Z;
  onFinishEditing_ : bool
}.

Definition self (this : Field) : Self :=
  mkSelf (text this) (sourceBlock this) (maxDisplayLength this).

Definition set_text (this : Field) (t : jsstring) : Field :=
  mkField t (sourceBlock this) (validator_ this) (classValidator this)
          (maxDisplayLength this) (onFinishEditing_ this).

(** [Blockly.Field.NBSP], the ellipsis and the right-to-left mark. *)
Definition NBSP : N := 160.
Definition ELLIPSIS : N := 8230.
Definition RLM : N := 8207.

(** [Blockly.Field.prototype.classValidator]: no change needed. *)
Definition defaultClassValidator : Validator :=
  fun _ text => Text text.

Definition callValidator (this : Field) (text : jsstring) : option jsstring :=
  match classValidator this (self this) text with
  | Null => None
  | classResult =>
      let text := match classResult with
                  | Text t => t
                  | _ => text
                  end in
      match validator_ this with
      | Some userValidator =>
          match userValidator (self this) text with
          | Null => None
          | Text t => Some t
          | Undefined => Some text
          end
      | None => Some text
      end
  end.

Definition getDisplayText_ (this : Field) : Completion jsstring :=
  let text := text this in
  match text with
  | [] => Normal [NBSP]
  | _ =>
      let text :=
        if (Z.of_nat (length text) >? maxDisplayLength this)%Z
        then substring0 text (maxDisplayLength this - 2) ++ [ELLIPSIS]
        else text in
      let text := map (fun ch => if isWhiteSpace ch then NBSP else ch) text in
      match sourceBlock this with
      | None => Throw "TypeError: Cannot read property 'RTL' of null"
      | Some block => Normal (if RTL block then text ++ [RLM] else text)
      end
  end.

(** [setText]; the argument is [None] for [null] and a string otherwise, on
    which [String(newText)] is the identity. *)
Definition setText (this : Field) (newText : option jsstring)
    : Field * list Effect :=
  match newText with
  | None => (this, [])
  | Some newText =>
      if bool_decide (newText = text this) then (this, [])
      else (set_text this newText,
            match sourceBlock this with
            | Some block =>
                if rendered block then [Render; BumpNeighbours] else []
            | None => []
            end)
  end.

Definition getValue (this : Field) : jsstring := text this.

(** [setValue]; [eventsEnabled] is [Blockly.Events.isEnabled()] and
    [setText'] the [setText] method of the object, which a subclass may
    override. *)
Definition setValue (eventsEnabled : bool)
    (setText' : Field -> option jsstring -> Field * list Effect)
    (this : Field) (newValue : option jsstring) : Field * list Effect :=
  match newValue with
  | None => (this, [])
  | Some newValue =>
      let oldValue := getValue this in
      if bool_decide (oldValue = newValue) then (this, [])
      else
        let fired :=
          if bool_decide (is_Some (sourceBlock this)) && eventsEnabled
          then [FireChange oldValue newValue] else [] in
        let '(this', effects) := setText' this (Some newValue) in
        (this', fired ++ effects)
  end.

(** *** Argument types *)

(** [a.join(' ')] on an array of strings. *)
Fixpoint join (a : list jsstring) : jsstring :=
  match a with
  | [] => []
  | [s] => s
  | s :: a' => s ++ [32%N] ++ join a'
  end.

(** [addArgType] on [argType_], which is [null] ([None]) or an array. *)
Definition addArgType (argType_ : option (list jsstring)) (argType : jsstring)
    : option (list jsstring) :=
  let argType_ := match argType_ with
                  | None => []
                  | Some a => a
                  end in
  Some (argType_ ++ [argType]).

Definition getArgTypes (argType_ : option (list jsstring)) : option jsstring :=
  match argType_ with
  | None => None
  | Some [] => None
  | Some a => Some (join a)
  end.

(** *** The text element and the cache of text widths *)

(** The SVG text element of a field ([textElement_]): its class attribute
    and the text of its one child node. *)
Record SvgText : Type := mkSvgText {
  textContent : jsstring;
  classBaseVal : jsstring
}.

(** [updateTextNode].  The width of the field ([size_]), which the method
    resets with the layout to come, is not part of the model. *)
Definition updateTextNode (this : Field) (textElement_ : option SvgText)
    : Completion (option SvgText) :=
  match textElement_ with
  | None => Normal None
  | Some _ =>
      let text := text this in
      let '(text, class) :=
        if (Z.of_nat (length text) >? maxDisplayLength this)%Z
        then (substring0 text (maxDisplayLength this - 2) ++ [ELLIPSIS],
              lit "blocklyText blocklyTextTruncated")
        else (text, lit "blocklyText") in
      let text := map (fun ch => if isWhiteSpace ch then NBSP else ch) text in
      match sourceBlock this with
      | None => Throw "TypeError: Cannot read property 'RTL' of null"
      | Some block =>
          let text :=
            if RTL block && negb (bool_decide (text = []))
            then text ++ [RLM] else text in
          let text := match text with
                      | [] => [NBSP]
                      | _ => text
                      end in
          Normal (Some (mkSvgText text class))
      end
  end.

(** [Blockly.Field.cacheWidths_] ([None] for [null]) and
    [Blockly.Field.cacheReference_]. *)
Record WidthCache : Type := mkWidthCache {
  cacheWidths_ : option (gmap jsstring float);
  cacheReference_ : Z
}.

(** A number as a condition: all but 0, -0 and NaN hold. *)
Definition truthy (width : float) : bool :=
  negb (PrimFloat.eqb width 0 || PrimFloat.is_nan width).

(** [getCachedWidth]; [getComputedTextLength] is the measure of the browser,
    [None] when the call throws.  The result is the width and the cache
    after the call. *)
Definition getCachedWidth (getComputedTextLength : SvgText -> option float)
    (cache : WidthCache) (textElement : SvgText) : float * WidthCache :=
  let key := textContent textElement ++ [10%N] ++ classBaseVal textElement in
  let cached :=
    match cacheWidths_ cache with
    | Some widths =>
        match widths !! key with
        | Some width => if truthy width then Some width else None
        | None => None
        end
    | None => None
    end in
  match cached with
  | Some width => (width, cache)
  | None =>
      match getComputedTextLength textElement with
      | None =>
          (PrimFloat.of_uint63
             (Uint63.of_Z (Z.of_nat (length (textContent textElement)) * 8)),
           cache)
      | Some width =>
          (width,
           match cacheWidths_ cache with
           | Some widths =>
               mkWidthCache (Some (<[key := width]> widths))
                            (cacheReference_ cache)
           | None => cache
           end)
      end
  end.

Definition startCache (cache : WidthCache) : WidthCache :=
  let reference := (cacheReference_ cache + 1)%Z in
  mkWidthCache (match cacheWidths_ cache with
                | Some widths => Some widths
                | None => Some ∅
                end) reference.

Definition stopCache (cache : WidthCache) : WidthCache :=
  let reference := (cacheReference_ cache - 1)%Z in
  mkWidthCache (if (reference =? 0)%Z then None else cacheWidths_ cache)
               reference.

End Field.

(** ** Blockly.FieldTextInput (core/field_textinput.js) *)
Module FieldTextInput.
Import Field.

Definition setText (eventsEnabled : bool) (this : Field)
    (newText : option jsstring) : Field * list Effect :=
  match newText with
  | None => (this, [])
  | Some newText =>
      if bool_decide (newText = text this) then (this, [])
      else
        let fired :=
          if bool_decide (is_Some (sourceBlock this)) && eventsEnabled
          then [FireChange (text this) newText] else [] in
        let '(this', effects) := Field.setText this (Some newText) in
        (this', fired ++ effects)
  end.

Definition setValue (eventsEnabled : bool) (this : Field)
    (newValue : option jsstring) : Field * list Effect :=
  match newValue with
  | None => (this, [])
  | Some newValue =>
      let newValue :=
        match sourceBlock this with
        | Some _ =>
            match callValidator this newValue with
            | Some validated => validated
            | None => newValue
            end
        | None => newValue
        end in
      Field.setValue eventsEnabled (setText eventsEnabled) this (Some newValue)
  end.

(** The [input] element of the editor. *)
Record HtmlInput : Type := mkHtmlInput {
  value : jsstring;
  defaultValue : jsstring;
  oldValue_ : option jsstring
}.

(** What [showEditor] puts into the input element. *)
Definition showEditor (this : Field) : HtmlInput :=
  mkHtmlInput (text this) (text this) None.

(** [onHtmlInputChange_] on an [input] event (no restrictor): the text in
    the element is stored in the field when it is new. *)
Definition onHtmlInputChange_ (eventsEnabled : bool) (this : Field)
    (htmlInput : HtmlInput) : HtmlInput * (Field * list Effect) :=
  let text := value htmlInput in
  if bool_decide (Some text = oldValue_ htmlInput)
  then (htmlInput, (this, []))
  else (mkHtmlInput (value htmlInput) (defaultValue htmlInput) (Some text),
        setText eventsEnabled this (Some text)).

(** The closure of [widgetDispose_], up to the rendering of the field; the
    removal of the event handlers and the animation are left out. *)
Definition widgetDispose_ (eventsEnabled : bool) (thisField : Field)
    (htmlInput : HtmlInput) : Completion (Field * list Effect) :=
  let text := value htmlInput in
  let '(text, finished) :=
    match sourceBlock thisField with
    | Some _ =>
        match callValidator thisField text with
        | None => (defaultValue htmlInput, [])
        | Some text1 =>
            (text1,
             if onFinishEditing_ thisField then [FinishEditing text1] else [])
        end
    | None => (text, [])
    end in
  let '(thisField', effects) := setText eventsEnabled thisField (Some text) in
  match sourceBlock thisField' with
  | None => Throw "TypeError: Cannot read property 'rendered' of null"
  | Some block =>
      Normal (thisField',
              finished ++ effects
              ++ (if rendered block then [RenderField] else []))
  end.

(** [numberValidator]; the argument is [None] for [null]. *)
Definition numberValidator `{Builtins} (text : option jsstring)
    : option jsstring :=
  match text with
  | None => None
  | Some text =>
      let text := replaceO text in
      let text := removeCommas text in
      let n := parseFloat (match text with
                           | [] => toString zero
                           | _ => text
                           end) in
      if isNaN n then None else Some (toString n)
  end.

(** A keyboard or input event, as the handlers of the editor read it;
    [hasPreventDefault] says whether the event has a [preventDefault]
    method. *)
Inductive EventType : Type := Keydown | Keypress | Keyup | InputEvent.

Record KeyboardEvent : Type := mkKeyboardEvent {
  eventType : EventType;
  keyCode : Z;
  charCode : Z;
  metaKey : bool;
  ctrlKey : bool;
  shiftKey : bool;
  hasPreventDefault : bool
}.

(** [goog.userAgent]. *)
Record UserAgent : Type := mkUserAgent {
  GECKO : bool;
  WEBKIT : bool
}.

(** What the key handlers ask of the widget and of the event. *)
Inductive KeyEffect : Type :=
  | HideWidget
  | TabTo (forward : bool)
  | PreventDefault.

Definition onHtmlInputKeyDown_ (htmlInput : HtmlInput) (e : KeyboardEvent)
    : HtmlInput * list KeyEffect :=
  let tabKey := 9%Z in
  let enterKey := 13%Z in
  let escKey := 27%Z in
  if (keyCode e =? enterKey)%Z then (htmlInput, [HideWidget])
  else if (keyCode e =? escKey)%Z then
    (mkHtmlInput (defaultValue htmlInput) (defaultValue htmlInput)
                 (oldValue_ htmlInput),
     [HideWidget])
  else if (keyCode e =? tabKey)%Z then
    (htmlInput, [HideWidget; TabTo (negb (shiftKey e)); PreventDefault])
  else (htmlInput, []).

Definition GECKO_KEYCODE_WHITELIST : list Z := [97; 99; 118; 120]%Z.

(** [String.fromCharCode(keyCode)]: the one code unit [keyCode] modulo
    2^16. *)
Definition fromCharCode (keyCode : Z) : jsstring :=
  [Z.to_N (keyCode mod 65536)].

(** The first part of [onHtmlInputChange_]: whether the event is a key press
    that fails the restrictor, which is then prevented; [restrictor_] is
    [restrictor_.test], [None] when no restrictor is set. *)
Definition failsRestrictor (userAgent : UserAgent)
    (restrictor_ : option (jsstring -> bool)) (e : KeyboardEvent) : bool :=
  match eventType e, restrictor_ with
  | Keypress, Some test =>
      let '(keyCode, isWhitelisted) :=
        if GECKO userAgent then
          let keyCode := charCode e in
          (keyCode,
           if (keyCode <? 32)%Z || (keyCode =? 127)%Z then true
           else if metaKey e || ctrlKey e
                then bool_decide (keyCode ∈ GECKO_KEYCODE_WHITELIST)
                else false)
        else (keyCode e, false) in
      let char := fromCharCode keyCode in
      negb isWhitelisted && negb (test char) && hasPreventDefault e
  | _, _ => false
  end.

(** [validate]: whether the input element is classed as invalid
    afterwards. *)
Definition validate (this : Field) (htmlInput : HtmlInput) : bool :=
  match sourceBlock this with
  | Some _ =>
      match callValidator this (value htmlInput) with
      | None => true
      | Some _ => false
      end
  | None => false
  end.

(** [onHtmlInputChange_] on any event.  The result says whether the event
    was prevented, whether the input element is newly classed as invalid
    ([None] when the class is not touched), and what the input element and
    the field are afterwards.  Resizing the editor is left out. *)
Definition onHtmlInputChange (userAgent : UserAgent)
    (restrictor_ : option (jsstring -> bool)) (eventsEnabled : bool)
    (this : Field) (htmlInput : HtmlInput) (e : KeyboardEvent)
    : Completion (bool * option bool * HtmlInput * (Field * list Effect)) :=
  if failsRestrictor userAgent restrictor_ e
  then Normal (true, None, htmlInput, (this, []))
  else
    let text := value htmlInput in
    if bool_decide (Some text = oldValue_ htmlInput)
    then
      if WEBKIT userAgent then
        match sourceBlock this with
        | Some _ => Normal (false, None, htmlInput, (this, [Render]))
        | None => Throw "TypeError: Cannot read property 'render' of null"
        end
      else Normal (false, None, htmlInput, (this, []))
    else
      let htmlInput' :=
        mkHtmlInput (value htmlInput) (defaultValue htmlInput) (Some text) in
      let '(this', effects) := setText eventsEnabled this (Some text) in
      Normal (false, Some (validate this' htmlInput'), htmlInput',
              (this', effects)).

End FieldTextInput.

(** ** Blockly.FieldDropdown (field_dropdown.js) *)
Module FieldDropdown.
Import Field.

(** The content of an image option: [src], [width], [height] and the
    alternative text, [None] when it is [null]. *)
Record ImageJson : Type := mkImageJson {
  src : jsstring;
  alt : option jsstring;
  width : Z;
  height : Z
}.

(** The first component of an option: a human-readable text or an image. *)
Inductive Content : Type :=
  | TextContent (label : jsstring)
  | ImageContent (image : ImageJson).

(** An option: its content and its language-neutral value. *)
Abbreviation MenuOption := (Content * jsstring)%type.

(** [menuGenerator_]: an array of options, or a function that generates
    them; the function is called with the field as [this], of which it is
    given the value and the text. *)
Inductive MenuGenerator : Type :=
  | StaticOptions (options : list MenuOption)
  | DynamicOptions (generate : jsstring -> jsstring -> list MenuOption).

(** A dropdown field: the state it inherits from [Blockly.Field] and its
    own.  [selectedItem] is the menu item checked, by its value. *)
Record Dropdown : Type := mkDropdown {
  field : Field;
  value : jsstring;
  menuGenerator_ : MenuGenerator;
  imageJson_ : option ImageJson;
  selectedItem : option jsstring;
  prefixField : option jsstring;
  suffixField : option jsstring;
  textElement_ : option SvgText;
  argType_ : option (list jsstring)
}.

Definition set_field (this : Dropdown) (f : Field) : Dropdown :=
  mkDropdown f (value this) (menuGenerator_ this) (imageJson_ this)
             (selectedItem this) (prefixField this) (suffixField this)
             (textElement_ this) (argType_ this).

Definition set_textElement_ (this : Dropdown) (element : option SvgText)
    : Dropdown :=
  mkDropdown (field this) (value this) (menuGenerator_ this) (imageJson_ this)
             (selectedItem this) (prefixField this) (suffixField this)
             element (argType_ this).

Definition set_value (this : Dropdown) (v : jsstring) : Dropdown :=
  mkDropdown (field this) v (menuGenerator_ this) (imageJson_ this)
             (selectedItem this) (prefixField this) (suffixField this)
             (textElement_ this) (argType_ this).

Definition set_imageJson_ (this : Dropdown) (image : option ImageJson)
    : Dropdown :=
  mkDropdown (field this) (value this) (menuGenerator_ this) image
             (selectedItem this) (prefixField this) (suffixField this)
             (textElement_ this) (argType_ this).

Definition set_selectedItem (this : Dropdown) (item : option jsstring)
    : Dropdown :=
  mkDropdown (field this) (value this) (menuGenerator_ this) (imageJson_ this)
             item (prefixField this) (suffixField this)
             (textElement_ this) (argType_ this).

Definition set_menuGenerator_ (this : Dropdown) (g : MenuGenerator)
    : Dropdown :=
  mkDropdown (field this) (value this) g (imageJson_ this)
             (selectedItem this) (prefixField this) (suffixField this)
             (textElement_ this) (argType_ this).

Definition set_affixes (this : Dropdown) (prefix suffix : option jsstring)
    : Dropdown :=
  mkDropdown (field this) (value this) (menuGenerator_ this) (imageJson_ this)
             (selectedItem this) prefix suffix
             (textElement_ this) (argType_ this).

Definition getOptions (this : Dropdown) : list MenuOption :=
  match menuGenerator_ this with
  | DynamicOptions generate => generate (value this) (text (field this))
  | StaticOptions options => options
  end.

Definition isOptionListDynamic (this : Dropdown) : bool :=
  match menuGenerator_ this with
  | DynamicOptions _ => true
  | StaticOptions _ => false
  end.

Definition getValue (this : Dropdown) : jsstring := value this.

(** [setText]; the argument is [None] for [null].  Appending the arrow to
    the text element is left out. *)
Definition setText (this : Dropdown) (newText : option jsstring)
    : Completion (Dropdown * list Effect) :=
  match newText with
  | None => Normal (this, [])
  | Some newText =>
      if bool_decide (newText = text (field this)) then Normal (this, [])
      else
        let this := set_field this (set_text (field this) newText) in
        match updateTextNode (field this) (textElement_ this) with
        | Throw msg => Throw msg
        | Normal element =>
            let element :=
              match element with
              | Some el =>
                  Some (mkSvgText (textContent el)
                          (classBaseVal el ++ lit " blocklyDropdownText"))
              | None => None
              end in
            Normal (set_textElement_ this element,
                    match sourceBlock (field this) with
                    | Some block =>
                        if rendered block then [Render; BumpNeighbours]
                        else []
                    | None => []
                    end)
        end
  end.

(** The loop of [setValue] over the options: the content of the first
    option whose value is [newValue]. *)
Fixpoint lookUp (options : list MenuOption) (newValue : jsstring)
    : option Content :=
  match options with
  | [] => None
  | (content, v) :: options' =>
      if bool_decide (v = newValue) then Some content
      else lookUp options' newValue
  end.

(** [setValue]; the argument is [None] for [null].  Unchecking the menu
    item of the old value is a matter of the menu and left out. *)
Definition setValue (eventsEnabled : bool) (this : Dropdown)
    (newValue : option jsstring) : Completion (Dropdown * list Effect) :=
  match newValue with
  | None => Normal (this, [])
  | Some newValue =>
      if bool_decide (newValue = value this) then Normal (this, [])
      else
        let fired :=
          if bool_decide (is_Some (sourceBlock (field this))) && eventsEnabled
          then [FireChange (value this) newValue] else [] in
        let this := set_selectedItem this None in
        let this := set_value this newValue in
        let shown :=
          match lookUp (getOptions this) newValue with
          | Some (ImageContent image) =>
              setText (set_imageJson_ this (Some image)) (alt image)
          | Some (TextContent label) =>
              setText (set_imageJson_ this None) (Some label)
          | None => setText this (Some newValue)
          end in
        match shown with
        | Normal (this', effects) => Normal (this', fired ++ effects)
        | Throw msg => Throw msg
        end
  end.

(** [onItemSelected]; [menuItemValue] is [menuItem.getValue()]. *)
Definition onItemSelected (eventsEnabled : bool) (this : Dropdown)
    (menuItemValue : jsstring) : Completion (Dropdown * list Effect) :=
  let value :=
    match sourceBlock (field this) with
    | Some _ => callValidator (field this) menuItemValue
    | None => Some menuItemValue
    end in
  match value with
  | Some value => setValue eventsEnabled this (Some value)
  | None => Normal (this, [])
  end.

(** [s.substring(a, b)] for integers: both ends are clamped to the string,
    and swapped when they come in the wrong order. *)
Definition substring (s : jsstring) (a b : Z) : jsstring :=
  let len := Z.of_nat (length s) in
  let a := Z.min (Z.max a 0) len in
  let b := Z.min (Z.max b 0) len in
  let from := Z.min a b in
  let to := Z.max a b in
  take (Z.to_nat (to - from)) (drop (Z.to_nat from) s).

(** [s.substr(start)]: a negative [start] counts from the end. *)
Definition substr (s : jsstring) (start : Z) : jsstring :=
  let len := Z.of_nat (length s) in
  let start := if (start <? 0)%Z then Z.max (len + start) 0
               else Z.min start len in
  drop (Z.to_nat start) s.

Section TrimOptions.
(** The helpers of [Blockly.utils] (utils.js, not among the sources). *)
Variable replaceMessageReferences : jsstring -> jsstring.
Variable shortestStringLength : list jsstring -> Z.
Variable commonWordPrefix : list jsstring -> Z -> Z.
Variable commonWordSuffix : list jsstring -> Z -> Z.

(** The first loop of [trimOptions] on one option: labels and alternative
    texts are localized. *)
Definition localize (o : MenuOption) : MenuOption :=
  match fst o with
  | TextContent label => (TextContent (replaceMessageReferences label), snd o)
  | ImageContent image =>
      (ImageContent
         (mkImageJson (src image)
            (match alt image with
             | Some a => Some (replaceMessageReferences a)
             | None => None
             end) (width image) (height image)),
       snd o)
  end.

Definition isImage (o : MenuOption) : bool :=
  match fst o with
  | ImageContent _ => true
  | TextContent _ => false
  end.

(** The label of an option whose content is a text. *)
Definition labelOf (o : MenuOption) : jsstring :=
  match fst o with
  | TextContent label => label
  | ImageContent _ => []
  end.

Definition trimOptions (this : Dropdown) : Dropdown :=
  let this := set_affixes this None None in
  match menuGenerator_ this with
  | DynamicOptions _ => this
  | StaticOptions options =>
      let options := map localize options in
      let hasImages := existsb isImage options in
      let this := set_menuGenerator_ this (StaticOptions options) in
      if hasImages || (Z.of_nat (length options) <? 2)%Z then this
      else
        let strings := map labelOf options in
        let shortest := shortestStringLength strings in
        let prefixLength := commonWordPrefix strings shortest in
        let suffixLength := commonWordSuffix strings shortest in
        if (prefixLength =? 0)%Z && (suffixLength =? 0)%Z then this
        else if (shortest <=? prefixLength + suffixLength)%Z then this
        else
          let first := match strings with
                       | s :: _ => s
                       | [] => []
                       end in
          let prefix :=
            if (prefixLength =? 0)%Z then None
            else Some (substring first 0 (prefixLength - 1)) in
          let suffix :=
            if (suffixLength =? 0)%Z then None
            else Some (substr first (1 - suffixLength)) in
          let newOptions :=
            map (fun o : MenuOption =>
                   let text := labelOf o in
                   (TextContent
                      (substring text prefixLength
                         (Z.of_nat (length text) - suffixLength)),
                    snd o)) options in
          set_menuGenerator_ (set_affixes this prefix suffix)
            (StaticOptions newOptions)
  end.

(** The constructor: a dropdown as the prototypes give it, trimmed, set to
    the value of its first option by the constructor of [Blockly.Field],
    with the validator and the argument type.  [MAX_DISPLAY_LENGTH] is
    [Blockly.BlockSvg.MAX_DISPLAY_LENGTH]. *)
Definition create (MAX_DISPLAY_LENGTH : Z) (eventsEnabled : bool)
    (menuGenerator : MenuGenerator)
    (opt_validator : option Validator)
    : Completion Dropdown :=
  let this :=
    mkDropdown
      (mkField [] None None defaultClassValidator MAX_DISPLAY_LENGTH false)
      [] menuGenerator None None None None None None in
  let this := trimOptions this in
  match getOptions this with
  | [] => Throw "TypeError: Cannot read property '1' of undefined"
  | firstTuple :: _ =>
      match setValue eventsEnabled this (Some (snd firstTuple)) with
      | Throw msg => Throw msg
      | Normal (this, _) =>
          let f := field this in
          let this :=
            set_field this
              (mkField (text f) (sourceBlock f) opt_validator
                       (classValidator f) MAX_DISPLAY_LENGTH
                       (onFinishEditing_ f)) in
          Normal (mkDropdown (field this) (value this) (menuGenerator_ this)
                    (imageJson_ this) (selectedItem this) (prefixField this)
                    (suffixField this) (textElement_ this)
                    (addArgType (argType_ this) (lit "dropdown")))
      end
  end.

End TrimOptions.

End FieldDropdown.

(* ================================================================== *)
(** * Part II. Lemmas and theorems                                     *)
(* ================================================================== *)

(** ** Facts about the store and the index *)
Section StoreFacts.
Context {N : Number}.
Implicit Types (ws : Workspace) (r : ConnRef) (c : Connection)
  (l : list ConnRef) (d : DbRef).

Lemma workspace_eta ws : mkWorkspace (connections ws) (databases ws) = ws.
Proof. by destruct ws. Qed.

Lemma entries_deref ws l es :
  deref (connections ws) l = Some es ->
  ConnectionDB.entries l ws = Normal (es, ws).
Proof.
  revert es. induction l as [|r l IH]; intros es; simpl.
  - by intros [= <-].
  - unfold bind, getConnection.
    destruct (connections ws !! r) as [c|]; [|done].
    destruct (deref (connections ws) l) as [es'|]; [|done].
    intros [= <-]. by rewrite (IH es').
Qed.

Lemma deref_is_Some (m : gmap ConnRef Connection) l :
  (forall r, r ∈ l -> is_Some (m !! r)) -> is_Some (deref m l).
Proof.
  induction l as [|r l IH]; intros H; simpl; [by eexists|].
  destruct (H r) as [c ->]; [by left|].
  destruct IH as [es ->]; [|by eexists].
  intros r' Hr'. apply H. by right.
Qed.

Lemma deref_ext (m m' : gmap ConnRef Connection) l :
  (forall r, r ∈ l -> m !! r = m' !! r) -> deref m l = deref m' l.
Proof.
  induction l as [|r l IH]; intros H; simpl; [done|].
  rewrite (H r) by (by left). rewrite IH; [done|].
  intros r' Hr'. apply H. by right.
Qed.

Lemma splice_elem r l : r ∈ l -> is_Some (ConnectionDB.splice r l).
Proof.
  induction l as [|e l IH]; [by intros ?%elem_of_nil|].
  intros Hr. simpl. destruct (decide (e = r)) as [->|Hne]; [by eexists|].
  destruct IH as [l' ->]; [|by eexists].
  apply elem_of_cons in Hr as [->|]; done.
Qed.

Lemma splice_perm r l l' : ConnectionDB.splice r l = Some l' -> l ≡ₚ r :: l'.
Proof.
  revert l'. induction l as [|e l IH]; intros l'; simpl; [done|].
  destruct (decide (e = r)) as [->|Hne]; [by intros [= ->]|].
  destruct (ConnectionDB.splice r l) as [l''|]; [|done].
  intros [= <-]. rewrite (IH l'') by done. apply Permutation_swap.
Qed.

Lemma splice_middle r l1 l2 :
  r ∉ l1 -> ConnectionDB.splice r (l1 ++ r :: l2) = Some (l1 ++ l2).
Proof.
  induction l1 as [|e l1 IH]; intros Hr; simpl.
  - by rewrite decide_True.
  - apply not_elem_of_cons in Hr as [Hne Hr].
    rewrite decide_False by done. by rewrite IH.
Qed.

Lemma insert_at_perm r l i : take i l ++ r :: drop i l ≡ₚ r :: l.
Proof. by rewrite <-Permutation_middle, take_drop. Qed.

(** Well-formed workspaces: every connection names a database that exists,
    its [inDB] flag says whether that database lists it, every entry of a
    database is a connection of that database, and no entry is listed twice. *)
Record wf ws : Prop := {
  wf_db : forall r c,
      connections ws !! r = Some c -> is_Some (databases ws !! db c);
  wf_flag : forall r c l,
      connections ws !! r = Some c -> databases ws !! db c = Some l ->
      inDB c = true <-> r ∈ l;
  wf_entry : forall d l r,
      databases ws !! d = Some l -> r ∈ l ->
      exists c, connections ws !! r = Some c /\ db c = d;
  wf_nodup : forall d l, databases ws !! d = Some l -> NoDup l
}.

Lemma wf_deref ws d l :
  wf ws -> databases ws !! d = Some l ->
  is_Some (deref (connections ws) l).
Proof.
  intros Hwf Hd. apply deref_is_Some. intros r Hr.
  destruct (wf_entry ws Hwf d l r Hd Hr) as (c & -> & _). by eexists.
Qed.

(** Changing fields other than [db] and [inDB] keeps a workspace well formed. *)
Lemma wf_update ws r c c' :
  wf ws -> connections ws !! r = Some c ->
  db c' = db c -> inDB c' = inDB c ->
  wf (mkWorkspace (<[r := c']> (connections ws)) (databases ws)).
Proof.
  intros Hwf Hr Hdb Hin. split; simpl.
  - intros r1 c1. rewrite lookup_insert. case_decide as E.
    + intros [= <-]. rewrite Hdb. by eapply wf_db.
    + by apply wf_db.
  - intros r1 c1 l. rewrite lookup_insert. case_decide as E.
    + intros [= <-]. subst r1. rewrite Hdb, Hin. by apply wf_flag.
    + by apply wf_flag.
  - intros d l r1 Hd Hr1.
    destruct (wf_entry ws Hwf d l r1 Hd Hr1) as (c1 & Hc1 & Hd1).
    rewrite lookup_insert. case_decide as E.
    + subst r1. exists c'. split; [done|]. rewrite Hdb. congruence.
    + by exists c1.
  - by apply wf_nodup.
Qed.

Lemma addConnection_run ws r c l es :
  connections ws !! r = Some c -> inDB c = false ->
  databases ws !! db c = Some l ->
  deref (connections ws) l = Some es ->
  ConnectionDB.addConnection (db c) r ws =
  Normal (tt, mkWorkspace
    (<[r := set_inDB c true]> (connections ws))
    (<[db c := take (ConnectionDB.findPositionForConnection es c) l
               ++ r :: drop (ConnectionDB.findPositionForConnection es c) l]>
       (databases ws))).
Proof.
  intros Hr Hin Hd Hes.
  unfold ConnectionDB.addConnection, bind, getConnection, getDatabase, throw.
  rewrite Hr; cbn. rewrite Hin. rewrite Hd; cbn.
  by rewrite (entries_deref ws l es Hes).
Qed.

Lemma removeConnection_run ws r c l l' :
  connections ws !! r = Some c -> inDB c = true ->
  databases ws !! db c = Some l ->
  ConnectionDB.splice r l = Some l' ->
  ConnectionDB.removeConnection (db c) r ws =
  Normal (tt, mkWorkspace (<[r := set_inDB c false]> (connections ws))
                          (<[db c := l']> (databases ws))).
Proof.
  intros Hr Hin Hd Hs.
  unfold ConnectionDB.removeConnection, bind, getConnection, getDatabase,
    throw.
  rewrite Hr; cbn. rewrite Hin; cbn. rewrite Hd; cbn. by rewrite Hs.
Qed.

(** Replacing the list of [db c] by one with [r] added (or taken out), and
    the flag of [r] accordingly, keeps a workspace well formed. *)
Lemma wf_register ws r c l l' (b : bool) :
  wf ws -> connections ws !! r = Some c ->
  databases ws !! db c = Some l ->
  NoDup l' ->
  (forall e, e ∈ l' <-> (e = r /\ b = true) \/ (e ≠ r /\ e ∈ l)) ->
  wf (mkWorkspace (<[r := set_inDB c b]> (connections ws))
                  (<[db c := l']> (databases ws))).
Proof.
  intros Hwf Hr Hd Hnd Hl'. split; simpl.
  - intros r1 c1 H1.
    assert (is_Some (databases ws !! db c1)) as [l1 Hl1].
    { revert H1. rewrite lookup_insert. case_decide as E.
      - intros [= <-]. simpl. by eexists.
      - by apply wf_db. }
    rewrite lookup_insert. case_decide; by eexists.
  - intros r1 c1 l1. rewrite lookup_insert. case_decide as E.
    + intros [= <-]. subst r1. simpl. rewrite lookup_insert_eq.
      intros [= <-]. rewrite Hl'. destruct b; naive_solver.
    + intros H1. rewrite lookup_insert. case_decide as E2.
      * intros [= <-]. rewrite Hl'.
        rewrite (wf_flag ws Hwf r1 c1 l H1) by congruence. naive_solver.
      * by apply wf_flag.
  - intros d l1 r1. rewrite lookup_insert. case_decide as E.
    + intros [= <-]. rewrite Hl'. intros [[-> _]|[Hne Hin]].
      * exists (set_inDB c b). split; [apply lookup_insert_eq | exact E].
      * destruct (wf_entry ws Hwf (db c) l r1 Hd Hin) as (c1 & Hc1 & Hd1).
        exists c1. split; [by rewrite lookup_insert_ne | congruence].
    + intros Hd1 Hin.
      destruct (wf_entry ws Hwf d l1 r1 Hd1 Hin) as (c1 & Hc1 & Hdc1).
      rewrite lookup_insert. case_decide as E2.
      * subst r1. congruence.
      * by exists c1.
  - intros d l1. rewrite lookup_insert. case_decide as E.
    + by intros [= <-].
    + by apply wf_nodup.
Qed.

Lemma set_inDB_id c : set_inDB c (inDB c) = c.
Proof. by destruct c. Qed.

Lemma removeConnection_spec ws r c :
  wf ws -> connections ws !! r = Some c -> inDB c = true ->
  exists ws', ConnectionDB.removeConnection (db c) r ws = Normal (tt, ws')
    /\ wf ws'
    /\ connections ws' = <[r := set_inDB c false]> (connections ws).
Proof.
  intros Hwf Hr Hin.
  destruct (wf_db ws Hwf r c Hr) as [l Hd].
  assert (r ∈ l) as Hrl by (by apply (wf_flag ws Hwf r c l)).
  destruct (splice_elem r l Hrl) as [l' Hs].
  pose proof (splice_perm r l l' Hs) as Hp.
  pose proof (wf_nodup ws Hwf _ _ Hd) as Hnd.
  rewrite Hp in Hnd. apply NoDup_cons in Hnd as [Hnr Hnd'].
  eexists. split; [by eapply removeConnection_run|]. split; [|done].
  apply wf_register with (l := l); try done.
  intros e. rewrite Hp, elem_of_cons.
  destruct (decide (e = r)) as [->|]; naive_solver.
Qed.

Lemma addConnection_spec ws r c :
  wf ws -> connections ws !! r = Some c -> inDB c = false ->
  exists ws', ConnectionDB.addConnection (db c) r ws = Normal (tt, ws')
    /\ wf ws'
    /\ connections ws' = <[r := set_inDB c true]> (connections ws).
Proof.
  intros Hwf Hr Hin.
  destruct (wf_db ws Hwf r c Hr) as [l Hd].
  destruct (wf_deref ws _ l Hwf Hd) as [es Hes].
  assert (r ∉ l) as Hrl.
  { rewrite <-(wf_flag ws Hwf r c l) by done. by rewrite Hin. }
  pose proof (wf_nodup ws Hwf _ _ Hd) as Hnd.
  eexists. split; [by eapply addConnection_run|]. split; [|done].
  apply wf_register with (l := l); try done.
  - rewrite insert_at_perm. by apply NoDup_cons.
  - intros e. rewrite insert_at_perm, elem_of_cons.
    destruct (decide (e = r)) as [->|]; naive_solver.
Qed.

End StoreFacts.

(** ** moveTo and setHidden keep the index in step with visibility *)
Section Registration.
Context {N : Number}.
Implicit Types (ws : Workspace) (r : ConnRef) (c : Connection).

(** What [moveTo] leaves in the connection. *)
Definition moved c (a b : num) : Connection :=
  set_inDB (set_xy c a b) (negb (hidden c)).

(** What [setHidden] leaves in the connection. *)
Definition shown c (h : bool) : Connection :=
  set_inDB (set_hidden c h) (negb h).

Lemma moveTo_spec ws r c a b :
  wf ws -> connections ws !! r = Some c ->
  exists ws', RenderedConnection.moveTo r a b ws = Normal (tt, ws')
    /\ wf ws'
    /\ connections ws' = <[r := moved c a b]> (connections ws).
Proof.
  intros Hwf Hr.
  (* leave the old location *)
  assert (exists ws1,
    (if inDB c then ConnectionDB.removeConnection (db c) r else ret tt) ws
      = Normal (tt, ws1)
    /\ wf ws1
    /\ connections ws1 = <[r := set_inDB c false]> (connections ws))
    as (ws1 & Hrun1 & Hwf1 & Hc1).
  { destruct (inDB c) eqn:Hin.
    - by apply removeConnection_spec.
    - exists ws. split; [done|]. split; [done|].
      rewrite <-Hin, set_inDB_id. by rewrite insert_id. }
  assert (connections ws1 !! r = Some (set_inDB c false)) as Hr1
    by (rewrite Hc1; apply lookup_insert_eq).
  (* store the coordinates *)
  set (c2 := set_xy (set_inDB c false) a b).
  set (ws2 := mkWorkspace (<[r := c2]> (connections ws1)) (databases ws1)).
  assert (wf ws2) as Hwf2 by (by eapply wf_update).
  assert (connections ws2 !! r = Some c2) as Hr2 by apply lookup_insert_eq.
  (* enter the new location *)
  assert (exists ws3,
    (if negb (hidden c2) then ConnectionDB.addConnection (db c2) r
     else ret tt) ws2 = Normal (tt, ws3)
    /\ wf ws3
    /\ connections ws3 = <[r := moved c a b]> (connections ws))
    as (ws3 & Hrun3 & Hwf3 & Hc3).
  { destruct (hidden c) eqn:Hh; subst c2; simpl; rewrite Hh; simpl.
    - exists ws2. split; [done|]. split; [done|]. subst ws2; simpl.
      rewrite Hc1, insert_insert_eq. unfold moved. by rewrite Hh.
    - destruct (addConnection_spec ws2 r _ Hwf2 Hr2 eq_refl)
        as (ws3 & Hrun & Hwf3 & Hc3).
      exists ws3. split; [exact Hrun|]. split; [done|].
      rewrite Hc3. subst ws2; simpl.
      rewrite Hc1, !insert_insert_eq. unfold moved. by rewrite Hh. }
  exists ws3. split; [|done].
  unfold RenderedConnection.moveTo, bind, getConnection.
  rewrite Hr; cbn. rewrite Hrun1; cbn. rewrite Hr1; cbn.
  unfold putConnection; cbn. rewrite lookup_insert_eq; cbn.
  exact Hrun3.
Qed.

Lemma setHidden_spec ws r c h :
  wf ws -> connections ws !! r = Some c ->
  exists ws', RenderedConnection.setHidden r h ws = Normal (tt, ws')
    /\ wf ws'
    /\ connections ws' = <[r := shown c h]> (connections ws).
Proof.
  intros Hwf Hr.
  set (c1 := set_hidden c h).
  set (ws1 := mkWorkspace (<[r := c1]> (connections ws)) (databases ws)).
  assert (wf ws1) as Hwf1 by (by eapply wf_update).
  assert (connections ws1 !! r = Some c1) as Hr1 by apply lookup_insert_eq.
  unfold RenderedConnection.setHidden, bind, getConnection.
  rewrite Hr; cbn. unfold putConnection; cbn. rewrite lookup_insert_eq; cbn.
  fold c1. fold ws1.
  destruct h, (inDB c) eqn:Hin; cbn.
  - destruct (removeConnection_spec ws1 r c1 Hwf1 Hr1 Hin)
      as (ws2 & Hrun & Hwf2 & Hc2).
    exists ws2. split; [exact Hrun|]. split; [done|].
    rewrite Hc2. subst ws1; simpl. by rewrite insert_insert_eq.
  - exists ws1. split; [done|]. split; [done|]. subst ws1; simpl.
    f_equal. unfold shown. subst c1. destruct c; simpl in *. by subst.
  - exists ws1. split; [done|]. split; [done|]. subst ws1; simpl.
    f_equal. unfold shown. subst c1. destruct c; simpl in *. by subst.
  - destruct (addConnection_spec ws1 r c1 Hwf1 Hr1 Hin)
      as (ws2 & Hrun & Hwf2 & Hc2).
    exists ws2. split; [exact Hrun|]. split; [done|].
    rewrite Hc2. subst ws1; simpl. by rewrite insert_insert_eq.
Qed.

(** A call of one of the two methods that touch the index. *)
Inductive Op : Type :=
  | MoveTo (r : ConnRef) (a b : num)
  | SetHidden (r : ConnRef) (h : bool).

Definition target (op : Op) : ConnRef :=
  match op with
  | MoveTo r _ _ => r
  | SetHidden r _ => r
  end.

Definition perform (op : Op) : M unit :=
  match op with
  | MoveTo r a b => RenderedConnection.moveTo r a b
  | SetHidden r h => RenderedConnection.setHidden r h
  end.

Fixpoint performAll (ops : list Op) : M unit :=
  match ops with
  | [] => ret tt
  | op :: ops' => perform op ;; performAll ops'
  end.

(** [r] is present in the spatial index: some database lists it. *)
Definition indexed ws r : Prop :=
  exists d l, databases ws !! d = Some l /\ r ∈ l.

(** The index agrees with the visibility of [r]. *)
Definition inStep ws r : Prop :=
  forall c, connections ws !! r = Some c -> indexed ws r <-> hidden c = false.

Lemma indexed_flag ws r c :
  wf ws -> connections ws !! r = Some c -> indexed ws r <-> inDB c = true.
Proof.
  intros Hwf Hr. split.
  - intros (d & l & Hd & Hl).
    destruct (wf_entry ws Hwf d l r Hd Hl) as (c' & Hc' & Hdc').
    assert (c' = c) as -> by congruence. subst d.
    by apply (wf_flag ws Hwf r c l).
  - intros Hin. destruct (wf_db ws Hwf r c Hr) as [l Hd].
    exists (db c), l. split; [done|]. by apply (wf_flag ws Hwf r c l).
Qed.

Lemma indexed_same_connection ws ws' r :
  wf ws -> wf ws' -> connections ws' !! r = connections ws !! r ->
  indexed ws' r <-> indexed ws r.
Proof.
  intros Hwf Hwf' Hc.
  destruct (connections ws !! r) as [c|] eqn:Hr.
  - by rewrite (indexed_flag ws r c), (indexed_flag ws' r c).
  - split; intros (d & l & Hd & Hl).
    + destruct (wf_entry ws' Hwf' d l r Hd Hl) as (c & Hr' & _). congruence.
    + destruct (wf_entry ws Hwf d l r Hd Hl) as (c & Hr' & _). congruence.
Qed.

Lemma indexed_same_connections ws ws' r :
  wf ws -> wf ws' -> connections ws' = connections ws ->
  indexed ws' r <-> indexed ws r.
Proof.
  intros Hwf Hwf' Hc. apply indexed_same_connection; [done..|].
  by rewrite Hc.
Qed.

Lemma perform_spec ws op c :
  wf ws -> connections ws !! target op = Some c ->
  exists ws' c', perform op ws = Normal (tt, ws')
    /\ wf ws'
    /\ connections ws' = <[target op := c']> (connections ws)
    /\ inDB c' = negb (hidden c').
Proof.
  intros Hwf Hr. destruct op as [r a b|r h]; simpl in *.
  - destruct (moveTo_spec ws r c a b Hwf Hr) as (ws' & Hrun & Hwf' & Hc).
    by exists ws', (moved c a b).
  - destruct (setHidden_spec ws r c h Hwf Hr) as (ws' & Hrun & Hwf' & Hc).
    by exists ws', (shown c h).
Qed.

Lemma performAll_inStep ops : forall ws r,
  wf ws ->
  (forall op, op ∈ ops -> is_Some (connections ws !! target op)) ->
  r ∈ map target ops \/ inStep ws r ->
  exists ws', performAll ops ws = Normal (tt, ws') /\ wf ws' /\ inStep ws' r.
Proof.
  induction ops as [|op ops IH]; intros ws r Hwf Hops Hr; simpl.
  - exists ws. split; [done|]. split; [done|].
    destruct Hr as [Hr|Hr]; [by apply elem_of_nil in Hr | done].
  - destruct (Hops op) as [c Hc]; [by left|].
    destruct (perform_spec ws op c Hwf Hc)
      as (ws1 & c' & Hrun & Hwf1 & Hc1 & Hflag).
    destruct (IH ws1 r Hwf1) as (ws' & Hrun' & Hwf' & Hstep).
    + intros op' Hop'. rewrite Hc1, lookup_insert. case_decide; [by eexists|].
      apply Hops. by right.
    + destruct (decide (r ∈ map target ops)) as [Hin|Hnin]; [by left|right].
      intros c1 Hr1. rewrite (indexed_flag ws1 r c1 Hwf1 Hr1).
      revert Hr1. rewrite Hc1, lookup_insert. case_decide as E.
      * intros [= <-]. rewrite Hflag. by destruct (hidden c').
      * intros Hr1. destruct Hr as [Hr|Hr].
        -- simpl in Hr. apply elem_of_cons in Hr as [->|]; done.
        -- rewrite <-(indexed_flag ws r c1 Hwf Hr1). by apply Hr.
    + exists ws'. split; [|done]. unfold bind. by rewrite Hrun.
Qed.

(** A workspace of one connection, listed by its database exactly when
    its flag says so, is well formed. *)
Lemma wf_single r c :
  wf (mkWorkspace {[ r := c ]} {[ db c := if inDB c then [r] else [] ]}).
Proof.
  split; simpl.
  - intros r' c' [_ <-]%lookup_singleton_Some.
    rewrite lookup_singleton_eq. by eexists.
  - intros r' c' l [<- <-]%lookup_singleton_Some.
    rewrite lookup_singleton_eq. intros [= <-].
    destruct (inDB c); split; try done.
    + intros _. by left.
    + by intros ?%elem_of_nil.
  - intros d l r' [<- <-]%lookup_singleton_Some Hr'. exists c.
    destruct (inDB c).
    + apply list_elem_of_singleton in Hr' as ->.
      by rewrite lookup_singleton_eq.
    + by apply elem_of_nil in Hr'.
  - intros d l [_ <-]%lookup_singleton_Some.
    destruct (inDB c); [apply NoDup_singleton | constructor].
Qed.

(** [setHidden(true)] then [setHidden(false)]: the connection ends visible
    and registered, the others keep their place. *)
Lemma setHidden_pair_spec ws r c :
  wf ws -> connections ws !! r = Some c ->
  exists ws',
    performAll [SetHidden r true; SetHidden r false] ws = Normal (tt, ws')
    /\ wf ws'
    /\ connections ws' = <[r := shown c false]> (connections ws).
Proof.
  intros Hwf Hr.
  destruct (setHidden_spec ws r c true Hwf Hr) as (ws1 & Hrun1 & Hwf1 & Hc1).
  assert (connections ws1 !! r = Some (shown c true)) as Hr1
    by (rewrite Hc1; apply lookup_insert_eq).
  destruct (setHidden_spec ws1 r _ false Hwf1 Hr1)
    as (ws2 & Hrun2 & Hwf2 & Hc2).
  exists ws2. split; [|split; [done|]].
  - simpl. unfold bind. by rewrite Hrun1, Hrun2.
  - rewrite Hc2, Hc1, insert_insert_eq. by destruct c.
Qed.

(** C2 (amended).  In a well-formed workspace, after any sequence of [moveTo]
    and [setHidden] calls that contains a call on the connection [r] (or that
    starts where the index already agrees with the visibility of [r]), [r] is
    in the spatial index if and only if it is not hidden; and
    [setHidden(true)] followed by [setHidden(false)] leaves [r] in the index
    and every other connection where it was, so that the index membership
    is what it was before the pair exactly when [r] was in the index
    before. *)
Theorem setHidden_moveTo_index_membership ws r c :
  wf ws -> connections ws !! r = Some c ->
  (forall ops,
     (forall op, op ∈ ops -> is_Some (connections ws !! target op)) ->
     r ∈ map target ops \/ inStep ws r ->
     exists ws', performAll ops ws = Normal (tt, ws')
       /\ wf ws' /\ inStep ws' r)
  /\ (exists ws',
        performAll [SetHidden r true; SetHidden r false] ws = Normal (tt, ws')
        /\ indexed ws' r
        /\ (forall r', r' <> r -> indexed ws' r' <-> indexed ws r')
        /\ ((forall r', indexed ws' r' <-> indexed ws r') <-> indexed ws r)).
Proof.
  intros Hwf Hr. split.
  - intros ops Hops Hstart. by apply performAll_inStep.
  - destruct (setHidden_pair_spec ws r c Hwf Hr) as (ws' & Hrun & Hwf' & Hc).
    assert (indexed ws' r) as Hin.
    { apply (indexed_flag ws' r (shown c false)); [done| |done].
      rewrite Hc. apply lookup_insert_eq. }
    assert (forall r', r' <> r -> indexed ws' r' <-> indexed ws r') as Hout.
    { intros r' Hne. apply indexed_same_connection; [done..|].
      rewrite Hc. by apply lookup_insert_ne. }
    exists ws'. split; [done|]. split; [done|]. split; [done|]. split.
    + intros Hall. by apply Hall.
    + intros Hws r'. destruct (decide (r' = r)) as [->|Hne]; [done|].
      by apply Hout.
Qed.

End Registration.

(** ** moveBy there and back *)
Section RoundTrip.
Context {N : Number}.
Implicit Types (ws : Workspace) (r : ConnRef) (c : Connection).

Lemma findPosition_xy es c c' :
  x c' = x c -> y c' = y c ->
  ConnectionDB.findPositionForConnection es c'
  = ConnectionDB.findPositionForConnection es c.
Proof.
  intros Hx Hy. induction es as [|[r e] es IH]; simpl; [done|].
  unfold ConnectionDB.precedes. by rewrite Hx, Hy, IH.
Qed.

(** [moveTo] on a hidden, unregistered connection only stores the
    coordinates. *)
Lemma moveTo_run_hidden ws r c a b :
  connections ws !! r = Some c -> inDB c = false -> hidden c = true ->
  RenderedConnection.moveTo r a b ws
  = Normal (tt, mkWorkspace (<[r := set_xy c a b]> (connections ws))
                            (databases ws)).
Proof.
  intros Hr Hin Hh.
  unfold RenderedConnection.moveTo, bind, getConnection, putConnection, ret.
  rewrite Hr; cbn. rewrite Hin; cbn. rewrite Hr; cbn.
  rewrite lookup_insert_eq; cbn. by rewrite Hh.
Qed.

(** [moveTo] on a visible, registered connection takes it out of its
    database and inserts it again at the position of the new coordinates. *)
Lemma moveTo_run_registered ws r c a b l1 l2 es :
  connections ws !! r = Some c -> inDB c = true -> hidden c = false ->
  databases ws !! db c = Some (l1 ++ r :: l2) -> r ∉ l1 ++ l2 ->
  deref (connections ws) (l1 ++ l2) = Some es ->
  let i := ConnectionDB.findPositionForConnection es (set_xy c a b) in
  RenderedConnection.moveTo r a b ws
  = Normal (tt, mkWorkspace
      (<[r := set_xy c a b]> (connections ws))
      (<[db c := take i (l1 ++ l2) ++ r :: drop i (l1 ++ l2)]> (databases ws))).
Proof.
  intros Hr Hin Hh Hd Hnr Hes i.
  assert (r ∉ l1) as Hn1 by (intros ?; apply Hnr, elem_of_app; by left).
  set (ws1 := mkWorkspace (<[r := set_inDB c false]> (connections ws))
                          (<[db c := l1 ++ l2]> (databases ws))).
  set (c2 := set_xy (set_inDB c false) a b).
  set (ws2 := mkWorkspace (<[r := c2]> (connections ws1)) (databases ws1)).
  assert (deref (connections ws2) (l1 ++ l2) = Some es) as Hes2.
  { rewrite <-Hes. apply deref_ext. intros e He. subst ws2 ws1; simpl.
    rewrite !lookup_insert_ne; [done|intros ->; done..]. }
  unfold RenderedConnection.moveTo, bind, getConnection.
  rewrite Hr; cbn. rewrite Hin.
  rewrite (removeConnection_run ws r c _ _ Hr Hin Hd (splice_middle r l1 l2 Hn1)).
  cbn. rewrite lookup_insert_eq; cbn.
  unfold putConnection; cbn. rewrite lookup_insert_eq; cbn.
  rewrite Hh; cbn. fold ws1. fold c2. fold ws2.
  assert (connections ws2 !! r = Some c2) as Hr2 by apply lookup_insert_eq.
  assert (databases ws2 !! db c2 = Some (l1 ++ l2)) as Hd2
    by apply lookup_insert_eq.
  etrans; [exact (addConnection_run ws2 r c2 _ es Hr2 eq_refl Hd2 Hes2)|].
  subst ws2 ws1; simpl. rewrite !insert_insert_eq.
  rewrite (findPosition_xy es (set_xy c a b) c2) by done. fold i.
  do 3 f_equal. subst c2. destruct c; simpl in *. by subst.
Qed.

(** [r] sits where the order puts it: wherever a database lists it, its
    index is the insertion position among the other entries. *)
Definition placed ws r : Prop :=
  forall c l1 l2 es,
    connections ws !! r = Some c ->
    databases ws !! db c = Some (l1 ++ r :: l2) ->
    deref (connections ws) (l1 ++ l2) = Some es ->
    ConnectionDB.findPositionForConnection es c = length l1.

Definition roundTrip r (dx dy : num) : M unit :=
  RenderedConnection.moveBy r dx dy ;;
  RenderedConnection.moveBy r (- dx)%num (- dy)%num.

Lemma set_xy_back c a b : set_xy (set_xy c a b) (x c) (y c) = c.
Proof. by destruct c. Qed.

Lemma moved_back c a b :
  inDB c = negb (hidden c) -> moved (moved c a b) (x c) (y c) = c.
Proof. destruct c; simpl. by intros ->. Qed.

(** Whatever the placement, the round trip restores every connection and
    the membership of the index. *)
Lemma moveBy_round_trip_membership ws r c dx dy :
  wf ws -> connections ws !! r = Some c ->
  inDB c = negb (hidden c) ->
  ((x c + dx) + - dx)%num = x c ->
  ((y c + dy) + - dy)%num = y c ->
  exists ws',
    roundTrip r dx dy ws = Normal (tt, ws')
    /\ connections ws' = connections ws
    /\ forall r', indexed ws' r' <-> indexed ws r'.
Proof.
  intros Hwf Hr Hflag Hx Hy.
  set (a := (x c + dx)%num) in *. set (b := (y c + dy)%num) in *.
  destruct (moveTo_spec ws r c a b Hwf Hr) as (ws1 & Hrun1 & Hwf1 & Hc1).
  assert (connections ws1 !! r = Some (moved c a b)) as Hr1
    by (rewrite Hc1; apply lookup_insert_eq).
  destruct (moveTo_spec ws1 r _ (x c) (y c) Hwf1 Hr1)
    as (ws2 & Hrun2 & Hwf2 & Hc2).
  assert (connections ws2 = connections ws) as Hsame.
  { rewrite Hc2, Hc1, insert_insert_eq, moved_back by done.
    by apply insert_id. }
  exists ws2. split; [|split; [done|]].
  - unfold roundTrip, RenderedConnection.moveBy, bind, getConnection.
    rewrite Hr; cbn. fold a b. rewrite Hrun1; cbn. rewrite Hr1; cbn.
    by rewrite Hx, Hy.
  - intros r'. by apply indexed_same_connections.
Qed.

Lemma moveBy_round_trip_placed ws r c dx dy :
  wf ws -> connections ws !! r = Some c ->
  inDB c = negb (hidden c) -> placed ws r ->
  ((x c + dx) + - dx)%num = x c ->
  ((y c + dy) + - dy)%num = y c ->
  roundTrip r dx dy ws = Normal (tt, ws).
Proof.
  intros Hwf Hr Hflag Hplaced Hx Hy.
  unfold roundTrip, RenderedConnection.moveBy, bind, getConnection.
  rewrite Hr; cbn.
  set (a := (x c + dx)%num) in *. set (b := (y c + dy)%num) in *.
  destruct (hidden c) eqn:Hh; simpl in Hflag.
  - (* hidden: only the coordinates are stored *)
    rewrite (moveTo_run_hidden ws r c a b Hr Hflag Hh); cbn.
    rewrite lookup_insert_eq; cbn. rewrite Hx, Hy.
    rewrite (moveTo_run_hidden _ r (set_xy c a b));
      [|apply lookup_insert_eq|done..].
    cbn. rewrite insert_insert_eq, set_xy_back, insert_id by done.
    by rewrite workspace_eta.
  - (* visible: out of the index and back in, twice *)
    destruct (wf_db ws Hwf r c Hr) as [l Hd].
    assert (r ∈ l) as Hrl by (by apply (wf_flag ws Hwf r c l)).
    apply list_elem_of_split in Hrl as (l1 & l2 & ->).
    pose proof (wf_nodup ws Hwf _ _ Hd) as Hnd.
    assert (r ∉ l1 ++ l2) as Hnr.
    { apply NoDup_app in Hnd as (_ & Hn1 & Hn2).
      apply NoDup_cons in Hn2 as [Hn2 _].
      intros [?|?]%elem_of_app; [|done]. eapply Hn1; [done|by left]. }
    destruct (deref_is_Some (connections ws) (l1 ++ l2)) as [es Hes].
    { intros e He.
      destruct (wf_entry ws Hwf (db c) _ e Hd) as (ce & -> & _); [|by eexists].
      apply elem_of_app in He as [?|?]; apply elem_of_app; [by left|].
      right. by right. }
    rewrite (moveTo_run_registered ws r c a b l1 l2 es) by done.
    cbn. rewrite lookup_insert_eq; cbn. rewrite Hx, Hy.
    set (i := ConnectionDB.findPositionForConnection es (set_xy c a b)).
    set (L := l1 ++ l2) in *.
    rewrite (moveTo_run_registered _ r (set_xy c a b) (x c) (y c)
               (take i L) (drop i L) es);
      [|apply lookup_insert_eq|done|done|apply lookup_insert_eq
       |by rewrite take_drop|].
    + cbn. rewrite take_drop, set_xy_back, !insert_insert_eq.
      rewrite (Hplaced c l1 l2 es Hr Hd Hes). subst L.
      rewrite take_app_length, drop_app_length.
      by rewrite !insert_id, workspace_eta.
    + cbn. rewrite take_drop, <-Hes. apply deref_ext. intros e He.
      rewrite lookup_insert_ne; [done|]. by intros ->.
Qed.


(** C7 (amended).  For a connection of a well-formed workspace whose
    registration agrees with its visibility, and for offsets that the
    additions undo exactly ([(x + dx) + (-dx) = x], and likewise for [y]),
    [moveBy(dx, dy)] followed by [moveBy(-dx, -dy)] returns normally and
    restores the position of the connection, every other connection and the
    membership of the spatial index; when moreover the connection sits in
    its database where the order puts it, the whole workspace, the order of
    the index included, is as it was. *)
Theorem moveBy_round_trip ws r c dx dy :
  wf ws -> connections ws !! r = Some c ->
  inDB c = negb (hidden c) ->
  ((x c + dx) + - dx)%num = x c ->
  ((y c + dy) + - dy)%num = y c ->
  (exists ws',
     roundTrip r dx dy ws = Normal (tt, ws')
     /\ connections ws' = connections ws
     /\ forall r', indexed ws' r' <-> indexed ws r')
  /\ (placed ws r -> roundTrip r dx dy ws = Normal (tt, ws)).
Proof.
  intros Hwf Hr Hflag Hx Hy. split.
  - by apply (moveBy_round_trip_membership ws r c).
  - intros Hplaced. by apply (moveBy_round_trip_placed ws r c).
Qed.

End RoundTrip.

(** A connection that is hidden, hence outside the index. *)
Definition hiddenConnection : @Connection ZExact :=
  @mkConnection ZExact INPUT_VALUE 0%Z 0%Z true false 0 1 0.

Definition hiddenWorkspace : @Workspace ZExact :=
  @mkWorkspace ZExact {[ 7 := hiddenConnection ]} {[ 0 := [] ]}.

(** C2, as stated, fails on a hidden connection: [setHidden(true)] then
    [setHidden(false)] puts it into the index, where it was not before. *)
Lemma setHidden_pair_on_hidden_connection :
  exists ws',
    performAll [SetHidden 7 true; SetHidden 7 false] hiddenWorkspace
      = Normal (tt, ws')
    /\ indexed ws' 7 /\ ~ indexed hiddenWorkspace 7.
Proof.
  eexists. split; [vm_compute; reflexivity|]. split.
  - exists 0, [7]. split; [vm_compute; reflexivity | by left].
  - intros (d & l & Hd & Hl). simpl in Hd.
    apply lookup_singleton_Some in Hd as [_ <-]. by apply elem_of_nil in Hl.
Qed.

(** A connection as its constructor leaves it: visible, not yet registered. *)
Definition freshConnection : @Connection ZExact :=
  @mkConnection ZExact INPUT_VALUE 0%Z 0%Z false false 0 1 0.

Definition freshWorkspace : @Workspace ZExact :=
  @mkWorkspace ZExact {[ 7 := freshConnection ]} {[ 0 := [] ]}.

Lemma freshWorkspace_wf : wf freshWorkspace.
Proof. exact (wf_single 7 freshConnection). Qed.

Lemma setHidden_moveTo_index_membership_witness :
  exists ws',
    performAll [@MoveTo ZExact 7 3%Z 4%Z; SetHidden 7 true; SetHidden 7 false]
      freshWorkspace = Normal (tt, ws')
    /\ wf ws' /\ inStep ws' 7.
Proof.
  apply (proj1 (setHidden_moveTo_index_membership freshWorkspace 7
                  freshConnection freshWorkspace_wf eq_refl)).
  - intros op Hop. exists freshConnection.
    repeat (apply elem_of_cons in Hop as [->|Hop]; [reflexivity|]).
    by apply elem_of_nil in Hop.
  - left. simpl. by left.
Defined.

(** A visible connection at [(a, b)], registered in its database, in
    binary64 arithmetic. *)
Definition registeredConnection (a b : float) : @Connection F64 :=
  @mkConnection F64 INPUT_VALUE a b false true 0 1 0.

Definition registeredWorkspace (a b : float) : @Workspace F64 :=
  @mkWorkspace F64 {[ 7 := registeredConnection a b ]} {[ 0 := [7] ]}.

Lemma registeredWorkspace_placed a b : placed (registeredWorkspace a b) 7.
Proof.
  intros c l1 l2 es Hc Hd Hes. simpl in Hc, Hd.
  apply lookup_singleton_Some in Hc as [_ <-].
  apply lookup_singleton_Some in Hd as [_ Hl].
  destruct l1 as [|e [|e' l1]]; simplify_eq/=. reflexivity.
Qed.

(** C7, as stated, fails in the arithmetic of the engine: from x = 1, moving
    by 2^53 and back ends at x = 0, since 1 + 2^53 rounds to 2^53. *)
Lemma moveBy_round_trip_rounds :
  @roundTrip F64 7 9007199254740992%float 0%float (registeredWorkspace 1 0)
    = Normal (tt, registeredWorkspace 0 0)
  /\ registeredWorkspace 0 0 <> registeredWorkspace 1 0.
Proof.
  split; [vm_compute; reflexivity|].
  intros E.
  apply (f_equal (fun ws : @Workspace F64 =>
                    match connections ws !! 7 with
                           | Some c => PrimFloat.is_zero (@x F64 c)
                           | None => false
                           end)) in E.
  vm_compute in E. discriminate.
Qed.

Lemma moveBy_round_trip_witness :
  @roundTrip F64 7 2%float 3%float (registeredWorkspace 1 0)
  = Normal (tt, registeredWorkspace 1 0).
Proof.
  apply (moveBy_round_trip (registeredWorkspace 1 0) 7
           (registeredConnection 1 0)).
  - exact (wf_single 7 (registeredConnection 1 0)).
  - reflexivity.
  - reflexivity.
  - reflexivity.
  - reflexivity.
  - apply registeredWorkspace_placed.
Defined.

(** The two side conditions on the connection are needed.  A connection
    that is visible but not yet registered comes back registered. *)
Example moveBy_round_trip_registers_fresh :
  exists ws',
    @roundTrip ZExact 7 1%Z 1%Z freshWorkspace = Normal (tt, ws')
    /\ indexed ws' 7 /\ ~ indexed freshWorkspace 7.
Proof.
  eexists. split; [vm_compute; reflexivity|]. split.
  - exists 0, [7]. split; [vm_compute; reflexivity | by left].
  - intros (d & l & Hd & Hl). simpl in Hd.
    apply lookup_singleton_Some in Hd as [_ <-]. by apply elem_of_nil in Hl.
Qed.

(** Two connections at the same position: the one listed first comes back
    listed second. *)
Definition tiedConnection : @Connection ZExact :=
  @mkConnection ZExact INPUT_VALUE 0%Z 0%Z false true 0 1 0.

Definition tiedWorkspace : @Workspace ZExact :=
  @mkWorkspace ZExact
    {[ 7 := tiedConnection; 8 := tiedConnection ]} {[ 0 := [7; 8] ]}.

Example moveBy_round_trip_reorders_ties :
  exists ws',
    @roundTrip ZExact 7 1%Z 0%Z tiedWorkspace = Normal (tt, ws')
    /\ connections ws' = connections tiedWorkspace
    /\ databases tiedWorkspace !! 0 = Some [7; 8]
    /\ databases ws' !! 0 = Some [8; 7].
Proof.
  eexists. split; [vm_compute; reflexivity|].
  split; [|split]; vm_compute; reflexivity.
Qed.

(** ** The nearest legal candidate *)
Section Search.
Context {N : Number} {O : OrderLaws N}.
Variable superIsConnectionAllowed : Connection -> Connection -> bool.
Implicit Types (ws : Workspace) (c e : Connection) (r o : ConnRef)
  (es vs : list (ConnRef * Connection)).

Abbreviation distance := RenderedConnection.distanceFrom.
Abbreviation allowed :=
  (RenderedConnection.isConnectionAllowed superIsConnectionAllowed).
Abbreviation track c maxRadius :=
  (ConnectionDB.track allowed distance c maxRadius).

Lemma ltb_asym (a b : num) : ltb a b = true -> ltb b a = false.
Proof.
  intros Hab. destruct (ltb b a) eqn:Hba; [|done].
  by rewrite <-(ltb_irrefl a), (ltb_trans a b a).
Qed.

(** What the search has found after visiting [vs]: nothing when no entry
    is allowed; otherwise an allowed entry and its distance, such that no
    allowed entry is closer and no allowed entry visited before it is as
    close. *)
Definition found c (maxRadius : num) vs (best : option ConnRef * num) : Prop :=
  match best with
  | (None, radius) =>
      radius = maxRadius
      /\ forall o e, (o, e) ∈ vs -> allowed c e maxRadius = false
  | (Some o, radius) =>
      exists e pre post,
        vs = pre ++ (o, e) :: post
        /\ allowed c e maxRadius = true
        /\ radius = distance c e
        /\ (forall o' e', (o', e') ∈ vs -> allowed c e' maxRadius = true ->
              ltb (distance c e') (distance c e) = false)
        /\ (forall o' e', (o', e') ∈ pre -> allowed c e' maxRadius = true ->
              eqb (distance c e') (distance c e) = false)
  end.


(** *** The bounded scan misses no entry within reach *)

Abbreviation inRange c maxRadius e :=
  (ConnectionDB.isInXRange e (x c) maxRadius).

(** The facts of arithmetic the pruned scan relies on, on the entries [es]
    seen from the probe [c]: an entry out of reach in x alone is out of
    reach (its x-distance does not exceed its distance); and of two entries
    on the same side of the probe, the one farther in x is not the nearer
    in x-distance.  A boolean, to be computed on the database at hand. *)
Definition measured c (maxRadius : num) es : bool :=
  forallb (fun v0 : ConnRef * Connection =>
    implb (ltb maxRadius (abs (x c - x v0.2)%num))
          (ltb maxRadius (distance c v0.2))
    && forallb (fun v : ConnRef * Connection =>
         implb (negb (ltb (x v0.2) (x c)) && negb (ltb (x v.2) (x v0.2))
                && ltb maxRadius (abs (x c - x v0.2)%num))
               (ltb maxRadius (abs (x c - x v.2)%num))
         && implb (negb (ltb (x c) (x v0.2)) && negb (ltb (x v0.2) (x v.2))
                   && ltb maxRadius (abs (x c - x v0.2)%num))
                  (ltb maxRadius (abs (x c - x v.2)%num))) es) es.








Lemma sortedIndex_cons o0 e0 es :
  ConnectionDB.sortedIndex ((o0, e0) :: es) = true <->
  (forall o e, (o, e) ∈ es -> ConnectionDB.precedes e e0 = false)
  /\ ConnectionDB.sortedIndex es = true.
Proof.
  simpl. rewrite andb_true_iff, forallb_forall. split.
  - intros [Hall Hs]. split; [|done]. intros o e Hin.
    apply list_elem_of_In, Hall in Hin. by apply negb_true_iff in Hin.
  - intros [Hall Hs]. split; [|done]. intros [o e] Hin%list_elem_of_In.
    apply negb_true_iff. by eapply Hall.
Qed.











(** The connection at its dragged position: the recorded position plus the
    drag offset. *)
Definition dragged c (dxy : num * num) : Connection :=
  set_xy c (x c + fst dxy)%num (y c + snd dxy)%num.


End Search.

(** *** Exact arithmetic

    On exact numbers the laws of comparison hold, and so do the laws of
    distance, from which [measured] holds of every database. *)
Lemma ZExact_order : OrderLaws ZExact.
Proof.
  split; simpl.
  - intros a. apply Z.ltb_irrefl.
  - intros a b c. rewrite !Z.ltb_lt. lia.
  - intros a b. rewrite Z.eqb_eq, Z.ltb_ge. lia.
  - intros a b c. rewrite !Z.ltb_lt, Z.eqb_eq. lia.
  - intros a b c. rewrite !Z.ltb_lt, Z.eqb_eq. lia.
  - intros a b c. rewrite !Z.eqb_eq. lia.
Qed.

Lemma ZExact_laws : NumberLaws ZExact.
Proof.
  split; simpl.
  - intros a b c r. rewrite !Z.ltb_lt, !Z.ltb_ge. lia.
  - intros a b c r. rewrite !Z.ltb_lt, !Z.ltb_ge. lia.
  - intros dx dy r. rewrite !Z.ltb_lt. intros Hr.
    eapply Z.lt_le_trans; [exact Hr|].
    rewrite <-(Z.sqrt_square (Z.abs dx)) at 1 by lia.
    apply Z.sqrt_le_mono. rewrite Z.abs_square. nia.
Qed.

Lemma lawful_measured {N : Number} {L : NumberLaws N} (c : Connection)
    (maxRadius : num) (es : list (ConnRef * Connection)) :
  measured c maxRadius es = true.
Proof.
  unfold measured. apply forallb_forall. intros [o0 e0] _. simpl.
  apply andb_true_iff. split.
  - destruct (ltb maxRadius (abs (x c - x e0)%num)) eqn:Hfar; [|done].
    simpl. unfold RenderedConnection.distanceFrom. by apply far_leg.
  - apply forallb_forall. intros [o e] _. simpl.
    destruct (ltb maxRadius (abs (x c - x e0)%num)) eqn:Hfar;
      [|by rewrite !andb_false_r].
    rewrite !andb_true_r. apply andb_true_iff. split.
    + destruct (ltb (x e0) (x c)) eqn:H0, (ltb (x e) (x e0)) eqn:H1;
        try done.
      simpl. by apply (far_right _ (x e0)).
    + destruct (ltb (x c) (x e0)) eqn:H0, (ltb (x e0) (x e)) eqn:H1;
        try done.
      simpl. by apply (far_left _ (x e0)).
Qed.

(** *** Binary64

    The comparisons of binary64 satisfy the laws of comparison on all
    values, NaN included: [a < b] and [a == b] are false as soon as one
    side is NaN.  A value that is not NaN has a rank, a triple of integers
    compared in lexical order. *)
Definition rank (f : spec_float) : option (Z * Z * Z) :=
  match f with
  | S754_nan => None
  | S754_infinity true => Some (-2, 0, 0)%Z
  | S754_infinity false => Some (2, 0, 0)%Z
  | S754_zero _ => Some (0, 0, 0)%Z
  | S754_finite true m e => Some (-1, - e, Z.neg m)%Z
  | S754_finite false m e => Some (1, e, Z.pos m)%Z
  end.

Definition lexical (a b : Z * Z * Z) : comparison :=
  match (a.1.1 ?= b.1.1)%Z with
  | Eq => match (a.1.2 ?= b.1.2)%Z with
          | Eq => (a.2 ?= b.2)%Z
          | c => c
          end
  | c => c
  end.

Lemma SFcompare_rank f1 f2 :
  SFcompare f1 f2
  = match rank f1, rank f2 with
    | Some a, Some b => Some (lexical a b)
    | _, _ => None
    end.
Proof.
  destruct f1 as [[]|[]| |[] m e], f2 as [[]|[]| |[] m' e']; try reflexivity.
  unfold SFcompare, rank, lexical; cbn [fst snd].
  rewrite Z.compare_opp, (Z.compare_antisym e e').
  by destruct (e ?= e')%Z.
Qed.

Lemma lexical_Lt a b :
  lexical a b = Lt <->
  (a.1.1 < b.1.1 \/ a.1.1 = b.1.1
     /\ (a.1.2 < b.1.2 \/ a.1.2 = b.1.2 /\ a.2 < b.2))%Z.
Proof.
  unfold lexical.
  destruct (Z.compare_spec a.1.1 b.1.1), (Z.compare_spec a.1.2 b.1.2),
    (Z.compare_spec a.2 b.2); split; try done; lia.
Qed.

Lemma lexical_Eq a b :
  lexical a b = Eq <-> (a.1.1 = b.1.1 /\ a.1.2 = b.1.2 /\ a.2 = b.2)%Z.
Proof.
  unfold lexical.
  destruct (Z.compare_spec a.1.1 b.1.1), (Z.compare_spec a.1.2 b.1.2),
    (Z.compare_spec a.2 b.2); split; try done; lia.
Qed.

Lemma ltb_rank (a b : float) :
  PrimFloat.ltb a b = true <->
  exists ra rb, rank (Prim2SF a) = Some ra /\ rank (Prim2SF b) = Some rb
                /\ lexical ra rb = Lt.
Proof.
  rewrite FloatAxioms.ltb_spec. unfold SFltb. rewrite SFcompare_rank.
  destruct (rank (Prim2SF a)) as [ra|], (rank (Prim2SF b)) as [rb|];
    try (split; [done|by intros (? & ? & ? & ? & ?)]).
  destruct (lexical ra rb) eqn:E; split; try done.
  - intros (? & ? & [= <-] & [= <-] & ?). congruence.
  - intros _. by exists ra, rb.
  - intros (? & ? & [= <-] & [= <-] & ?). congruence.
Qed.

Lemma eqb_rank (a b : float) :
  PrimFloat.eqb a b = true <->
  exists ra rb, rank (Prim2SF a) = Some ra /\ rank (Prim2SF b) = Some rb
                /\ lexical ra rb = Eq.
Proof.
  rewrite FloatAxioms.eqb_spec. unfold SFeqb. rewrite SFcompare_rank.
  destruct (rank (Prim2SF a)) as [ra|], (rank (Prim2SF b)) as [rb|];
    try (split; [done|by intros (? & ? & ? & ? & ?)]).
  destruct (lexical ra rb) eqn:E; split; try done.
  - intros _. by exists ra, rb.
  - intros (? & ? & [= <-] & [= <-] & ?). congruence.
  - intros (? & ? & [= <-] & [= <-] & ?). congruence.
Qed.

(** From comparisons of floats to facts on their ranks, and back. *)
Ltac ranks :=
  repeat match goal with
         | H : PrimFloat.ltb _ _ = true |- _ =>
             apply ltb_rank in H as (? & ? & ? & ? & H);
             apply lexical_Lt in H
         | H : PrimFloat.eqb _ _ = true |- _ =>
             apply eqb_rank in H as (? & ? & ? & ? & H);
             apply lexical_Eq in H
         end;
  simplify_eq.

Lemma F64_order : OrderLaws F64.
Proof.
  split; simpl.
  - intros a. destruct (PrimFloat.ltb a a) eqn:H; [|done]. ranks. lia.
  - intros a b c Hab Hbc. ranks. apply ltb_rank.
    eexists _, _. split; [done|]. split; [done|]. apply lexical_Lt. lia.
  - intros a b Hab. destruct (PrimFloat.ltb b a) eqn:H; [|done]. ranks. lia.
  - intros a b c Hab Hbc. ranks. apply ltb_rank.
    eexists _, _. split; [done|]. split; [done|]. apply lexical_Lt. lia.
  - intros a b c Hab Hbc. ranks. apply ltb_rank.
    eexists _, _. split; [done|]. split; [done|]. apply lexical_Lt. lia.
  - intros a b c Hab Hbc. ranks. apply eqb_rank.
    eexists _, _. split; [done|]. split; [done|]. apply lexical_Eq. lia.
Qed.

(** The scenario of the specification: input-value connections at
    x = 0, 10 and 100, and a probe at x = 5; in binary64. *)
Definition inputAt (a b : float) : @Connection F64 :=
  @mkConnection F64 INPUT_VALUE a b false true 0 1 0.

Definition probeAt (a b : float) : @Connection F64 :=
  @mkConnection F64 OUTPUT_VALUE a b false true 1 0 1.

Definition scenarioWorkspace : @Workspace F64 :=
  @mkWorkspace F64
    {[ 0 := inputAt 0 0; 1 := inputAt 10 0; 2 := inputAt 100 0;
       3 := probeAt 5 0 ]}
    {[ 0 := [0; 1; 2]; 1 := [3] ]}.



(** Distances are measured as the engine does: from (0, 0) the entry at
    (1, 1) is farther than 1, and without it the entry at (5, 0) is nearer
    than the one at (4, 4). *)
Definition diagonalWorkspace : @Workspace F64 :=
  @mkWorkspace F64
    {[ 0 := inputAt 1 1; 1 := inputAt 4 4; 2 := inputAt 5 0;
       3 := probeAt 0 0 ]}
    {[ 0 := [0; 1; 2]; 1 := [3] ]}.

Example closest_diagonal :
  @RenderedConnection.closest F64 (fun _ _ => true) 3 1%float
    (0, 0)%float diagonalWorkspace
  = Normal ((None, 1%float), diagonalWorkspace)
  /\ @RenderedConnection.closest F64 (fun _ _ => true) 3 6%float
       (0, 0)%float
       (@mkWorkspace F64 (connections diagonalWorkspace)
          {[ 0 := [1; 2]; 1 := [3] ]})
     = Normal ((Some 2, 5%float),
               @mkWorkspace F64 (connections diagonalWorkspace)
                 {[ 0 := [1; 2]; 1 := [3] ]}).
Proof. repeat split; vm_compute; reflexivity. Qed.



(** ** Bumping a block away *)
Section Bump.
Context {N : Number}.
Variable getRootBlock : BlockRef -> BlockRef.
Variable blockProps : BlockRef -> RenderedConnection.BlockProps.

Abbreviation bumpAwayFrom_ :=
  (RenderedConnection.bumpAwayFrom_ getRootBlock blockProps).

(** The blocks moved by a list of effects, with their displacement. *)
Definition moves (effects : list RenderedConnection.Effect)
    : list (BlockRef * num * num) :=
  flat_map (fun e => match e with
                     | RenderedConnection.MoveBlockBy b dx dy => [(b, dx, dy)]
                     | _ => []
                     end) effects.

(** [dx], negated when the block is laid out right to left. *)
Definition mirrored (b : BlockRef) (dx : num) : num :=
  if RenderedConnection.RTL (blockProps b) then (- dx)%num else dx.

(** [effects] on a block raised to the top: selected around them unless it
    is the selected block already. *)
Definition raised (g : RenderedConnection.Globals) (b : BlockRef)
    (effects : list RenderedConnection.Effect)
    : list RenderedConnection.Effect :=
  if bool_decide (RenderedConnection.selected g = Some b) then effects
  else RenderedConnection.AddSelect b :: effects
       ++ [RenderedConnection.RemoveSelect b].

(** The displacement as C3 states it: always from the static connection's
    position, the vertical component negated when the static side moves. *)
Definition claimedMoves (g : RenderedConnection.Globals)
    (this staticConnection : Connection) : list (BlockRef * num * num) :=
  let root := getRootBlock (sourceBlock this) in
  let rootStatic := getRootBlock (sourceBlock staticConnection) in
  let dx := ((x staticConnection + RenderedConnection.SNAP_RADIUS g)
             - x this)%num in
  let dy := ((y staticConnection + RenderedConnection.SNAP_RADIUS g)
             - y this)%num in
  match RenderedConnection.dragMode g with
  | RenderedConnection.DRAG_NONE =>
      if RenderedConnection.isInFlyout (blockProps root) then []
      else if RenderedConnection.isMovable (blockProps root)
           then [(root, mirrored root dx, dy)]
           else if RenderedConnection.isMovable (blockProps rootStatic)
                then [(rootStatic, mirrored rootStatic dx, (- dy)%num)]
                else []
  | _ => []
  end.

(** [bumpAwayFrom_] on each of its paths.  It does nothing while a drag is
    in progress, when this connection's root block is in a flyout, or when
    both root blocks are immovable.  When this connection's root block is
    movable it moves that block by (static position + snap radius) - (this
    position), the x component negated for right-to-left layout.  When it is
    immovable and the static side's root block is movable, the source has
    replaced [staticConnection] by [this] before it computes the
    displacement: what it moves the static side's root block by is
    (this + snap radius) - this, the y component negated and the x component
    negated for right-to-left layout.  The moved block is selected around the
    move unless it is the selected block. *)
Lemma bumpAwayFrom_displacement (g : RenderedConnection.Globals)
    (this staticConnection : Connection) :
  let root := getRootBlock (sourceBlock this) in
  let rootStatic := getRootBlock (sourceBlock staticConnection) in
  let margin := RenderedConnection.SNAP_RADIUS g in
  (RenderedConnection.dragMode g <> RenderedConnection.DRAG_NONE ->
     bumpAwayFrom_ g this staticConnection = [])
  /\ (RenderedConnection.isInFlyout (blockProps root) = true ->
      bumpAwayFrom_ g this staticConnection = [])
  /\ (RenderedConnection.isMovable (blockProps root) = false ->
      RenderedConnection.isMovable (blockProps rootStatic) = false ->
      bumpAwayFrom_ g this staticConnection = [])
  /\ (RenderedConnection.dragMode g = RenderedConnection.DRAG_NONE ->
      RenderedConnection.isInFlyout (blockProps root) = false ->
      RenderedConnection.isMovable (blockProps root) = true ->
      bumpAwayFrom_ g this staticConnection
      = raised g root
          [RenderedConnection.MoveBlockBy root
             (mirrored root ((x staticConnection + margin) - x this)%num)
             ((y staticConnection + margin) - y this)%num])
  /\ (RenderedConnection.dragMode g = RenderedConnection.DRAG_NONE ->
      RenderedConnection.isInFlyout (blockProps root) = false ->
      RenderedConnection.isMovable (blockProps root) = false ->
      RenderedConnection.isMovable (blockProps rootStatic) = true ->
      bumpAwayFrom_ g this staticConnection
      = raised g rootStatic
          [RenderedConnection.MoveBlockBy rootStatic
             (mirrored rootStatic ((x this + margin) - x this)%num)
             (- ((y this + margin) - y this))%num]).
Proof.
  intros root rootStatic margin.
  unfold RenderedConnection.bumpAwayFrom_, raised, mirrored.
  fold root rootStatic margin.
  repeat split.
  - intros Hdrag. by destruct (RenderedConnection.dragMode g).
  - intros ->. by destruct (RenderedConnection.dragMode g).
  - intros -> ->. simpl.
    destruct (RenderedConnection.dragMode g); [|done..].
    by destruct (RenderedConnection.isInFlyout (blockProps root)).
  - intros -> -> ->. simpl. by case_bool_decide.
  - intros -> -> -> ->. simpl. by case_bool_decide.
Qed.

End Bump.

(** This connection at the origin on an immovable block (1); the static
    connection at (100, 50) on a movable block (2); snap radius 48; in
    binary64, as the engine computes. *)
Definition bumpGlobals : @RenderedConnection.Globals F64 :=
  @RenderedConnection.mkGlobals F64 RenderedConnection.DRAG_NONE None 48%float.

Definition bumpProps (b : BlockRef) : RenderedConnection.BlockProps :=
  RenderedConnection.mkBlockProps false (negb (b =? 1)) false.

Definition bumpThis : @Connection F64 :=
  @mkConnection F64 OUTPUT_VALUE 0%float 0%float false true 1 0 1.

Definition bumpStatic : @Connection F64 :=
  @mkConnection F64 INPUT_VALUE 100%float 50%float false true 0 1 2.

(** C3.  The code at the failing input.  With this connection on an
    immovable root block the static side's block is moved, by (48, -48): the
    snap radius alone, wherever the static connection is.  The claim gives
    (100 + 48 - 0, -(50 + 48 - 0)), the displacement from the static
    connection's position with the vertical sign reversed; the sibling path,
    the same two connections with both blocks movable, does compute from the
    static connection's position and moves this side's block by (148, 98). *)
Theorem bumpAwayFrom_reversed_displacement :
  moves (RenderedConnection.bumpAwayFrom_ id bumpProps bumpGlobals
           bumpThis bumpStatic)
    = [(2, 48%float, (-48)%float)]
  /\ claimedMoves id bumpProps bumpGlobals bumpThis bumpStatic
     = [(2, 148%float, (-98)%float)]
  /\ moves (RenderedConnection.bumpAwayFrom_ id bumpProps bumpGlobals
              bumpThis bumpStatic)
     <> claimedMoves id bumpProps bumpGlobals bumpThis bumpStatic
  /\ moves (RenderedConnection.bumpAwayFrom_ id
              (fun _ => RenderedConnection.mkBlockProps false true false)
              bumpGlobals bumpThis bumpStatic)
     = [(1, 148%float, 98%float)].
Proof.
  split; [vm_compute; reflexivity|]. split; [vm_compute; reflexivity|].
  split; [|vm_compute; reflexivity].
  intros Heq.
  apply (f_equal (fun l => match l with
                           | [(_, dx, _)] => PrimFloat.eqb dx 48
                           | _ => false
                           end)) in Heq.
  vm_compute in Heq. discriminate.
Qed.

(** In exact arithmetic the reversed bump is the snap radius to the right
    (to the left in right-to-left layout) and up, wherever the two
    connections are. *)
Lemma bumpAwayFrom_reversed_exact getRootBlock blockProps
    (g : @RenderedConnection.Globals ZExact)
    (this staticConnection : @Connection ZExact) :
  RenderedConnection.dragMode g = RenderedConnection.DRAG_NONE ->
  RenderedConnection.isInFlyout
    (blockProps (getRootBlock (sourceBlock this))) = false ->
  RenderedConnection.isMovable
    (blockProps (getRootBlock (sourceBlock this))) = false ->
  RenderedConnection.isMovable
    (blockProps (getRootBlock (sourceBlock staticConnection))) = true ->
  moves (RenderedConnection.bumpAwayFrom_ getRootBlock blockProps g this
           staticConnection)
  = [(getRootBlock (sourceBlock staticConnection),
      mirrored blockProps (getRootBlock (sourceBlock staticConnection))
        (RenderedConnection.SNAP_RADIUS g),
      (- RenderedConnection.SNAP_RADIUS g)%Z)].
Proof.
  intros Hdrag Hfly Hroot Hstatic.
  unfold RenderedConnection.bumpAwayFrom_, mirrored.
  rewrite Hdrag, Hfly, Hroot, Hstatic. simpl.
  replace (x this + RenderedConnection.SNAP_RADIUS g - x this)%Z
    with (RenderedConnection.SNAP_RADIUS g) by lia.
  replace (y this + RenderedConnection.SNAP_RADIUS g - y this)%Z
    with (RenderedConnection.SNAP_RADIUS g) by lia.
  by case_bool_decide.
Qed.

(** ** Unhiding a subtree *)

(** Induction over the tree of blocks and connections. *)
Section TreeInduction.
Variables (P : Block -> Prop) (Q : ConnectionNode -> Prop).
Hypothesis Hblock : forall id c o n p ins,
  (forall k, o = Some k -> Q k) -> (forall k, n = Some k -> Q k) ->
  (forall k, p = Some k -> Q k) -> Forall Q ins ->
  P (mkBlock id c o n p ins).
Hypothesis Hnode : forall r tgt,
  (forall b, tgt = Some b -> P b) -> Q (mkNode r tgt).

Definition option_all {A} (R : A -> Prop) (f : forall a, R a) (o : option A)
    : forall a, o = Some a -> R a :=
  match o as o' return forall a, o' = Some a -> R a with
  | Some a0 => fun a E =>
      match E in _ = s return match s with Some a' => R a' | None => True end
      with eq_refl => f a0 end
  | None => fun a E =>
      match E in _ = s return match s with Some _ => R a | None => True end
      with eq_refl => I end
  end.

Fixpoint Block_tree_ind (b : Block) : P b :=
  match b with
  | mkBlock id c o n p ins =>
      Hblock id c o n p ins
        (option_all Q ConnectionNode_tree_ind o)
        (option_all Q ConnectionNode_tree_ind n)
        (option_all Q ConnectionNode_tree_ind p)
        ((fix all (ks : list ConnectionNode) : Forall Q ks :=
            match ks with
            | [] => @List.Forall_nil _ Q
            | k :: ks' =>
                @List.Forall_cons _ Q k ks' (ConnectionNode_tree_ind k) (all ks')
            end) ins)
  end
with ConnectionNode_tree_ind (k : ConnectionNode) : Q k :=
  match k with
  | mkNode r tgt => Hnode r tgt (option_all P Block_tree_ind tgt)
  end.

(** The hypotheses on the fields of a block, as one on the connections
    [unhideAll] goes through. *)
Lemma Forall_revealed id c o n p ins :
  (forall k, o = Some k -> Q k) -> (forall k, n = Some k -> Q k) ->
  (forall k, p = Some k -> Q k) -> Forall Q ins ->
  Forall Q (revealed (mkBlock id c o n p ins)).
Proof.
  intros Ho Hn Hp Hins.
  assert (forall k : option ConnectionNode,
            (forall k', k = Some k' -> Q k') -> Forall Q (option_list k)) as Hopt.
  { intros [k'|] Hk; simpl; [|constructor].
    constructor; [by apply Hk | constructor]. }
  unfold revealed, getConnections; simpl.
  destruct c; repeat (apply Forall_app; split); auto.
Qed.

End TreeInduction.

(** Folding over the connections [unhideAll] goes through: [F] gets the
    reference of a connection and, when a block is attached, that block
    with the results for its revealed connections, in order. *)
Fixpoint foldNode {A} (F : ConnRef -> option (Block * list A) -> list A)
    (k : ConnectionNode) : list A :=
  match k with
  | mkNode r tgt =>
      F r (match tgt with
           | Some b => Some (b, foldBlock F b)
           | None => None
           end)
  end
with foldBlock {A} (F : ConnRef -> option (Block * list A) -> list A)
    (b : Block) : list A :=
  match b with
  | mkBlock _ c o n p ins =>
      let one (k : option ConnectionNode) :=
        match k with Some k' => foldNode F k' | None => [] end in
      let each :=
        fix each (ks : list ConnectionNode) : list A :=
          match ks with
          | [] => []
          | k :: ks' => foldNode F k ++ each ks'
          end in
      if c then one o ++ one n ++ one p
      else one o ++ one p ++ one n ++ each ins
  end.

Lemma foldBlock_revealed {A} (F : ConnRef -> option (Block * list A) -> list A)
    (b : Block) :
  foldBlock F b = flat_map (foldNode F) (revealed b).
Proof.
  destruct b as [id c o n p ins]. unfold revealed, getConnections. simpl.
  assert (forall ks : list ConnectionNode,
    (fix each (ks : list ConnectionNode) : list A :=
       match ks with
       | [] => []
       | k :: ks' => foldNode F k ++ each ks'
       end) ks = flat_map (foldNode F) ks) as Heach.
  { induction ks as [|k ks IH]; simpl; [done|]. by rewrite IH. }
  rewrite Heach.
  destruct c, o, n, p; simpl; rewrite ?app_nil_r; reflexivity.
Qed.

Section Reveal.
(** The kind of each connection. *)
Variable ty : ConnRef -> option ConnectionType.

(** The call goes on into the block attached to [r]: only for the kinds
    input-value and next-statement. *)
Definition follows (r : ConnRef) : bool :=
  bool_decide (ty r = Some INPUT_VALUE \/ ty r = Some NEXT_STATEMENT).

(** The connections that [unhideAll] unhides, in order. *)
Definition visited : ConnectionNode -> list ConnRef :=
  foldNode (fun r sub =>
    r :: match sub with
         | Some (_, rs) => if follows r then rs else []
         | None => []
         end).

(** The render list as the source builds it. *)
Definition leafBlocks : ConnectionNode -> list Block :=
  foldNode (fun r sub =>
    match sub with
    | Some (b, ls) =>
        if follows r then if bool_decide (ls = []) then [b] else ls else []
    | None => []
    end).

(** The blocks of the visited subtree, in the order they are reached. *)
Definition subBlocks : ConnectionNode -> list Block :=
  foldNode (fun r sub =>
    match sub with
    | Some (b, bs) => if follows r then b :: bs else []
    | None => []
    end).

(** [k] leads down to an attached block. *)
Definition leadsDown (k : ConnectionNode) : bool :=
  follows (connection k) && bool_decide (is_Some (targetBlock k)).

(** A leaf of the visited subtree: none of its revealed connections leads
    down to a block. *)
Definition isLeaf (b : Block) : bool :=
  forallb (fun k => negb (leadsDown k)) (revealed b).

Lemma visited_unfold r tgt :
  visited (mkNode r tgt)
  = r :: (if follows r
          then match tgt with
               | Some b => flat_map visited (revealed b)
               | None => []
               end
          else []).
Proof.
  unfold visited at 1. simpl. destruct tgt as [b|]; [|by destruct (follows r)].
  by rewrite foldBlock_revealed.
Qed.

Lemma leafBlocks_unfold r tgt :
  leafBlocks (mkNode r tgt)
  = if follows r
    then match tgt with
         | Some b =>
             if bool_decide (flat_map leafBlocks (revealed b) = []) then [b]
             else flat_map leafBlocks (revealed b)
         | None => []
         end
    else [].
Proof.
  unfold leafBlocks at 1. simpl. destruct tgt as [b|]; [|by destruct (follows r)].
  by rewrite foldBlock_revealed.
Qed.

Lemma subBlocks_unfold r tgt :
  subBlocks (mkNode r tgt)
  = if follows r
    then match tgt with
         | Some b => b :: flat_map subBlocks (revealed b)
         | None => []
         end
    else [].
Proof.
  unfold subBlocks at 1. simpl. destruct tgt as [b|]; [|by destruct (follows r)].
  by rewrite foldBlock_revealed.
Qed.

Lemma leafBlocks_leadsDown k : leadsDown k = false -> leafBlocks k = [].
Proof.
  destruct k as [r tgt]. unfold leadsDown. simpl. rewrite leafBlocks_unfold.
  destruct (follows r); [|done]. destruct tgt; [|done].
  simpl. done.
Qed.

Lemma subBlocks_leadsDown k : leadsDown k = false -> subBlocks k = [].
Proof.
  destruct k as [r tgt]. unfold leadsDown. simpl. rewrite subBlocks_unfold.
  destruct (follows r); [|done]. destruct tgt; [|done].
  simpl. done.
Qed.

Lemma leafBlocks_nonempty k : leadsDown k = true -> leafBlocks k <> [].
Proof.
  destruct k as [r tgt]. unfold leadsDown. simpl. rewrite leafBlocks_unfold.
  destruct (follows r); [|done]. destruct tgt as [b|]; [|done]. intros _.
  by case_bool_decide.
Qed.

Lemma isLeaf_leafBlocks b :
  isLeaf b = true <-> flat_map leafBlocks (revealed b) = [].
Proof.
  unfold isLeaf. induction (revealed b) as [|k ks IH]; simpl; [done|].
  rewrite andb_true_iff, negb_true_iff, IH. split.
  - intros [Hk ->]. by rewrite (leafBlocks_leadsDown k Hk).
  - intros [Hk Hks]%app_eq_nil. split; [|done].
    destruct (leadsDown k) eqn:Hd; [|done].
    by apply leafBlocks_nonempty in Hd.
Qed.

(** The render list is exactly the leaves of the visited subtree. *)
Lemma leafBlocks_leaves k :
  leafBlocks k = List.filter isLeaf (subBlocks k).
Proof.
  revert k.
  apply (ConnectionNode_tree_ind
    (fun b => flat_map leafBlocks (revealed b)
              = List.filter isLeaf (flat_map subBlocks (revealed b)))
    (fun k => leafBlocks k = List.filter isLeaf (subBlocks k))).
  - intros id c o n p ins Ho Hn Hp Hins.
    pose proof (Forall_revealed _ id c o n p ins Ho Hn Hp Hins) as Hall.
    induction Hall as [|k ks Hk _ IH]; simpl; [done|].
    by rewrite List.filter_app, Hk, IH.
  - intros r tgt IH. rewrite leafBlocks_unfold, subBlocks_unfold.
    destruct (follows r); [|done]. destruct tgt as [b|]; [|done].
    simpl. specialize (IH b eq_refl).
    destruct (isLeaf b) eqn:Hleaf.
    + apply isLeaf_leafBlocks in Hleaf as Hnil.
      rewrite <-IH, Hnil. by rewrite bool_decide_eq_true_2.
    + rewrite <-IH. case_bool_decide as Hnil; [|done].
      apply isLeaf_leafBlocks in Hnil. congruence.
Qed.

End Reveal.

Section Unhide.
Context {N : Number}.
Implicit Types (ws : Workspace) (r : ConnRef) (c : Connection)
  (k : ConnectionNode) (b : Block).

Lemma unhideEach_fix ks :
  (fix each (ks : list ConnectionNode) : M (list Block) :=
     match ks with
     | [] => ret []
     | k :: ks' =>
         a <- RenderedConnection.unhideAll k ;;
         b <- each ks' ;;
         ret (a ++ b)
     end) ks = RenderedConnection.unhideEach ks.
Proof. induction ks as [|k ks IH]; simpl; [done|]. by rewrite IH. Qed.

(** Case analysis on the outcome of the next call in a chain of binds. *)
Ltac next_call :=
  match goal with
  | |- context [RenderedConnection.unhideAll ?k ?w] =>
      destruct (RenderedConnection.unhideAll k w) as [[? ?]|]
  | |- context [RenderedConnection.unhideEach ?ks ?w] =>
      destruct (RenderedConnection.unhideEach ks w) as [[? ?]|]
  end.

Lemma unhideConnections_revealed b ws :
  RenderedConnection.unhideConnections b ws
  = RenderedConnection.unhideEach (revealed b) ws.
Proof.
  destruct b as [id c o n p ins]. unfold revealed, getConnections. simpl.
  rewrite unhideEach_fix.
  destruct c, o as [ko|], n as [kn|], p as [kp|]; simpl; unfold bind, ret;
    repeat next_call; rewrite ?app_nil_r; reflexivity.
Qed.

(** [unhideAll] as the source has it, with the loop over [connections]. *)
Lemma unhideAll_unfold r tgt ws :
  RenderedConnection.unhideAll (mkNode r tgt) ws
  = (RenderedConnection.setHidden r false ;;
     conn <- getConnection r ;;
     if negb (RenderedConnection.followsDown (type conn)) then ret []
     else
       match tgt with
       | None => ret []
       | Some block =>
           renderList <- RenderedConnection.unhideEach (revealed block) ;;
           if bool_decide (renderList = []) then ret [block]
           else ret renderList
       end) ws.
Proof.
  simpl. unfold bind.
  destruct (RenderedConnection.setHidden r false ws) as [[[] ws1]|]; [|done].
  destruct (getConnection r ws1) as [[conn ws2]|]; [|done].
  destruct (negb _); [done|]. destruct tgt as [block|]; [|done].
  by rewrite unhideConnections_revealed.
Qed.

(** The kind of a connection of the workspace. *)
Definition typeOf ws r : option ConnectionType :=
  match connections ws !! r with
  | Some c => Some (type c)
  | None => None
  end.

(** The test of the source, [this.type != Blockly.INPUT_VALUE && this.type
    != Blockly.NEXT_STATEMENT], lets the two kinds through and no other. *)
Lemma follows_type (ty : ConnRef -> option ConnectionType) r c :
  ty r = Some (type c) ->
  follows ty r = RenderedConnection.followsDown (type c).
Proof.
  intros Hty. unfold follows. rewrite Hty.
  destruct (type c); vm_compute; reflexivity.
Qed.

(** From [ws] to [ws']: the connections of [V] have been unhidden, nothing
    has been hidden, and the other connections are as they were. *)
Definition unhidden (V : list ConnRef) ws ws' : Prop :=
  wf ws'
  /\ (forall r, typeOf ws' r = typeOf ws r)
  /\ (forall r c, connections ws !! r = Some c ->
        exists c', connections ws' !! r = Some c'
                   /\ (hidden c = false -> hidden c' = false))
  /\ (forall r, r ∈ V ->
        exists c', connections ws' !! r = Some c' /\ hidden c' = false)
  /\ (forall r, r ∉ V -> connections ws' !! r = connections ws !! r).

Lemma unhidden_refl ws : wf ws -> unhidden [] ws ws.
Proof.
  intros Hwf. split; [done|]. split; [done|]. split; [|split; [|done]].
  - intros r c Hr. by exists c.
  - by intros r ?%elem_of_nil.
Qed.

Lemma unhidden_trans V1 V2 ws ws1 ws2 :
  unhidden V1 ws ws1 -> unhidden V2 ws1 ws2 -> unhidden (V1 ++ V2) ws ws2.
Proof.
  intros (Hwf1 & Hty1 & Hmono1 & Hin1 & Hout1)
         (Hwf2 & Hty2 & Hmono2 & Hin2 & Hout2).
  split; [done|]. split; [|split; [|split]].
  - intros r. by rewrite Hty2.
  - intros r c Hr.
    destruct (Hmono1 r c Hr) as (c1 & Hr1 & Hh1).
    destruct (Hmono2 r c1 Hr1) as (c2 & Hr2 & Hh2).
    exists c2. split; [done|]. auto.
  - intros r [Hr|Hr]%elem_of_app; [|by apply Hin2].
    destruct (Hin1 r Hr) as (c1 & Hr1 & Hh1).
    destruct (Hmono2 r c1 Hr1) as (c2 & Hr2 & Hh2).
    exists c2. auto.
  - intros r Hr. rewrite Hout2, Hout1; [done|..];
      intros ?; apply Hr, elem_of_app; auto.
Qed.

Lemma unhidden_known V ws ws' r :
  unhidden V ws ws' -> is_Some (connections ws !! r) ->
  is_Some (connections ws' !! r).
Proof.
  intros (_ & _ & Hmono & _) [c Hr].
  destruct (Hmono r c Hr) as (c' & -> & _). by eexists.
Qed.

Lemma setHidden_unhidden ws r c :
  wf ws -> connections ws !! r = Some c ->
  exists ws',
    RenderedConnection.setHidden r false ws = Normal (tt, ws')
    /\ unhidden [r] ws ws'
    /\ connections ws' !! r = Some (shown c false).
Proof.
  intros Hwf Hr.
  destruct (setHidden_spec ws r c false Hwf Hr) as (ws' & Hrun & Hwf' & Hc).
  exists ws'. split; [done|]. split; [|rewrite Hc; apply lookup_insert_eq].
  split; [done|]. split; [|split; [|split]].
  - intros r'. unfold typeOf. rewrite Hc, lookup_insert.
    case_decide as E; [|done]. subst r'. by rewrite Hr.
  - intros r' c' Hr'. rewrite Hc, lookup_insert. case_decide as E.
    + by eexists.
    + by exists c'.
  - intros r' ->%list_elem_of_singleton. rewrite Hc, lookup_insert_eq.
    by eexists.
  - intros r' Hr'. rewrite Hc, lookup_insert_ne; [done|].
    intros ->. apply Hr'. by left.
Qed.

Section Run.
Variable ty : ConnRef -> option ConnectionType.

(** What a call of [unhideAll] on [k] comes to. *)
Definition reveals k : Prop :=
  forall ws,
    wf ws -> (forall r, typeOf ws r = ty r) ->
    (forall r, r ∈ visited ty k -> is_Some (connections ws !! r)) ->
    exists ws',
      RenderedConnection.unhideAll k ws = Normal (leafBlocks ty k, ws')
      /\ unhidden (visited ty k) ws ws'.

Lemma unhideEach_run ks :
  Forall reveals ks ->
  forall ws,
    wf ws -> (forall r, typeOf ws r = ty r) ->
    (forall r, r ∈ flat_map (visited ty) ks ->
               is_Some (connections ws !! r)) ->
    exists ws',
      RenderedConnection.unhideEach ks ws
        = Normal (flat_map (leafBlocks ty) ks, ws')
      /\ unhidden (flat_map (visited ty) ks) ws ws'.
Proof.
  induction 1 as [|k ks Hk _ IH]; intros ws Hwf Hty Hknown; simpl.
  - exists ws. split; [done|]. by apply unhidden_refl.
  - simpl in Hknown.
    destruct (Hk ws Hwf Hty) as (ws1 & Hrun1 & Hun1).
    { intros r Hr. apply Hknown, elem_of_app. by left. }
    destruct (IH ws1) as (ws2 & Hrun2 & Hun2).
    + apply Hun1.
    + intros r. destruct Hun1 as (_ & -> & _). apply Hty.
    + intros r Hr. eapply (unhidden_known _ ws); [done|].
      apply Hknown, elem_of_app. by right.
    + exists ws2. split; [|by eapply unhidden_trans].
      unfold bind, ret. by rewrite Hrun1, Hrun2.
Qed.

Lemma unhideAll_run k : reveals k.
Proof.
  revert k.
  apply (ConnectionNode_tree_ind
    (fun b => Forall reveals (revealed b)) reveals).
  - intros id c o n p ins Ho Hn Hp Hins. by apply Forall_revealed.
  - intros r tgt IH ws Hwf Hty Hknown.
    rewrite visited_unfold in Hknown.
    destruct (Hknown r) as [c Hr]; [by left|].
    destruct (setHidden_unhidden ws r c Hwf Hr) as (ws1 & Hrun1 & Hun1 & Hr1).
    assert (follows ty r = RenderedConnection.followsDown (type c)) as Hf.
    { apply follows_type. rewrite <-Hty. unfold typeOf. by rewrite Hr. }
    rewrite unhideAll_unfold, visited_unfold, leafBlocks_unfold, Hf.
    unfold bind at 1. rewrite Hrun1.
    unfold bind at 1. unfold getConnection at 1. rewrite Hr1.
    change (type (shown c false)) with (type c).
    rewrite Hf in Hknown.
    destruct (RenderedConnection.followsDown (type c)); simpl;
      [|by exists ws1].
    destruct tgt as [b|]; [|by exists ws1].
    destruct (unhideEach_run (revealed b) (IH b eq_refl) ws1)
      as (ws2 & Hrun2 & Hun2).
    + apply Hun1.
    + intros r'. destruct Hun1 as (_ & -> & _). apply Hty.
    + intros r' Hr'. eapply (unhidden_known _ ws); [done|].
      apply Hknown. by right.
    + exists ws2. split; [|by apply (unhidden_trans [r] _ ws ws1)].
      unfold bind, ret. rewrite Hrun2. by case_bool_decide.
Qed.

End Run.

(** C4.  [unhideAll] returns normally on a well-formed workspace that holds
    the connections it visits, and unhides the connection itself.  On an
    output or previous connection it goes no further, also when a block is
    attached: it returns the empty list and leaves every other connection as
    it was.  On an input-value or next-statement connection with a block
    attached it goes on with the connections of that block: all of them, or
    the output, next and previous connections only when the block is
    collapsed, whose input connections it leaves as they are.  It unhides
    exactly the connections it visits and leaves every other connection
    unchanged.  The list returned holds exactly the leaf blocks of the
    visited subtree; it is the attached block alone when the calls on its
    connections return no block. *)
Theorem unhideAll_reveals ws r tgt c :
  wf ws ->
  connections ws !! r = Some c ->
  (forall r', r' ∈ visited (typeOf ws) (mkNode r tgt) ->
              is_Some (connections ws !! r')) ->
  exists renderList ws',
    RenderedConnection.unhideAll (mkNode r tgt) ws = Normal (renderList, ws')
    /\ (exists c', connections ws' !! r = Some c' /\ hidden c' = false)
    /\ (type c = OUTPUT_VALUE \/ type c = PREVIOUS_STATEMENT ->
        renderList = []
        /\ visited (typeOf ws) (mkNode r tgt) = [r]
        /\ forall r', r' <> r -> connections ws' !! r' = connections ws !! r')
    /\ (type c = INPUT_VALUE \/ type c = NEXT_STATEMENT ->
        forall b, tgt = Some b ->
        visited (typeOf ws) (mkNode r tgt)
        = r :: flat_map (visited (typeOf ws))
                 (if isCollapsed b
                  then option_list (outputConnection b)
                       ++ option_list (nextConnection b)
                       ++ option_list (previousConnection b)
                  else getConnections b))
    /\ (forall r', r' ∈ visited (typeOf ws) (mkNode r tgt) ->
        exists c', connections ws' !! r' = Some c' /\ hidden c' = false)
    /\ (forall r', r' ∉ visited (typeOf ws) (mkNode r tgt) ->
        connections ws' !! r' = connections ws !! r')
    /\ (forall b,
        type c = INPUT_VALUE \/ type c = NEXT_STATEMENT -> tgt = Some b ->
        isCollapsed b = true ->
        forall k, k ∈ inputList b ->
          connection k ∉ visited (typeOf ws) (mkNode r tgt) ->
          connections ws' !! connection k = connections ws !! connection k)
    /\ renderList
       = List.filter (isLeaf (typeOf ws)) (subBlocks (typeOf ws) (mkNode r tgt))
    /\ (forall b,
        type c = INPUT_VALUE \/ type c = NEXT_STATEMENT -> tgt = Some b ->
        flat_map (leafBlocks (typeOf ws)) (revealed b) = [] ->
        renderList = [b]).
Proof.
  intros Hwf Hr Hknown.
  destruct (unhideAll_run (typeOf ws) (mkNode r tgt) ws Hwf (fun _ => eq_refl)
              Hknown) as (ws' & Hrun & _ & _ & _ & Hin & Hout).
  assert (typeOf ws r = Some (type c)) as Hty by (unfold typeOf; by rewrite Hr).
  assert (type c = OUTPUT_VALUE \/ type c = PREVIOUS_STATEMENT ->
          follows (typeOf ws) r = false) as Hstop.
  { intros Hkind. unfold follows. rewrite Hty.
    apply bool_decide_eq_false_2. intros [[=]|[=]]; destruct Hkind; congruence. }
  assert (type c = INPUT_VALUE \/ type c = NEXT_STATEMENT ->
          follows (typeOf ws) r = true) as Hgo.
  { intros Hkind. unfold follows. rewrite Hty.
    apply bool_decide_eq_true_2. destruct Hkind as [->| ->]; auto. }
  exists (leafBlocks (typeOf ws) (mkNode r tgt)), ws'.
  split; [done|]. split; [|split; [|split; [|split; [done|split; [done|]]]]].
  - apply Hin. rewrite visited_unfold. by left.
  - intros Hkind. rewrite leafBlocks_unfold, visited_unfold, (Hstop Hkind).
    split; [done|]. split; [done|].
    intros r' Hne. apply Hout. rewrite visited_unfold, (Hstop Hkind).
    by intros ->%list_elem_of_singleton.
  - intros Hkind b ->. rewrite visited_unfold, (Hgo Hkind). reflexivity.
  - split; [|split].
    + intros b _ _ _ k _ Hk. by apply Hout.
    + apply leafBlocks_leaves.
    + intros b Hkind -> Hnone.
      rewrite leafBlocks_unfold, (Hgo Hkind), Hnone.
      by rewrite bool_decide_eq_true_2.
Qed.

End Unhide.

(** A workspace whose databases are empty and whose connections are all
    unregistered is well formed. *)
Lemma wf_unregistered {N : Number} (ws : Workspace) :
  map_Forall (fun _ c => inDB c = false /\ databases ws !! db c = Some [])
             (connections ws) ->
  map_Forall (fun _ l => l = []) (databases ws) ->
  wf ws.
Proof.
  intros Hc Hd. split.
  - intros r c Hr. destruct (Hc r c Hr) as [_ ->]. by eexists.
  - intros r c l Hr Hl. destruct (Hc r c Hr) as [-> Hl'].
    assert (l = []) as -> by congruence. split; [done|].
    by intros ?%elem_of_nil.
  - intros d l r Hl Hr. rewrite (Hd d l Hl) in Hr. by apply elem_of_nil in Hr.
  - intros d l Hl. rewrite (Hd d l Hl). constructor.
Qed.

(** The scenario of the specification: a chain three blocks deep below the
    next connection 0, everything hidden.  Block 10 (previous 1, next 2) is
    expanded; block 20 below it (previous 3, next 4, value input 5) is
    collapsed; block 30 (output 6) sits in that input.  The previous
    connection 1 of block 10 is attached, upwards, to the block that owns
    connection 0, which has a value input 7 as well. *)
Definition hiddenAt (t : ConnectionType) : @Connection ZExact :=
  @mkConnection ZExact t 0%Z 0%Z true false 0 0 0.

Definition chainWorkspace : @Workspace ZExact :=
  @mkWorkspace ZExact
    {[ 0 := hiddenAt NEXT_STATEMENT;
       1 := hiddenAt PREVIOUS_STATEMENT; 2 := hiddenAt NEXT_STATEMENT;
       3 := hiddenAt PREVIOUS_STATEMENT; 4 := hiddenAt NEXT_STATEMENT;
       5 := hiddenAt INPUT_VALUE; 6 := hiddenAt OUTPUT_VALUE;
       7 := hiddenAt INPUT_VALUE ]}
    {[ 0 := [] ]}.

Definition block30 : Block :=
  mkBlock 30 false (Some (mkNode 6 None)) None None [].

Definition block20 : Block :=
  mkBlock 20 true None (Some (mkNode 4 None)) (Some (mkNode 3 None))
          [mkNode 5 (Some block30)].

Definition blockAbove : Block :=
  mkBlock 40 false None (Some (mkNode 0 None)) None [mkNode 7 None].

Definition block10 : Block :=
  mkBlock 10 false None (Some (mkNode 2 (Some block20)))
          (Some (mkNode 1 (Some blockAbove))) [].

Lemma chainWorkspace_wf : wf chainWorkspace.
Proof.
  apply wf_unregistered;
    match goal with |- ?G => exact (bool_decide_unpack G I) end.
Qed.

(** The call on connection 0 unhides the chain down to the collapsed block
    20 and stops there: the input 5 and the block in it stay hidden.  It
    does not go up through the previous connection 1: the input 7 of the
    block above stays hidden. *)
Example unhideAll_scenario :
  exists ws' : @Workspace ZExact,
    RenderedConnection.unhideAll (mkNode 0 (Some block10)) chainWorkspace
      = Normal ([block20], ws')
    /\ map (fun r => @hidden ZExact <$> connections ws' !! r)
           [0; 1; 2; 3; 4; 5; 6; 7]
       = map Some [false; false; false; false; false; true; true; true].
Proof. eexists. split; vm_compute; reflexivity. Qed.

Lemma unhideAll_reveals_witness :
  exists renderList (ws' : @Workspace ZExact),
    RenderedConnection.unhideAll (mkNode 0 (Some block10)) chainWorkspace
      = Normal (renderList, ws')
    /\ renderList = [block20]
    /\ visited (typeOf chainWorkspace) (mkNode 0 (Some block10))
       = [0; 1; 2; 4; 3]
    /\ connections ws' !! 5 = connections chainWorkspace !! 5
    /\ connections ws' !! 7 = connections chainWorkspace !! 7.
Proof.
  destruct (unhideAll_reveals chainWorkspace 0 (Some block10)
              (hiddenAt NEXT_STATEMENT) chainWorkspace_wf eq_refl)
    as (renderList & ws' & Hrun & _ & _ & _ & _ & Hout & _ & Hleaves & _).
  - intros r' Hr'. vm_compute in Hr'.
    repeat (apply elem_of_cons in Hr' as [->|Hr']; [by eexists|]).
    by apply elem_of_nil in Hr'.
  - exists renderList, ws'. split; [done|]. split; [|split; [|split]].
    + rewrite Hleaves. vm_compute. reflexivity.
    + vm_compute. reflexivity.
    + apply Hout. vm_compute.
      intros Hr'. repeat (apply elem_of_cons in Hr' as [[=]|Hr']).
      by apply elem_of_nil in Hr'.
    + apply Hout. vm_compute.
      intros Hr'. repeat (apply elem_of_cons in Hr' as [[=]|Hr']).
      by apply elem_of_nil in Hr'.
Defined.

(** ** The validation pipeline *)

(** C5.  [callValidator] applies the class validator first and returns null
    when it returns null, whatever the user validator is; otherwise the
    text, rewritten by the class validator unless it returned undefined,
    goes to the user validator when one is set: the result is null when
    that returns null, and otherwise the text after the rewrite of each
    stage in order, a stage that returns undefined leaving it unchanged.
    Both validators are called on the field, as they are in the source. *)
Theorem callValidator_stages (this : Field.Field) (t : jsstring) :
  let afterClass :=
    match Field.classValidator this (Field.self this) t with
    | Field.Text t' => t'
    | _ => t
    end in
  (Field.classValidator this (Field.self this) t = Field.Null ->
   Field.callValidator this t = None)
  /\ (Field.classValidator this (Field.self this) t <> Field.Null ->
      Field.validator_ this = None ->
      Field.callValidator this t = Some afterClass)
  /\ (Field.classValidator this (Field.self this) t <> Field.Null ->
      forall userValidator,
        Field.validator_ this = Some userValidator ->
        Field.callValidator this t
        = match userValidator (Field.self this) afterClass with
          | Field.Null => None
          | Field.Undefined => Some afterClass
          | Field.Text t' => Some t'
          end).
Proof.
  intros afterClass. subst afterClass. unfold Field.callValidator.
  split; [|split].
  - by intros ->.
  - intros Hclass ->. by destruct (Field.classValidator this _ t).
  - intros Hclass userValidator ->.
    by destruct (Field.classValidator this _ t).
Qed.

(** ** numberValidator *)

(** The cleaning of the input in one pass: O and o become 0, commas go. *)
Definition cleaned (text : jsstring) : jsstring :=
  flat_map (fun ch => if N.eqb ch 79 || N.eqb ch 111 then [48%N]
                      else if N.eqb ch 44 then []
                      else [ch]) text.

Lemma removeCommas_replaceO text :
  removeCommas (replaceO text) = cleaned text.
Proof.
  induction text as [|ch text IH]; simpl; [done|]. unfold cleaned in IH.
  destruct (N.eqb ch 79 || N.eqb ch 111) eqn:HO; simpl.
  - by rewrite IH.
  - destruct (N.eqb ch 44); simpl; by rewrite IH.
Qed.

(** The number the cleaned text is read as: the empty text counts as 0. *)
Definition parsed `{Builtins} (text : jsstring) : number :=
  parseFloat (match cleaned text with
              | [] => toString zero
              | _ => cleaned text
              end).

(** C10.  [numberValidator] reads its input with every O and o replaced by
    0 and every comma deleted; it returns null exactly when the result does
    not parse as a number ([parseFloat] gives NaN, the empty string being
    read as 0), and otherwise the string of the number parsed.  With the
    built-ins on decimal literals, the empty string yields "0" and "1O"
    yields "10". *)
Theorem numberValidator_parses :
  (forall (B : Builtins) (text : jsstring),
     (FieldTextInput.numberValidator (Some text) = None
      <-> isNaN (parsed text) = true)
     /\ (isNaN (parsed text) = false ->
         FieldTextInput.numberValidator (Some text)
         = Some (toString (parsed text))))
  /\ @FieldTextInput.numberValidator DecimalBuiltins (Some (lit ""))
     = Some (lit "0")
  /\ @FieldTextInput.numberValidator DecimalBuiltins (Some (lit "1O"))
     = Some (lit "10").
Proof.
  split; [|split; reflexivity].
  intros B text. unfold FieldTextInput.numberValidator, parsed.
  rewrite removeCommas_replaceO.
  destruct (isNaN _); split; try done.
Qed.

Example numberValidator_examples :
  map (fun s => @FieldTextInput.numberValidator DecimalBuiltins (Some (lit s)))
      ["1,000"; "abc"; "12abc"; "-o.5"; ","; " 7"]%string
  = [Some (lit "1000"); None; Some (lit "12"); Some (lit "-0.5");
     Some (lit "0"); Some (lit "7")].
Proof. reflexivity. Qed.

(** ** Committing an edit *)

(** The change notifications among a list of effects. *)
Definition changes (effects : list Field.Effect) : list Field.Effect :=
  List.filter (fun e => match e with
                        | Field.FireChange _ _ => true
                        | _ => false
                        end) effects.

(** A field kind whose class validator accepts numbers only, with a user
    validator that doubles them; attached to a rendered block. *)
Definition numericClassValidator : Field.Validator :=
  fun _ t =>
    match @FieldTextInput.numberValidator DecimalBuiltins (Some t) with
    | Some s => Field.Text s
    | None => Field.Null
    end.

Definition doublingValidator : Field.Validator :=
  fun _ t => Field.Text (decimalToString (twice (decimalParseFloat t))).

Definition numericField (t : jsstring) : Field.Field :=
  Field.mkField t (Some (Field.mkSourceBlock false true))
                (Some doublingValidator) numericClassValidator 50 false.

(** An edit from start to commit: the editor opens, the user types [typed],
    the change handler runs, the editor is disposed of. *)
Definition typeAndCommit (eventsEnabled : bool) (field : Field.Field)
    (typed : jsstring) : Completion (Field.Field * list Field.Effect) :=
  let opened := FieldTextInput.showEditor field in
  let edited :=
    FieldTextInput.mkHtmlInput typed (FieldTextInput.defaultValue opened)
                               (FieldTextInput.oldValue_ opened) in
  let '(htmlInput, (field', effects)) :=
    FieldTextInput.onHtmlInputChange_ eventsEnabled field edited in
  match FieldTextInput.widgetDispose_ eventsEnabled field' htmlInput with
  | Normal (field'', effects') => Normal (field'', effects ++ effects')
  | Throw msg => Throw msg
  end.

Lemma widgetDispose_run eventsEnabled this htmlInput b :
  Field.sourceBlock this = Some b ->
  exists this' effects,
    FieldTextInput.widgetDispose_ eventsEnabled this htmlInput
      = Normal (this', effects)
    /\ Field.text this'
       = match Field.callValidator this (FieldTextInput.value htmlInput) with
         | Some t => t
         | None => FieldTextInput.defaultValue htmlInput
         end
    /\ changes effects
       = if eventsEnabled
            && negb (bool_decide (Field.text this' = Field.text this))
         then [Field.FireChange (Field.text this) (Field.text this')]
         else [].
Proof.
  intros Hb. unfold FieldTextInput.widgetDispose_. rewrite Hb.
  set (written := match Field.callValidator this _ with
                  | Some t => t
                  | None => FieldTextInput.defaultValue htmlInput
                  end).
  assert (exists finished,
    (match Field.callValidator this (FieldTextInput.value htmlInput) with
     | None => (FieldTextInput.defaultValue htmlInput, [])
     | Some text1 =>
         (text1, if Field.onFinishEditing_ this
                 then [Field.FinishEditing text1] else [])
     end) = (written, finished) /\ changes finished = [])
    as (finished & -> & Hfin).
  { subst written. destruct (Field.callValidator this _); [|by eexists].
    destruct (Field.onFinishEditing_ this); by eexists. }
  unfold FieldTextInput.setText, Field.setText.
  case_bool_decide as Hsame.
  - rewrite Hb. eexists _, _. split; [done|]. split; [by symmetry|].
    rewrite bool_decide_eq_true_2, andb_false_r by done.
    unfold changes in *. rewrite !List.filter_app, Hfin.
    by destruct (Field.rendered b).
  - rewrite Hb. simpl. rewrite Hb.
    eexists _, _. split; [done|]. split; [done|]. simpl.
    rewrite bool_decide_eq_false_2, andb_true_r by done.
    unfold changes in *. rewrite !List.filter_app, Hfin.
    by destruct eventsEnabled, (Field.rendered b).
Qed.

(** C6.  Disposing of the editor of a field attached to a block writes back
    the validated text, or the default of the input element (the text
    before the edit) when validation returns null, and fires a change
    notification exactly when events are enabled and the text stored
    differs from the one before.  With the numeric class validator and the
    doubling user validator, typing "21" and committing stores "42", and
    typing "abc" and committing leaves the text of before the edit. *)
Theorem widgetDispose_writes_back :
  (forall eventsEnabled this htmlInput b,
     Field.sourceBlock this = Some b ->
     exists this' effects,
       FieldTextInput.widgetDispose_ eventsEnabled this htmlInput
         = Normal (this', effects)
       /\ Field.text this'
          = match Field.callValidator this (FieldTextInput.value htmlInput)
            with
            | Some t => t
            | None => FieldTextInput.defaultValue htmlInput
            end
       /\ changes effects
          = if eventsEnabled
               && negb (bool_decide (Field.text this' = Field.text this))
            then [Field.FireChange (Field.text this) (Field.text this')]
            else [])
  /\ (forall eventsEnabled,
       exists effects,
         typeAndCommit eventsEnabled (numericField (lit "7")) (lit "21")
         = Normal (numericField (lit "42"), effects))
  /\ (forall eventsEnabled,
       exists effects,
         typeAndCommit eventsEnabled (numericField (lit "7")) (lit "abc")
         = Normal (numericField (lit "7"), effects)).
Proof.
  split; [exact widgetDispose_run|].
  split; intros []; eexists; reflexivity.
Qed.

Example typeAndCommit_events :
  typeAndCommit true (numericField (lit "7")) (lit "abc")
  = Normal (numericField (lit "7"),
            [Field.FireChange (lit "7") (lit "abc");
             Field.Render; Field.BumpNeighbours;
             Field.FireChange (lit "abc") (lit "7");
             Field.Render; Field.BumpNeighbours; Field.RenderField]).
Proof. reflexivity. Qed.

(** C8.  On a text-input field attached to a block, [setValue(v)] with a
    value [v] that the validation pipeline rejects stores [v] itself: the
    text of the field is [v] afterwards.  When [v] differs from the text of
    before, the change is announced (by [setValue] and again by [setText],
    when events are enabled) and the block laid out again when it is
    rendered; when [v] is the text of before nothing happens. *)
Theorem setValue_stores_rejected_value eventsEnabled this b v :
  Field.sourceBlock this = Some b ->
  Field.callValidator this v = None ->
  FieldTextInput.setValue eventsEnabled this (Some v)
  = (if bool_decide (Field.text this = v) then (this, [])
     else (Field.set_text this v,
           (if eventsEnabled
            then [Field.FireChange (Field.text this) v;
                  Field.FireChange (Field.text this) v]
            else [])
           ++ (if Field.rendered b
               then [Field.Render; Field.BumpNeighbours] else [])))
  /\ Field.text (fst (FieldTextInput.setValue eventsEnabled this (Some v))) = v.
Proof.
  intros Hb Hrejected.
  assert (FieldTextInput.setValue eventsEnabled this (Some v)
          = (if bool_decide (Field.text this = v) then (this, [])
             else (Field.set_text this v,
                   (if eventsEnabled
                    then [Field.FireChange (Field.text this) v;
                          Field.FireChange (Field.text this) v]
                    else [])
                   ++ (if Field.rendered b
                       then [Field.Render; Field.BumpNeighbours] else []))))
    as Hrun.
  { unfold FieldTextInput.setValue, Field.setValue, Field.getValue,
      FieldTextInput.setText, Field.setText.
    rewrite Hb, Hrejected. case_bool_decide as Hsame; [done|].
    rewrite (bool_decide_eq_false_2 (v = Field.text this)) by congruence.
    simpl. by destruct eventsEnabled. }
  split; [exact Hrun|]. rewrite Hrun. by case_bool_decide.
Qed.

Lemma setValue_stores_rejected_value_witness :
  FieldTextInput.setValue true (numericField (lit "7")) (Some (lit "abc"))
  = (numericField (lit "abc"),
     [Field.FireChange (lit "7") (lit "abc");
      Field.FireChange (lit "7") (lit "abc");
      Field.Render; Field.BumpNeighbours]).
Proof.
  apply (setValue_stores_rejected_value true (numericField (lit "7"))
           (Field.mkSourceBlock false true) (lit "abc") eq_refl eq_refl).
Defined.

(** ** The text a field displays *)

(** White space replaced by non-breaking spaces. *)
Definition spaced (s : jsstring) : jsstring :=
  map (fun ch => if isWhiteSpace ch then Field.NBSP else ch) s.

(** The displayed text as C9 states it. *)
Definition claimedDisplay (this : Field.Field) : jsstring :=
  match Field.text this with
  | [] => [Field.NBSP]
  | t =>
      if (Z.of_nat (length t) >? Field.maxDisplayLength this)%Z
      then spaced (take (Z.to_nat (Field.maxDisplayLength this - 2)) t)
           ++ [Field.ELLIPSIS]
      else spaced t
  end.

(** C9 (amended).  For a field attached to a block: empty text displays as
    one non-breaking space; text longer than [maxDisplayLength] displays as
    its first [maxDisplayLength - 2] characters and an ellipsis (together
    [maxDisplayLength - 1] characters when [maxDisplayLength] is at least
    2), white space replaced by non-breaking spaces; other text displays
    whole, white space replaced likewise; and in right-to-left layout a
    right-to-left mark follows the text that is not empty. *)
Theorem getDisplayText_ellipsis this b :
  Field.sourceBlock this = Some b ->
  let mark := if Field.RTL b then [Field.RLM] else [] in
  let limit := Field.maxDisplayLength this in
  let kept := take (Z.to_nat (limit - 2)) (Field.text this) in
  (Field.text this = [] -> Field.getDisplayText_ this = Normal [Field.NBSP])
  /\ (Field.text this <> [] ->
      (Z.of_nat (length (Field.text this)) > limit)%Z ->
      Field.getDisplayText_ this
      = Normal ((spaced kept ++ [Field.ELLIPSIS]) ++ mark)
      /\ ((2 <= limit)%Z ->
          Z.of_nat (length (spaced kept ++ [Field.ELLIPSIS]))
          = (limit - 1)%Z))
  /\ (Field.text this <> [] ->
      (Z.of_nat (length (Field.text this)) <= limit)%Z ->
      Field.getDisplayText_ this = Normal (spaced (Field.text this) ++ mark)).
Proof.
  intros Hb mark limit kept. unfold Field.getDisplayText_. rewrite Hb.
  fold limit. split; [by intros ->|]. split.
  - intros Hne Hlong. destruct (Field.text this) as [|ch t] eqn:Ht; [done|].
    rewrite (proj2 (Z.gtb_lt _ _)) by lia. split.
    + unfold substring0. fold kept. rewrite map_app. simpl.
      subst mark. destruct (Field.RTL b); [done|]. by rewrite app_nil_r.
    + intros Hlimit. unfold spaced.
      rewrite length_app, length_map. subst kept.
      rewrite length_take. simpl length in *. lia.
  - intros Hne Hshort. destruct (Field.text this) as [|ch t] eqn:Ht; [done|].
    assert ((Z.of_nat (length (ch :: t)) >? limit)%Z = false) as ->.
    { apply not_true_is_false. rewrite Z.gtb_lt. lia. }
    subst mark. destruct (Field.RTL b); [done|]. by rewrite app_nil_r.
Qed.

(** A field of a right-to-left block, eight characters, of which five may
    be displayed. *)
Definition rtlField : Field.Field :=
  Field.mkField (lit "abcdefgh") (Some (Field.mkSourceBlock true true))
                None Field.defaultClassValidator 5 false.

(** C9, as stated, fails in right-to-left layout: the displayed text ends
    with a right-to-left mark after the ellipsis and is 5 characters long,
    not 5 - 1. *)
Lemma getDisplayText_rtl_mark :
  Field.getDisplayText_ rtlField
    = Normal (lit "abc" ++ [Field.ELLIPSIS; Field.RLM])
  /\ claimedDisplay rtlField = lit "abc" ++ [Field.ELLIPSIS]
  /\ Field.getDisplayText_ rtlField <> Normal (claimedDisplay rtlField)
  /\ Z.of_nat (length (lit "abc" ++ [Field.ELLIPSIS; Field.RLM]))
     <> (Field.maxDisplayLength rtlField - 1)%Z.
Proof. repeat split; discriminate. Qed.

(** Sixty-two characters, of which fifty may be displayed. *)
Definition longText : jsstring :=
  lit "one two three four five six seven eight nine ten eleven twelve".

Lemma getDisplayText_ellipsis_witness :
  Field.getDisplayText_ (numericField longText)
  = Normal (spaced (lit "one two three four five six seven eight nine ten")
            ++ [Field.ELLIPSIS]).
Proof.
  destruct (getDisplayText_ellipsis (numericField longText)
              (Field.mkSourceBlock false true) eq_refl) as (_ & Hlong & _).
  destruct Hlong as [Hrun _]; [discriminate|reflexivity|].
  rewrite Hrun. reflexivity.
Defined.

(* ================================================================== *)
(** * Part III. Further properties of the code                         *)
(* ================================================================== *)

(** ** Registration: repeated calls *)
Section Repeated.
Context {N : Number}.
Implicit Types (ws : Workspace) (r : ConnRef) (c : Connection).

(** [setHidden(h)] on a connection that is in that state already. *)
Lemma setHidden_settled ws r c h :
  connections ws !! r = Some c -> hidden c = h -> inDB c = negb h ->
  RenderedConnection.setHidden r h ws = Normal (tt, ws).
Proof.
  intros Hr Hh Hin.
  assert (set_hidden c h = c) as Hsame by (destruct c; simpl in *; by subst).
  unfold RenderedConnection.setHidden, bind, getConnection, putConnection.
  rewrite Hr; cbn. rewrite lookup_insert_eq; cbn.
  rewrite Hsame, Hin, insert_id, workspace_eta by done.
  by destruct h.
Qed.

(** [setHidden] is idempotent: on a well-formed workspace the call returns
    normally, and the same call again changes nothing, neither the
    connection nor any database. *)
Theorem setHidden_idempotent ws r c h :
  wf ws -> connections ws !! r = Some c ->
  exists ws',
    RenderedConnection.setHidden r h ws = Normal (tt, ws')
    /\ RenderedConnection.setHidden r h ws' = Normal (tt, ws').
Proof.
  intros Hwf Hr.
  destruct (setHidden_spec ws r c h Hwf Hr) as (ws' & Hrun & _ & Hc).
  exists ws'. split; [done|].
  apply (setHidden_settled ws' r (shown c h)); [|done..].
  rewrite Hc. apply lookup_insert_eq.
Qed.

(** What [moveTo] works on: the list [l] of the database of [c], the same
    list [L] without [r], and the entries [es] of [L]. *)
Lemma wf_moveTo_data ws r c :
  wf ws -> connections ws !! r = Some c ->
  exists l L es,
    databases ws !! db c = Some l
    /\ (if inDB c then ConnectionDB.splice r l = Some L else L = l)
    /\ (r ∉ L)
    /\ deref (connections ws) L = Some es.
Proof.
  intros Hwf Hr.
  destruct (wf_db ws Hwf r c Hr) as [l Hd].
  pose proof (wf_nodup ws Hwf _ _ Hd) as Hnd.
  destruct (inDB c) eqn:Hin.
  - assert (r ∈ l) as Hrl by (by apply (wf_flag ws Hwf r c l)).
    destruct (splice_elem r l Hrl) as [L Hs].
    pose proof (splice_perm r l L Hs) as Hp.
    rewrite Hp in Hnd. apply NoDup_cons in Hnd as [Hnr _].
    destruct (deref_is_Some (connections ws) L) as [es Hes].
    { intros e He.
      destruct (wf_entry ws Hwf (db c) l e Hd) as (ce & -> & _); [|by eexists].
      rewrite Hp. by right. }
    by exists l, L, es.
  - assert (r ∉ l) as Hrl.
    { rewrite <-(wf_flag ws Hwf r c l) by done. by rewrite Hin. }
    destruct (wf_deref ws _ l Hwf Hd) as [es Hes].
    by exists l, l, es.
Qed.

(** [moveTo], whatever the state of the connection: it leaves its database,
    takes the coordinates, and enters the database again, at the position
    of the new coordinates, unless it is hidden. *)
Lemma moveTo_run ws r c a b l L es :
  connections ws !! r = Some c ->
  databases ws !! db c = Some l ->
  (if inDB c then ConnectionDB.splice r l = Some L else L = l) ->
  r ∉ L ->
  deref (connections ws) L = Some es ->
  let i := ConnectionDB.findPositionForConnection es (set_xy c a b) in
  RenderedConnection.moveTo r a b ws
  = Normal (tt, mkWorkspace
      (<[r := moved c a b]> (connections ws))
      (<[db c := if hidden c then L else take i L ++ r :: drop i L]>
         (databases ws))).
Proof.
  intros Hr Hd HL Hnr Hes i.
  set (c1 := set_inDB c false).
  set (ws1 := mkWorkspace (<[r := c1]> (connections ws))
                          (<[db c := L]> (databases ws))).
  assert ((if inDB c then ConnectionDB.removeConnection (db c) r else ret tt) ws
          = Normal (tt, ws1)) as Hrun1.
  { destruct (inDB c) eqn:Hin.
    - by apply removeConnection_run with (l := l).
    - subst L. unfold ret, ws1, c1. rewrite <-Hin, set_inDB_id.
      by rewrite !insert_id, workspace_eta. }
  set (c2 := set_xy c1 a b).
  set (ws2 := mkWorkspace (<[r := c2]> (connections ws1)) (databases ws1)).
  assert (deref (connections ws2) L = Some es) as Hes2.
  { rewrite <-Hes. apply deref_ext. intros e He. subst ws2 ws1; simpl.
    rewrite !lookup_insert_ne; [done|intros ->; done..]. }
  unfold RenderedConnection.moveTo, bind, getConnection.
  rewrite Hr; cbn. rewrite Hrun1; cbn. rewrite lookup_insert_eq; cbn.
  unfold putConnection; cbn. rewrite lookup_insert_eq; cbn.
  fold c1 c2 ws1 ws2.
  destruct (hidden c) eqn:Hh; cbn.
  - unfold ret. subst ws2 ws1; simpl. rewrite insert_insert_eq.
    do 3 f_equal. subst c2 c1. unfold moved. rewrite Hh.
    by destruct c.
  - assert (connections ws2 !! r = Some c2) as Hr2 by apply lookup_insert_eq.
    assert (databases ws2 !! db c2 = Some L) as Hd2 by apply lookup_insert_eq.
    etrans; [exact (addConnection_run ws2 r c2 _ es Hr2 eq_refl Hd2 Hes2)|].
    subst ws2 ws1; simpl. rewrite !insert_insert_eq.
    rewrite (findPosition_xy es (set_xy c a b) c2) by done. fold i.
    do 3 f_equal. subst c2 c1. unfold moved. rewrite Hh.
    by destruct c.
Qed.

Lemma moved_twice c a b a' b' : moved (moved c a b) a' b' = moved c a' b'.
Proof. by destruct c. Qed.

(** The last [moveTo] wins: moving a connection to one place and then to
    another leaves the workspace, the order of the index included, exactly
    as moving it to the second place at once. *)
Theorem moveTo_last_wins ws r c a b a' b' :
  wf ws -> connections ws !! r = Some c ->
  exists ws',
    (RenderedConnection.moveTo r a b ;; RenderedConnection.moveTo r a' b') ws
      = Normal (tt, ws')
    /\ RenderedConnection.moveTo r a' b' ws = Normal (tt, ws').
Proof.
  intros Hwf Hr.
  destruct (wf_moveTo_data ws r c Hwf Hr) as (l & L & es & Hd & HL & Hnr & Hes).
  eexists. split; [|by apply (moveTo_run ws r c a' b' l L es)].
  unfold bind. rewrite (moveTo_run ws r c a b l L es) by done.
  set (i := ConnectionDB.findPositionForConnection es (set_xy c a b)).
  set (l1 := if hidden c then L else take i L ++ r :: drop i L).
  rewrite (moveTo_run _ r (moved c a b) a' b' l1 L es); simpl.
  - rewrite !insert_insert_eq, moved_twice.
    by rewrite (findPosition_xy es (set_xy c a' b') (set_xy (moved c a b) a' b')).
  - apply lookup_insert_eq.
  - apply lookup_insert_eq.
  - subst l1. destruct (hidden c); simpl; [done|].
    rewrite splice_middle, take_drop; [done|].
    intros Hin. apply Hnr. by apply (subseteq_take i L).
  - done.
  - rewrite <-Hes. apply deref_ext. intros e He.
    rewrite lookup_insert_ne; [done|]. by intros ->.
Qed.

(** [setHidden], whatever the state of the connection: it takes the flag,
    leaves its database when it becomes hidden, and enters it, at the
    position of its coordinates, when it becomes visible and is not there. *)
Lemma setHidden_run ws r c h l L es :
  connections ws !! r = Some c ->
  databases ws !! db c = Some l ->
  (if inDB c then ConnectionDB.splice r l = Some L else L = l) ->
  r ∉ L ->
  deref (connections ws) L = Some es ->
  let j := ConnectionDB.findPositionForConnection es c in
  RenderedConnection.setHidden r h ws
  = Normal (tt, mkWorkspace
      (<[r := shown c h]> (connections ws))
      (<[db c := if h then L
                 else if inDB c then l else take j L ++ r :: drop j L]>
         (databases ws))).
Proof.
  intros Hr Hd HL Hnr Hes j.
  set (c1 := set_hidden c h).
  set (ws1 := mkWorkspace (<[r := c1]> (connections ws)) (databases ws)).
  assert (connections ws1 !! r = Some c1) as Hr1 by apply lookup_insert_eq.
  assert (deref (connections ws1) L = Some es) as Hes1.
  { rewrite <-Hes. apply deref_ext. intros e He.
    subst ws1; simpl. rewrite lookup_insert_ne; [done|]. by intros ->. }
  unfold RenderedConnection.setHidden, bind, getConnection.
  rewrite Hr; cbn. unfold putConnection; cbn. rewrite lookup_insert_eq; cbn.
  fold c1 ws1.
  destruct h, (inDB c) eqn:Hin; cbn.
  - etrans; [exact (removeConnection_run ws1 r c1 l L Hr1 Hin Hd HL)|].
    subst ws1; simpl. rewrite insert_insert_eq.
    do 3 f_equal; unfold shown; subst c1; destruct c; simpl in *; by subst.
  - subst L. unfold ret. subst ws1. simpl. rewrite (insert_id _ _ _ Hd).
    do 3 f_equal; unfold shown; subst c1; destruct c; simpl in *; by subst.
  - unfold ret. subst ws1. simpl. rewrite (insert_id _ _ _ Hd).
    do 3 f_equal; unfold shown; subst c1; destruct c; simpl in *; by subst.
  - subst L.
    etrans; [exact (addConnection_run ws1 r c1 l es Hr1 Hin Hd Hes1)|].
    subst ws1; simpl. rewrite insert_insert_eq.
    rewrite (findPosition_xy es c c1) by done. fold j.
    do 3 f_equal; unfold shown; subst c1; destruct c; simpl in *; by subst.
Qed.

(** Hiding and moving commute: [setHidden(h)] and [moveTo(a, b)] on a
    connection leave the same workspace in either order, the order of the
    index included. *)
Theorem setHidden_moveTo_commute ws r c h a b :
  wf ws -> connections ws !! r = Some c ->
  exists ws',
    (RenderedConnection.setHidden r h ;; RenderedConnection.moveTo r a b) ws
      = Normal (tt, ws')
    /\ (RenderedConnection.moveTo r a b ;; RenderedConnection.setHidden r h) ws
       = Normal (tt, ws').
Proof.
  intros Hwf Hr.
  destruct (wf_moveTo_data ws r c Hwf Hr) as (l & L & es & Hd & HL & Hnr & Hes).
  set (i := ConnectionDB.findPositionForConnection es (set_xy c a b)).
  set (j := ConnectionDB.findPositionForConnection es c).
  assert (forall k, ConnectionDB.splice r (take k L ++ r :: drop k L) = Some L)
    as Hsplice.
  { intros k. rewrite splice_middle, take_drop; [done|].
    intros Hin. apply Hnr. by apply (subseteq_take k L). }
  assert (forall c', deref (<[r := c']> (connections ws)) L = Some es) as Hderef.
  { intros c'. rewrite <-Hes. apply deref_ext. intros e He.
    rewrite lookup_insert_ne; [done|]. by intros ->. }
  exists (mkWorkspace
            (<[r := moved (shown c h) a b]> (connections ws))
            (<[db c := if h then L else take i L ++ r :: drop i L]>
               (databases ws))).
  split.
  - unfold bind. rewrite (setHidden_run ws r c h l L es) by done. fold j.
    set (l1 := if h then L
               else if inDB c then l else take j L ++ r :: drop j L).
    rewrite (moveTo_run _ r (shown c h) a b l1 L es); simpl.
    + rewrite !insert_insert_eq.
      by rewrite (findPosition_xy es (set_xy c a b) (set_xy (shown c h) a b)).
    + apply lookup_insert_eq.
    + apply lookup_insert_eq.
    + subst l1. destruct h; simpl; [done|].
      destruct (inDB c); [done | apply Hsplice].
    + done.
    + apply Hderef.
  - unfold bind. rewrite (moveTo_run ws r c a b l L es) by done. fold i.
    set (l2 := if hidden c then L else take i L ++ r :: drop i L).
    rewrite (setHidden_run _ r (moved c a b) h l2 L es); simpl.
    + rewrite !insert_insert_eq.
      rewrite (findPosition_xy es (set_xy c a b) (moved c a b)) by done.
      fold i.
      assert (shown (moved c a b) h = moved (shown c h) a b) as ->
        by (by destruct c).
      do 3 f_equal. subst l2. by destruct h, (hidden c).
    + apply lookup_insert_eq.
    + apply lookup_insert_eq.
    + subst l2. destruct (hidden c); simpl; [done | apply Hsplice].
    + done.
    + apply Hderef.
Qed.

(** [setOffsetInBlock] and [moveToOffset]: with the offset [(a, b)] stored,
    [moveToOffset] at the corner [(tx, ty)] returns normally and leaves the
    connection at [(tx + a, ty + b)], as visible as it was and in the index
    exactly when it is not hidden; no other connection is touched, nor its
    place in the index. *)
Theorem moveToOffset_places ws offsets r c a b (tx ty : num) :
  wf ws -> connections ws !! r = Some c ->
  exists ws' c',
    RenderedConnection.moveToOffset
      (RenderedConnection.setOffsetInBlock offsets r a b) r (tx, ty) ws
      = Normal (tt, ws')
    /\ wf ws'
    /\ connections ws' !! r = Some c'
    /\ x c' = (tx + a)%num /\ y c' = (ty + b)%num
    /\ hidden c' = hidden c /\ type c' = type c
    /\ (indexed ws' r <-> hidden c = false)
    /\ (forall r', r' <> r ->
          connections ws' !! r' = connections ws !! r'
          /\ (indexed ws' r' <-> indexed ws r')).
Proof.
  intros Hwf Hr.
  destruct (moveTo_spec ws r c (tx + a)%num (ty + b)%num Hwf Hr)
    as (ws' & Hrun & Hwf' & Hc).
  assert (connections ws' !! r = Some (moved c (tx + a)%num (ty + b)%num))
    as Hr' by (rewrite Hc; apply lookup_insert_eq).
  exists ws', (moved c (tx + a)%num (ty + b)%num).
  split.
  { unfold RenderedConnection.moveToOffset, RenderedConnection.setOffsetInBlock.
    by rewrite lookup_insert_eq. }
  split; [done|]. split; [done|]. do 4 (split; [done|]). split.
  - rewrite (indexed_flag ws' r _ Hwf' Hr'). simpl. by destruct (hidden c).
  - intros r' Hne.
    assert (connections ws' !! r' = connections ws !! r') as Hsame
      by (rewrite Hc; by apply lookup_insert_ne).
    split; [done|]. by apply indexed_same_connection.
Qed.

End Repeated.

Lemma setHidden_idempotent_witness :
  exists ws' : @Workspace ZExact,
    RenderedConnection.setHidden 7 true freshWorkspace = Normal (tt, ws')
    /\ RenderedConnection.setHidden 7 true ws' = Normal (tt, ws').
Proof.
  exact (setHidden_idempotent freshWorkspace 7 freshConnection true
           freshWorkspace_wf eq_refl).
Defined.

Lemma moveTo_last_wins_witness :
  exists ws' : @Workspace ZExact,
    (@RenderedConnection.moveTo ZExact 7 5%Z 5%Z ;;
     @RenderedConnection.moveTo ZExact 7 1%Z 2%Z) freshWorkspace
      = Normal (tt, ws')
    /\ @RenderedConnection.moveTo ZExact 7 1%Z 2%Z freshWorkspace
       = Normal (tt, ws').
Proof.
  exact (moveTo_last_wins freshWorkspace 7 freshConnection 5%Z 5%Z 1%Z 2%Z
           freshWorkspace_wf eq_refl).
Defined.

Lemma setHidden_moveTo_commute_witness :
  exists ws' : @Workspace ZExact,
    (@RenderedConnection.setHidden ZExact 7 true ;;
     @RenderedConnection.moveTo ZExact 7 1%Z 2%Z) freshWorkspace
      = Normal (tt, ws')
    /\ (@RenderedConnection.moveTo ZExact 7 1%Z 2%Z ;;
        @RenderedConnection.setHidden ZExact 7 true) freshWorkspace
       = Normal (tt, ws').
Proof.
  exact (setHidden_moveTo_commute freshWorkspace 7 freshConnection true
           1%Z 2%Z freshWorkspace_wf eq_refl).
Defined.

Lemma moveToOffset_places_witness :
  exists (ws' : @Workspace ZExact) c',
    @RenderedConnection.moveToOffset ZExact
      (@RenderedConnection.setOffsetInBlock ZExact ∅ 7 3%Z 4%Z) 7
      (10%Z, 20%Z) freshWorkspace = Normal (tt, ws')
    /\ connections ws' !! 7 = Some c'
    /\ @x ZExact c' = 13%Z /\ @y ZExact c' = 24%Z.
Proof.
  destruct (moveToOffset_places freshWorkspace ∅ 7 freshConnection 3%Z 4%Z
              10%Z 20%Z freshWorkspace_wf eq_refl)
    as (ws' & c' & Hrun & _ & Hr & Hx & Hy & _).
  by exists ws', c'.
Defined.

(** ** The radius check in binary64 *)

Lemma ltb_nan_l (d : float) : PrimFloat.ltb nan d = false.
Proof.
  rewrite ltb_spec. unfold SFltb, SFcompare.
  change (Prim2SF nan) with S754_nan. reflexivity.
Qed.

Lemma ltb_nan_r (d : float) : PrimFloat.ltb d nan = false.
Proof.
  rewrite ltb_spec. unfold SFltb, SFcompare.
  change (Prim2SF nan) with S754_nan. by destruct (Prim2SF d).
Qed.

(** [isConnectionAllowed(candidate)] without [opt_maxRadius]: the radius is
    [undefined], which compares as NaN, and no distance is greater than
    NaN; the call is the check of the superclass alone.  Likewise when the
    distance itself is NaN, whatever the radius. *)
Theorem isConnectionAllowed_without_radius
    (superIsConnectionAllowed : @Connection F64 -> @Connection F64 -> bool)
    (this candidate : @Connection F64) :
  @RenderedConnection.isConnectionAllowed F64 superIsConnectionAllowed
    this candidate nan
  = superIsConnectionAllowed this candidate
  /\ forall maxRadius : float,
       @RenderedConnection.distanceFrom F64 this candidate = nan ->
       @RenderedConnection.isConnectionAllowed F64 superIsConnectionAllowed
         this candidate maxRadius
       = superIsConnectionAllowed this candidate.
Proof.
  unfold RenderedConnection.isConnectionAllowed, gtb. split.
  - assert (@JS.ltb F64 nan
              (@RenderedConnection.distanceFrom F64 this candidate) = false)
      as -> by apply ltb_nan_l.
    done.
  - intros maxRadius ->.
    assert (@JS.ltb F64 maxRadius nan = false) as -> by apply ltb_nan_r.
    done.
Qed.

(** ** Hiding a subtree *)
Section Hide.
Context {N : Number}.
Implicit Types (ws : Workspace) (r : ConnRef) (c : Connection)
  (k : ConnectionNode) (b : Block).

(** The connections [hideAll] hides: the connection itself and all the
    connections of the attached block and of its descendants. *)
Definition hiddenBy k : list ConnRef :=
  connection k
  :: match targetBlock k with
     | Some b => map connection (flat_map getConnections (getDescendants b))
     | None => []
     end.

Lemma hideEach_app ks ks' ws :
  RenderedConnection.hideEach (ks ++ ks') ws
  = (RenderedConnection.hideEach ks ;; RenderedConnection.hideEach ks') ws.
Proof.
  revert ws. induction ks as [|k ks IH]; intros ws; simpl; [done|].
  unfold bind in *.
  destruct (RenderedConnection.setHidden (connection k) true ws)
    as [[[] ws1]|]; [|done].
  apply IH.
Qed.

Lemma hideBlocks_hideEach bs ws :
  RenderedConnection.hideBlocks bs ws
  = RenderedConnection.hideEach (flat_map getConnections bs) ws.
Proof.
  revert ws. induction bs as [|b bs IH]; intros ws; simpl; [done|].
  rewrite hideEach_app. unfold bind.
  destruct (RenderedConnection.hideEach (getConnections b) ws)
    as [[[] ws1]|]; [|done].
  apply IH.
Qed.

Lemma shown_shown c h : shown (shown c h) h = shown c h.
Proof. by destruct c. Qed.

Lemma hideEach_spec ks : forall ws,
  wf ws ->
  (forall r, r ∈ map connection ks -> is_Some (connections ws !! r)) ->
  exists ws',
    RenderedConnection.hideEach ks ws = Normal (tt, ws')
    /\ wf ws'
    /\ forall r,
         connections ws' !! r
         = if decide (r ∈ map connection ks)
           then (fun c => shown c true) <$> connections ws !! r
           else connections ws !! r.
Proof.
  induction ks as [|k ks IH]; intros ws Hwf Hknown; simpl.
  - by exists ws.
  - destruct (Hknown (connection k)) as [c Hc]; [by left|].
    destruct (setHidden_spec ws (connection k) c true Hwf Hc)
      as (ws1 & Hrun1 & Hwf1 & Hc1).
    destruct (IH ws1 Hwf1) as (ws' & Hrun' & Hwf' & Hc').
    { intros r Hr. rewrite Hc1, lookup_insert. case_decide; [by eexists|].
      apply Hknown. by right. }
    exists ws'. split; [unfold bind; by rewrite Hrun1|]. split; [done|].
    intros r. rewrite Hc', Hc1, lookup_insert.
    destruct (decide (connection k = r)) as [<-|Hne].
    + rewrite (decide_True (P := connection k ∈ connection k :: _))
        by (by left).
      rewrite Hc. simpl. case_decide; [by rewrite shown_shown | done].
    + destruct (decide (r ∈ map connection ks)) as [Hin|Hnin].
      * by rewrite decide_True by (by right).
      * rewrite decide_False; [done|].
        intros [?|?]%elem_of_cons; [congruence | done].
Qed.

Lemma hideAll_run ws k :
  wf ws ->
  (forall r, r ∈ hiddenBy k -> is_Some (connections ws !! r)) ->
  exists ws',
    RenderedConnection.hideAll k ws = Normal (tt, ws')
    /\ wf ws'
    /\ forall r,
         connections ws' !! r
         = if decide (r ∈ hiddenBy k)
           then (fun c => shown c true) <$> connections ws !! r
           else connections ws !! r.
Proof.
  intros Hwf Hknown.
  set (ks := k :: match targetBlock k with
                  | Some b => flat_map getConnections (getDescendants b)
                  | None => []
                  end).
  assert (map connection ks = hiddenBy k) as Hks.
  { unfold ks, hiddenBy. simpl. by destruct (targetBlock k). }
  assert (RenderedConnection.hideAll k ws
          = RenderedConnection.hideEach ks ws) as Hrun.
  { unfold RenderedConnection.hideAll, ks. simpl. unfold bind.
    destruct (RenderedConnection.setHidden (connection k) true ws)
      as [[[] ws1]|]; [|done].
    destruct (targetBlock k); [apply hideBlocks_hideEach | done]. }
  destruct (hideEach_spec ks ws Hwf) as (ws' & Hrun' & Hwf' & Hc').
  { by rewrite Hks. }
  rewrite Hks in Hc'. exists ws'. by rewrite Hrun.
Qed.

(** [hideAll] returns normally on a well-formed workspace that holds the
    connections it visits.  Afterwards the connection itself and every
    connection of the attached block and of its descendants, collapsed or
    not, is hidden and out of the index, at the position it had; every
    other connection, and its place in the index, is as it was. *)
Theorem hideAll_hides ws k :
  wf ws ->
  (forall r, r ∈ hiddenBy k -> is_Some (connections ws !! r)) ->
  exists ws',
    RenderedConnection.hideAll k ws = Normal (tt, ws')
    /\ wf ws'
    /\ (forall r, r ∈ hiddenBy k ->
          exists c c',
            connections ws !! r = Some c /\ connections ws' !! r = Some c'
            /\ hidden c' = true /\ x c' = x c /\ y c' = y c
            /\ type c' = type c
            /\ ~ indexed ws' r)
    /\ (forall r, r ∉ hiddenBy k ->
          connections ws' !! r = connections ws !! r
          /\ (indexed ws' r <-> indexed ws r)).
Proof.
  intros Hwf Hknown.
  destruct (hideAll_run ws k Hwf Hknown) as (ws' & Hrun & Hwf' & Hc').
  exists ws'. split; [done|]. split; [done|]. split.
  - intros r Hr. destruct (Hknown r Hr) as [c Hc].
    assert (connections ws' !! r = Some (shown c true)) as Hr'
      by (by rewrite Hc', decide_True, Hc).
    exists c, (shown c true). do 6 (split; [done|]).
    by rewrite (indexed_flag ws' r _ Hwf' Hr').
  - intros r Hr.
    assert (connections ws' !! r = connections ws !! r) as Hsame
      by (by rewrite Hc', decide_False).
    split; [done|]. by apply indexed_same_connection.
Qed.

(** Collapsing and expanding: [hideAll] followed by [unhideAll] on the same
    connection returns the leaf blocks of the subtree [unhideAll] visits and
    leaves visible the connections [unhideAll] visits; the connections that
    [hideAll] hides and [unhideAll] does not visit (those below a collapsed
    block, the inputs of that block included) stay hidden; all the others
    are as they were. *)
Theorem hideAll_then_unhideAll ws k :
  wf ws ->
  (forall r, r ∈ hiddenBy k ++ visited (typeOf ws) k ->
             is_Some (connections ws !! r)) ->
  exists renderList ws',
    (RenderedConnection.hideAll k ;; RenderedConnection.unhideAll k) ws
      = Normal (renderList, ws')
    /\ wf ws'
    /\ renderList = leafBlocks (typeOf ws) k
    /\ (forall r, r ∈ visited (typeOf ws) k ->
          exists c', connections ws' !! r = Some c' /\ hidden c' = false)
    /\ (forall r, r ∈ hiddenBy k -> r ∉ visited (typeOf ws) k ->
          exists c', connections ws' !! r = Some c' /\ hidden c' = true)
    /\ (forall r, r ∉ hiddenBy k -> r ∉ visited (typeOf ws) k ->
          connections ws' !! r = connections ws !! r).
Proof.
  intros Hwf Hknown.
  destruct (hideAll_run ws k Hwf) as (ws1 & Hrun1 & Hwf1 & Hc1).
  { intros r Hr. apply Hknown, elem_of_app. by left. }
  assert (forall r, typeOf ws1 r = typeOf ws r) as Hty.
  { intros r. unfold typeOf. rewrite Hc1.
    case_decide; [|done]. by destruct (connections ws !! r). }
  destruct (unhideAll_run (typeOf ws) k ws1 Hwf1 Hty)
    as (ws2 & Hrun2 & Hwf2 & _ & _ & Hin & Hout).
  { intros r Hr. rewrite Hc1.
    destruct (Hknown r) as [c ->]; [apply elem_of_app; by right|].
    case_decide; by eexists. }
  exists (leafBlocks (typeOf ws) k), ws2.
  split; [unfold bind; by rewrite Hrun1|].
  split; [done|]. split; [done|]. split; [done|]. split.
  - intros r Hr Hnr. rewrite (Hout r Hnr), Hc1, decide_True by done.
    destruct (Hknown r) as [c ->]; [apply elem_of_app; by left|].
    by eexists.
  - intros r Hr Hnr. by rewrite (Hout r Hnr), Hc1, decide_False.
Qed.

End Hide.

(** Well-formedness of a given workspace, by computation. *)
Lemma wf_by_computation {N : Number} (ws : Workspace) :
  map_Forall (fun (r : nat) c =>
      from_option (fun l : list nat => bool_decide (inDB c = true <-> r ∈ l))
                  false (databases ws !! db c) = true)
    (connections ws) ->
  map_Forall (fun d l =>
      NoDup l
      /\ Forall (fun r =>
           from_option (fun c => bool_decide (db c = d)) false
                       (connections ws !! r) = true) l)
    (databases ws) ->
  wf ws.
Proof.
  intros Hc Hd. split.
  - intros r c Hr. specialize (Hc r c Hr). simpl in Hc.
    destruct (databases ws !! db c); [by eexists | done].
  - intros r c l Hr Hl. specialize (Hc r c Hr). simpl in Hc.
    rewrite Hl in Hc. simpl in Hc. by apply bool_decide_eq_true in Hc.
  - intros d l r Hl Hr. destruct (Hd d l Hl) as [_ Hall].
    rewrite Forall_forall in Hall. specialize (Hall r Hr).
    destruct (connections ws !! r) as [c|]; [|done].
    exists c. split; [done|]. by apply bool_decide_eq_true in Hall.
  - intros d l Hl. by destruct (Hd d l Hl).
Qed.

(** Block 10 (previous 1, next 2, value input 7) with block 20 (previous 3,
    next 4) below it and block 30 (output 6) in its input; connection 0 is
    the next connection block 10 hangs from, connection 9 belongs to another
    stack.  Everything is visible and registered. *)
Definition shownAt (t : ConnectionType) (a : Z) : @Connection ZExact :=
  @mkConnection ZExact t a 0%Z false true 0 0 0.

Definition stackWorkspace : @Workspace ZExact :=
  @mkWorkspace ZExact
    {[ 0 := shownAt NEXT_STATEMENT 0;
       1 := shownAt PREVIOUS_STATEMENT 1; 2 := shownAt NEXT_STATEMENT 2;
       3 := shownAt PREVIOUS_STATEMENT 3; 4 := shownAt NEXT_STATEMENT 4;
       6 := shownAt OUTPUT_VALUE 6; 7 := shownAt INPUT_VALUE 7;
       9 := shownAt NEXT_STATEMENT 9 ]}
    {[ 0 := [0; 1; 2; 3; 4; 6; 7; 9] ]}.

Definition stackBlock : Block :=
  mkBlock 10 true None
    (Some (mkNode 2 (Some (mkBlock 20 false None (Some (mkNode 4 None))
                                   (Some (mkNode 3 None)) []))))
    (Some (mkNode 1 None))
    [mkNode 7 (Some (mkBlock 30 false (Some (mkNode 6 None)) None None []))].

Lemma stackWorkspace_wf : wf stackWorkspace.
Proof.
  apply wf_by_computation;
    match goal with |- ?G => exact (bool_decide_unpack G I) end.
Qed.

Example hideAll_scenario :
  exists ws' : @Workspace ZExact,
    RenderedConnection.hideAll (mkNode 0 (Some stackBlock)) stackWorkspace
      = Normal (tt, ws')
    /\ map (fun r => @hidden ZExact <$> connections ws' !! r)
           [0; 1; 2; 3; 4; 6; 7; 9]
       = map Some [true; true; true; true; true; true; true; false]
    /\ databases ws' !! 0 = Some [9].
Proof. eexists. split; [|split]; vm_compute; reflexivity. Qed.

Lemma hideAll_hides_witness :
  exists ws' : @Workspace ZExact,
    RenderedConnection.hideAll (mkNode 0 (Some stackBlock)) stackWorkspace
      = Normal (tt, ws')
    /\ ~ indexed ws' 7
    /\ connections ws' !! 9 = connections stackWorkspace !! 9.
Proof.
  destruct (hideAll_hides stackWorkspace (mkNode 0 (Some stackBlock))
              stackWorkspace_wf)
    as (ws' & Hrun & _ & Hin & Hout).
  - intros r Hr. vm_compute in Hr.
    repeat (apply elem_of_cons in Hr as [->|Hr]; [by eexists|]).
    by apply elem_of_nil in Hr.
  - exists ws'. split; [done|]. split.
    + destruct (Hin 7) as (c & c' & _ & _ & _ & _ & _ & _ & Hno); [|done].
      vm_compute. do 3 right. by left.
    + apply Hout. vm_compute.
      intros Hr. repeat (apply elem_of_cons in Hr as [[=]|Hr]).
      by apply elem_of_nil in Hr.
Defined.

(** Block 10 is collapsed: after the two calls its value input 7 and the
    output 6 of the block in it stay hidden, and block 20 below is the one
    block to render. *)
Example hideAll_then_unhideAll_scenario :
  exists renderList (ws' : @Workspace ZExact),
    (RenderedConnection.hideAll (mkNode 0 (Some stackBlock)) ;;
     RenderedConnection.unhideAll (mkNode 0 (Some stackBlock))) stackWorkspace
      = Normal (renderList, ws')
    /\ map blockId renderList = [20]
    /\ map (fun r => @hidden ZExact <$> connections ws' !! r)
           [0; 1; 2; 3; 4; 6; 7; 9]
       = map Some [false; false; false; false; false; true; true; false].
Proof. do 2 eexists. split; [|split]; vm_compute; reflexivity. Qed.

Lemma hideAll_then_unhideAll_witness :
  exists renderList (ws' : @Workspace ZExact),
    (RenderedConnection.hideAll (mkNode 0 (Some stackBlock)) ;;
     RenderedConnection.unhideAll (mkNode 0 (Some stackBlock))) stackWorkspace
      = Normal (renderList, ws')
    /\ map blockId renderList = [20]
    /\ connections ws' !! 9 = connections stackWorkspace !! 9.
Proof.
  destruct (hideAll_then_unhideAll stackWorkspace (mkNode 0 (Some stackBlock))
              stackWorkspace_wf)
    as (renderList & ws' & Hrun & _ & Hlist & _ & _ & Hout).
  - intros r Hr. vm_compute in Hr.
    repeat (apply elem_of_cons in Hr as [->|Hr]; [by eexists|]).
    by apply elem_of_nil in Hr.
  - exists renderList, ws'. split; [done|]. split.
    + rewrite Hlist. vm_compute. reflexivity.
    + apply Hout; vm_compute; intros Hr;
        repeat (apply elem_of_cons in Hr as [[=]|Hr]);
        by apply elem_of_nil in Hr.
Defined.

(** ** The text node of a field *)

(** [updateTextNode] and [getDisplayText_] agree: on a field attached to a
    block, with a text element, whose text is not empty or whose
    [maxDisplayLength] is not negative, the text node gets exactly the text
    [getDisplayText_] returns; the element is classed as truncated exactly
    when the text is longer than [maxDisplayLength].  Without a text element
    the method does nothing. *)
Theorem updateTextNode_shows_display_text this b element :
  Field.sourceBlock this = Some b ->
  Field.text this <> [] \/ (0 <= Field.maxDisplayLength this)%Z ->
  Field.updateTextNode this None = Normal None
  /\ exists element',
       Field.updateTextNode this (Some element) = Normal (Some element')
       /\ Field.getDisplayText_ this = Normal (Field.textContent element')
       /\ Field.classBaseVal element'
          = if (Z.of_nat (length (Field.text this))
                >? Field.maxDisplayLength this)%Z
            then lit "blocklyText blocklyTextTruncated"
            else lit "blocklyText".
Proof.
  intros Hb Hok. split; [done|].
  unfold Field.updateTextNode, Field.getDisplayText_. rewrite Hb.
  destruct (Field.text this) as [|ch t] eqn:Ht.
  - destruct Hok as [|Hmax]; [done|].
    assert ((Z.of_nat (length (@nil N)) >? Field.maxDisplayLength this)%Z
            = false) as ->.
    { apply not_true_is_false. rewrite Z.gtb_lt. simpl. lia. }
    simpl. rewrite andb_false_r. by eexists.
  - destruct (Z.of_nat (length (ch :: t)) >? Field.maxDisplayLength this)%Z.
    + eexists. split; [reflexivity|]. split; [|done]. simpl.
      rewrite map_app. simpl.
      set (shown := map _ (substring0 _ _) ++ [Field.ELLIPSIS]).
      assert (shown <> []) as Hne by (subst shown; by intros [? ?]%app_eq_nil).
      rewrite bool_decide_eq_false_2 by done. rewrite andb_true_r.
      destruct (Field.RTL b); destruct shown; simpl; done.
    + eexists. split; [reflexivity|]. split; [|done]. simpl.
      rewrite andb_true_r. by destruct (Field.RTL b).
Qed.

Lemma updateTextNode_shows_display_text_witness :
  exists element',
    Field.updateTextNode rtlField (Some (Field.mkSvgText [] []))
      = Normal (Some element')
    /\ Field.getDisplayText_ rtlField = Normal (Field.textContent element').
Proof.
  destruct (updateTextNode_shows_display_text rtlField
              (Field.mkSourceBlock true true) (Field.mkSvgText [] []) eq_refl)
    as (_ & element' & Hrun & Htext & _).
  - left. discriminate.
  - by exists element'.
Defined.

(** With a negative [maxDisplayLength] the two differ on the empty text:
    the text node gets an ellipsis, [getDisplayText_] returns a
    non-breaking space. *)
Example updateTextNode_empty_text :
  let this := Field.mkField [] (Some (Field.mkSourceBlock false true))
                None Field.defaultClassValidator (-1) false in
  Field.updateTextNode this (Some (Field.mkSvgText [] []))
    = Normal (Some (Field.mkSvgText [Field.ELLIPSIS]
                      (lit "blocklyText blocklyTextTruncated")))
  /\ Field.getDisplayText_ this = Normal [Field.NBSP].
Proof. split; reflexivity. Qed.

(** ** Argument types *)

Lemma join_snoc a s :
  a <> [] -> Field.join (a ++ [s]) = Field.join a ++ [32%N] ++ s.
Proof.
  induction a as [|s0 a IH]; [done|]. intros _.
  destruct a as [|s1 a]; [done|].
  change (Field.join ((s0 :: s1 :: a) ++ [s]))
    with (s0 ++ [32%N] ++ Field.join ((s1 :: a) ++ [s])).
  rewrite IH by done. simpl. by rewrite <-!app_assoc.
Qed.

Lemma addArgTypes_fold argTypes a :
  fold_left Field.addArgType argTypes (Some a) = Some (a ++ argTypes).
Proof.
  revert a. induction argTypes as [|t ts IH]; intros a; simpl.
  - by rewrite app_nil_r.
  - change (Field.addArgType (Some a) t) with (Some (a ++ [t])).
    by rewrite IH, <-app_assoc.
Qed.

Lemma getArgTypes_Some a :
  a <> [] -> Field.getArgTypes (Some a) = Some (Field.join a).
Proof. by destruct a. Qed.

(** [addArgType] and [getArgTypes]: after adding the types [argTypes], in
    order, to a field that has none, [getArgTypes] returns them joined by
    single spaces, and [null] when nothing was added; adding one more type
    appends a space and the type. *)
Theorem getArgTypes_after_adding (argTypes : list jsstring) (t : jsstring) :
  let argType_ := fold_left Field.addArgType argTypes None in
  Field.getArgTypes argType_
  = match argTypes with
    | [] => None
    | _ => Some (Field.join argTypes)
    end
  /\ Field.getArgTypes (Field.addArgType argType_ t)
     = match Field.getArgTypes argType_ with
       | None => Some t
       | Some types => Some (types ++ [32%N] ++ t)
       end.
Proof.
  intros argType_. subst argType_.
  destruct argTypes as [|t0 ts]; [done|].
  change (fold_left Field.addArgType (t0 :: ts) None)
    with (fold_left Field.addArgType ts (Some [t0])).
  rewrite addArgTypes_fold. change ([t0] ++ ts) with (t0 :: ts).
  change (Field.addArgType (Some (t0 :: ts)) t)
    with (Some ((t0 :: ts) ++ [t])).
  rewrite !getArgTypes_Some; [|by intros [? ?]%app_eq_nil|done].
  by rewrite join_snoc.
Qed.

(** ** The cache of text widths *)

(** A call of [startCache] or of [stopCache]. *)
Inductive CacheCall : Type := Start | Stop.

Definition cacheCall (cache : Field.WidthCache) (call : CacheCall)
    : Field.WidthCache :=
  match call with
  | Start => Field.startCache cache
  | Stop => Field.stopCache cache
  end.

(** From [depth] open scopes on, no call of [stopCache] comes without a
    scope open above [floor]. *)
Fixpoint nested (floor depth : Z) (calls : list CacheCall) : bool :=
  match calls with
  | [] => true
  | Start :: calls' => nested floor (depth + 1) calls'
  | Stop :: calls' => (floor <? depth)%Z && nested floor (depth - 1) calls'
  end.

Definition opened (calls : list CacheCall) : Z :=
  fold_left (fun depth call => match call with
                               | Start => depth + 1
                               | Stop => depth - 1
                               end)%Z calls 0%Z.

(** The cache is there exactly while a scope is open. *)
Definition live (cache : Field.WidthCache) : Prop :=
  (0 <= Field.cacheReference_ cache)%Z
  /\ (Field.cacheWidths_ cache = None <-> Field.cacheReference_ cache = 0%Z).

Lemma opened_from calls : forall d e : Z,
  fold_left (fun depth call => match call with
                               | Start => depth + 1
                               | Stop => depth - 1
                               end)%Z calls d
  = (fold_left (fun depth call => match call with
                                  | Start => depth + 1
                                  | Stop => depth - 1
                                  end)%Z calls e + (d - e))%Z.
Proof.
  induction calls as [|[] calls IH]; intros d e; simpl.
  - lia.
  - rewrite (IH (d + 1)%Z (e + 1)%Z). lia.
  - rewrite (IH (d - 1)%Z (e - 1)%Z). lia.
Qed.

Lemma opened_cons call calls :
  opened (call :: calls)
  = (match call with Start => 1 | Stop => -1 end + opened calls)%Z.
Proof.
  unfold opened. simpl. destruct call.
  - rewrite (opened_from calls (0 + 1)%Z 0%Z). lia.
  - rewrite (opened_from calls (0 - 1)%Z 0%Z). lia.
Qed.

Lemma cacheCalls_reference calls : forall cache,
  Field.cacheReference_ (fold_left cacheCall calls cache)
  = (Field.cacheReference_ cache + opened calls)%Z.
Proof.
  induction calls as [|call calls IH]; intros cache.
  - unfold opened. simpl. lia.
  - simpl. rewrite IH, opened_cons. destruct call; simpl; lia.
Qed.

Lemma cacheCalls_live calls : forall cache,
  live cache ->
  nested 0 (Field.cacheReference_ cache) calls = true ->
  live (fold_left cacheCall calls cache).
Proof.
  induction calls as [|call calls IH]; intros cache Hlive Hnested; [done|].
  simpl. apply IH.
  - destruct Hlive as [Hpos Hnull], call; unfold live; simpl in *.
    + split; [lia|].
      split; [by destruct (Field.cacheWidths_ cache) | intros ?; lia].
    + apply andb_true_iff in Hnested as [Hopen%Z.ltb_lt _].
      split; [lia|].
      destruct (Z.eqb_spec (Field.cacheReference_ cache - 1) 0) as [E|E].
      * done.
      * split; [|done]. intros Hnone. apply Hnull in Hnone. lia.
  - destruct call; simpl in *; [done|].
    by apply andb_true_iff in Hnested as [_ ?].
Qed.

Lemma cacheCalls_kept calls : forall cache widths,
  Field.cacheWidths_ cache = Some widths ->
  nested 1 (Field.cacheReference_ cache) calls = true ->
  Field.cacheWidths_ (fold_left cacheCall calls cache) = Some widths.
Proof.
  induction calls as [|call calls IH]; intros cache widths Hw Hnested; [done|].
  simpl. apply IH.
  - destruct call; simpl in *; [by rewrite Hw|].
    apply andb_true_iff in Hnested as [Hopen%Z.ltb_lt _].
    destruct (Z.eqb_spec (Field.cacheReference_ cache - 1) 0); [lia|done].
  - destruct call; simpl in *; [done|].
    by apply andb_true_iff in Hnested as [_ ?].
Qed.

(** [startCache] and [stopCache] nest.  From a state where the cache is
    there exactly while a scope is open (as at start-up: no cache, count 0),
    and through calls that never stop a scope that is not open, the cache is
    again there exactly while a scope is open, the count being the number of
    open scopes: in particular the cache is dropped when the last scope is
    closed.  While the outer scope stays open, the entries of the cache are
    kept through inner pairs of calls. *)
Theorem startCache_stopCache_nest (calls : list CacheCall)
    (cache : Field.WidthCache) :
  live cache ->
  nested 0 (Field.cacheReference_ cache) calls = true ->
  let cache' := fold_left cacheCall calls cache in
  live cache'
  /\ Field.cacheReference_ cache'
     = (Field.cacheReference_ cache + opened calls)%Z
  /\ (opened calls = (- Field.cacheReference_ cache)%Z ->
      Field.cacheWidths_ cache' = None)
  /\ (forall widths,
        Field.cacheWidths_ cache = Some widths ->
        nested 1 (Field.cacheReference_ cache) calls = true ->
        Field.cacheWidths_ cache' = Some widths).
Proof.
  intros Hlive Hnested cache'. subst cache'.
  pose proof (cacheCalls_live calls cache Hlive Hnested) as Hlive'.
  pose proof (cacheCalls_reference calls cache) as Href.
  split; [done|]. split; [done|]. split.
  - intros Hclosed. apply Hlive'. lia.
  - intros widths Hw Hinner. by apply cacheCalls_kept.
Qed.

Lemma startCache_stopCache_nest_witness :
  Field.cacheWidths_
    (fold_left cacheCall [Start; Start; Stop; Stop]
       (Field.mkWidthCache None 0)) = None.
Proof.
  apply (startCache_stopCache_nest [Start; Start; Stop; Stop]
           (Field.mkWidthCache None 0)).
  - split; [simpl; lia | done].
  - reflexivity.
  - reflexivity.
Defined.

(** A call of [stopCache] without a scope open breaks the pairing: the
    count goes below 0, the next scope opens a cache with the count at 0,
    and closing it leaves the cache in place. *)
Example stopCache_unpaired :
  fold_left cacheCall [Stop; Start; Stop] (Field.mkWidthCache None 0)
  = Field.mkWidthCache (Some ∅) (-1).
Proof. reflexivity. Qed.

(** [getCachedWidth] with the cache on: once a call has measured (or found
    cached) a width that holds as a condition, every later call on an
    element of the same text and class returns that width and leaves the
    cache as it is, whatever the browser would measure then.  With the cache
    off every call measures and nothing is stored.  When the measure throws
    and nothing is cached the width is eight times the length of the text,
    and it is not stored. *)
Theorem getCachedWidth_caches measure (cache : Field.WidthCache)
    (element : Field.SvgText) :
  (forall widths width0,
     Field.cacheWidths_ cache = Some widths ->
     measure element = Some width0 ->
     let '(width, cache') := Field.getCachedWidth measure cache element in
     Field.cacheReference_ cache' = Field.cacheReference_ cache
     /\ (Field.truthy width = true ->
         forall measure',
           Field.getCachedWidth measure' cache' element = (width, cache')))
  /\ (Field.cacheWidths_ cache = None ->
      Field.getCachedWidth measure cache element
      = (match measure element with
         | Some width => width
         | None =>
             PrimFloat.of_uint63
               (Uint63.of_Z
                  (Z.of_nat (length (Field.textContent element)) * 8))
         end, cache))
  /\ (measure element = None ->
      (forall widths width,
         Field.cacheWidths_ cache = Some widths ->
         widths !! (Field.textContent element ++ [10%N]
                    ++ Field.classBaseVal element) = Some width ->
         Field.truthy width = false) ->
      Field.getCachedWidth measure cache element
      = (PrimFloat.of_uint63
           (Uint63.of_Z (Z.of_nat (length (Field.textContent element)) * 8)),
         cache)).
Proof.
  split; [|split].
  - intros widths width0 Hw Hm. unfold Field.getCachedWidth at 1.
    rewrite Hw, Hm.
    set (key := Field.textContent element ++ [10%N]
                ++ Field.classBaseVal element).
    destruct (widths !! key) as [w|] eqn:Hkey;
      [destruct (Field.truthy w) eqn:Htrue|].
    + split; [done|]. intros _ measure'.
      unfold Field.getCachedWidth. fold key.
      by rewrite Hw, Hkey, Htrue.
    + split; [done|]. intros Htrue' measure'.
      unfold Field.getCachedWidth. simpl. fold key.
      by rewrite lookup_insert_eq, Htrue'.
    + split; [done|]. intros Htrue' measure'.
      unfold Field.getCachedWidth. simpl. fold key.
      by rewrite lookup_insert_eq, Htrue'.
  - intros Hoff. unfold Field.getCachedWidth. rewrite Hoff.
    by destruct (measure element).
  - intros Hm Hfalse. unfold Field.getCachedWidth. rewrite Hm.
    destruct (Field.cacheWidths_ cache) as [widths|] eqn:Hw; [|done].
    destruct (widths !! _) as [w|] eqn:Hkey; [|done].
    by rewrite (Hfalse widths w eq_refl Hkey).
Qed.

(** ** An edit session of a text input *)

(** [FieldTextInput.setText] on a string: the field with that text, and a
    change notification when the text is new, the field attached and events
    enabled. *)
Lemma FieldTextInput_setText_run eventsEnabled this t :
  exists effects,
    FieldTextInput.setText eventsEnabled this (Some t)
      = (Field.set_text this t, effects)
    /\ changes effects
       = if bool_decide (is_Some (Field.sourceBlock this)) && eventsEnabled
            && negb (bool_decide (t = Field.text this))
         then [Field.FireChange (Field.text this) t]
         else [].
Proof.
  unfold FieldTextInput.setText, Field.setText.
  case_bool_decide as Hsame.
  - exists []. split; [|by rewrite andb_false_r].
    subst t. by destruct this.
  - eexists. split; [reflexivity|]. rewrite andb_true_r.
    destruct (Field.sourceBlock this) as [b|]; simpl; [|done].
    by destruct eventsEnabled, (Field.rendered b).
Qed.

(** [setValue] of a text input is idempotent when the validators answer
    from the text offered alone: if what they make of [v] does not depend on
    the text the field holds, the same call again changes nothing and
    notifies nothing, whether they accept the value, rewrite it or reject
    it. *)
Theorem FieldTextInput_setValue_idempotent eventsEnabled this v this'
    effects :
  (forall t, Field.callValidator (Field.set_text this t) v
             = Field.callValidator this v) ->
  FieldTextInput.setValue eventsEnabled this (Some v) = (this', effects) ->
  FieldTextInput.setValue eventsEnabled this' (Some v) = (this', []).
Proof.
  intros Hstable.
  unfold FieldTextInput.setValue.
  set (w := match Field.sourceBlock this with
            | Some _ => match Field.callValidator this v with
                        | Some validated => validated
                        | None => v
                        end
            | None => v
            end).
  unfold Field.setValue at 1. unfold Field.getValue.
  case_bool_decide as Hsame.
  - intros [= <- _]. fold w. unfold Field.setValue, Field.getValue.
    by rewrite bool_decide_eq_true_2.
  - destruct (FieldTextInput_setText_run eventsEnabled this w)
      as (effects' & -> & _).
    intros [= <- _].
    change (Field.sourceBlock (Field.set_text this w))
      with (Field.sourceBlock this).
    rewrite Hstable.
    fold w. unfold Field.setValue, Field.getValue. simpl.
    by rewrite bool_decide_eq_true_2.
Qed.

(** The numeric field with the doubling validator: 21 is stored as 42, and
    stays 42 when 21 is set again. *)
Lemma FieldTextInput_setValue_idempotent_witness :
  exists this' effects,
    FieldTextInput.setValue true (numericField (lit "7")) (Some (lit "21"))
      = (this', effects)
    /\ Field.text this' = lit "42"
    /\ FieldTextInput.setValue true this' (Some (lit "21")) = (this', []).
Proof.
  destruct (FieldTextInput.setValue true (numericField (lit "7"))
              (Some (lit "21"))) as [this' effects] eqn:Hrun.
  exists this', effects. split; [reflexivity|]. split.
  - change (Field.text this') with (Field.text (fst (this', effects))).
    rewrite <-Hrun. vm_compute. reflexivity.
  - exact (FieldTextInput_setValue_idempotent true (numericField (lit "7"))
             (lit "21") this' effects (fun _ => eq_refl) Hrun).
Defined.

(** A validator that reads the field it is called on: it appends the text
    the field holds.  Setting "b" on a field that holds "a" stores "ba", and
    setting "b" again stores "bba". *)
Definition appendingValidator : Field.Validator :=
  fun this t => Field.Text (t ++ Field.selfText this).

Example FieldTextInput_setValue_reads_field :
  let this :=
    Field.mkField (lit "a") (Some (Field.mkSourceBlock false true))
                  (Some appendingValidator) Field.defaultClassValidator 50
                  false in
  let '(this', _) := FieldTextInput.setValue true this (Some (lit "b")) in
  let '(this'', _) := FieldTextInput.setValue true this' (Some (lit "b")) in
  Field.text this' = lit "ba" /\ Field.text this'' = lit "bba".
Proof. vm_compute. split; reflexivity. Qed.

(** The notifications [events] lead from the text [from] to the text [to]:
    each announces a change from the text the one before left. *)
Fixpoint chained (from : jsstring) (events : list Field.Effect)
    (to : jsstring) : Prop :=
  match events with
  | [] => from = to
  | Field.FireChange oldValue newValue :: events' =>
      oldValue = from /\ newValue <> from /\ chained newValue events' to
  | _ :: _ => False
  end.

Lemma chained_app a b c events events' :
  chained a events b -> chained b events' c -> chained a (events ++ events') c.
Proof.
  revert a. induction events as [|[] events IH]; intros a; simpl; try done.
  - by intros ->.
  - intros (-> & Hne & Hrest). eauto.
Qed.

Lemma changes_app effects effects' :
  changes (effects ++ effects') = changes effects ++ changes effects'.
Proof. apply List.filter_app. Qed.

(** The user edits: each step puts a text into the input element and runs
    the change handler on an event. *)
Fixpoint typeAll (userAgent : FieldTextInput.UserAgent)
    (restrictor_ : option (jsstring -> bool)) (eventsEnabled : bool)
    (this : Field.Field) (htmlInput : FieldTextInput.HtmlInput)
    (steps : list (jsstring * FieldTextInput.KeyboardEvent))
    : Completion (FieldTextInput.HtmlInput * Field.Field * list Field.Effect) :=
  match steps with
  | [] => Normal (htmlInput, this, [])
  | (typed, e) :: steps' =>
      let edited :=
        FieldTextInput.mkHtmlInput typed
          (FieldTextInput.defaultValue htmlInput)
          (FieldTextInput.oldValue_ htmlInput) in
      match FieldTextInput.onHtmlInputChange userAgent restrictor_
              eventsEnabled this edited e with
      | Normal (_, _, htmlInput', (this', effects)) =>
          match typeAll userAgent restrictor_ eventsEnabled this' htmlInput'
                  steps' with
          | Normal (htmlInput'', this'', effects') =>
              Normal (htmlInput'', this'', effects ++ effects')
          | Throw msg => Throw msg
          end
      | Throw msg => Throw msg
      end
  end.

(** What holds between the handler runs of a session: the input element
    remembers the text of the field, or nothing yet with the text of the
    field in it. *)
Definition inSession (this : Field.Field)
    (htmlInput : FieldTextInput.HtmlInput) : Prop :=
  FieldTextInput.oldValue_ htmlInput = Some (Field.text this)
  \/ (FieldTextInput.oldValue_ htmlInput = None
      /\ FieldTextInput.value htmlInput = Field.text this).

Lemma onHtmlInputChange_run userAgent restrictor_ eventsEnabled this b
    htmlInput typed e :
  Field.sourceBlock this = Some b ->
  inSession this htmlInput ->
  FieldTextInput.failsRestrictor userAgent restrictor_ e = false ->
  exists cls effects,
    FieldTextInput.onHtmlInputChange userAgent restrictor_ eventsEnabled this
      (FieldTextInput.mkHtmlInput typed
         (FieldTextInput.defaultValue htmlInput)
         (FieldTextInput.oldValue_ htmlInput)) e
    = Normal (false, cls,
              FieldTextInput.mkHtmlInput typed
                (FieldTextInput.defaultValue htmlInput) (Some typed),
              (Field.set_text this typed, effects))
    /\ changes effects
       = if eventsEnabled && negb (bool_decide (typed = Field.text this))
         then [Field.FireChange (Field.text this) typed]
         else [].
Proof.
  intros Hb Hses Hpass. unfold FieldTextInput.onHtmlInputChange.
  rewrite Hpass.
  cbn [FieldTextInput.value FieldTextInput.oldValue_
       FieldTextInput.defaultValue].
  destruct (FieldTextInput_setText_run eventsEnabled this typed)
    as (effects & Hset & Hchanges).
  rewrite Hb in Hchanges. simpl in Hchanges.
  destruct (decide (Some typed = FieldTextInput.oldValue_ htmlInput))
    as [Hold|Hold].
  - rewrite (bool_decide_eq_true_2 _ Hold).
    assert (typed = Field.text this) as Hsame.
    { destruct Hses as [Hs|[Hs _]]; congruence. }
    assert (Field.set_text this typed = this) as ->
      by (subst typed; by destruct this).
    rewrite Hb, <-Hold.
    destruct (FieldTextInput.WEBKIT userAgent); eexists _, _;
      (split; [reflexivity|]);
      by rewrite (bool_decide_eq_true_2 _ Hsame), andb_false_r.
  - rewrite (bool_decide_eq_false_2 _ Hold), Hset. by eexists _, _.
Qed.

Lemma typeAll_run userAgent restrictor_ eventsEnabled b steps :
  forall this htmlInput,
    Field.sourceBlock this = Some b ->
    inSession this htmlInput ->
    Forall (fun step =>
              FieldTextInput.failsRestrictor userAgent restrictor_ (snd step)
              = false) steps ->
    let final := last (Field.text this :: map fst steps) in
    exists htmlInput' effects,
      typeAll userAgent restrictor_ eventsEnabled this htmlInput steps
        = Normal (htmlInput', Field.set_text this (default [] final), effects)
      /\ inSession (Field.set_text this (default [] final)) htmlInput'
      /\ FieldTextInput.defaultValue htmlInput'
         = FieldTextInput.defaultValue htmlInput
      /\ (steps <> [] ->
          FieldTextInput.value htmlInput' = default [] final)
      /\ (if eventsEnabled
          then chained (Field.text this) (changes effects) (default [] final)
          else changes effects = []).
Proof.
  induction steps as [|[typed e] steps IH]; intros this htmlInput Hb Hses Hpass.
  - simpl. exists htmlInput, [].
    assert (Field.set_text this (Field.text this) = this) as ->
      by (by destruct this).
    split; [done|]. split; [done|]. split; [done|]. split; [done|].
    by destruct eventsEnabled.
  - apply Forall_cons in Hpass as [Hpass1 Hpass].
    destruct (onHtmlInputChange_run userAgent restrictor_ eventsEnabled this b
                htmlInput typed e Hb Hses Hpass1)
      as (cls & effects1 & Hrun1 & Hchanges1).
    cbn [typeAll]. rewrite Hrun1.
    destruct (IH (Field.set_text this typed)
                (FieldTextInput.mkHtmlInput typed
                   (FieldTextInput.defaultValue htmlInput) (Some typed)))
      as (htmlInput' & effects2 & Hrun2 & Hses2 & Hdef2 & Hval2 & Hchain2);
      [done|by left|done|].
    change (Field.text (Field.set_text this typed)) with typed in *.
    assert (last (Field.text this :: map fst ((typed, e) :: steps))
            = last (typed :: map fst steps)) as Hlast by done.
    cbn zeta. rewrite Hlast.
    set (final := default [] (last (typed :: map fst steps))) in *.
    assert (Field.set_text (Field.set_text this typed) final
            = Field.set_text this final) as Hset by done.
    rewrite Hset in Hrun2, Hses2. rewrite Hrun2.
    exists htmlInput', (effects1 ++ effects2).
    split; [done|]. split; [done|]. split; [done|]. split.
    + intros _. destruct steps as [|step steps]; [|by apply Hval2].
      simpl in Hrun2. by injection Hrun2 as <- _.
    + rewrite changes_app, Hchanges1.
      destruct eventsEnabled; simpl; [|by rewrite Hchain2].
      destruct (decide (typed = Field.text this)) as [Hsame|Hsame].
      * rewrite (bool_decide_eq_true_2 _ Hsame). simpl. by rewrite <-Hsame.
      * rewrite (bool_decide_eq_false_2 _ Hsame). simpl. done.
Qed.

Lemma typeAll_showEditor userAgent restrictor_ eventsEnabled this b steps :
  Field.sourceBlock this = Some b ->
  Forall (fun step =>
            FieldTextInput.failsRestrictor userAgent restrictor_ (snd step)
            = false) steps ->
  let final := default [] (last (Field.text this :: map fst steps)) in
  exists htmlInput' effects,
    typeAll userAgent restrictor_ eventsEnabled this
      (FieldTextInput.showEditor this) steps
      = Normal (htmlInput', Field.set_text this final, effects)
    /\ FieldTextInput.value htmlInput' = final
    /\ FieldTextInput.defaultValue htmlInput' = Field.text this
    /\ (if eventsEnabled
        then chained (Field.text this) (changes effects) final
        else changes effects = []).
Proof.
  intros Hb Hpass final.
  destruct (typeAll_run userAgent restrictor_ eventsEnabled b steps this
              (FieldTextInput.showEditor this) Hb)
    as (htmlInput' & effects & Hrun & _ & Hdef & Hval & Hchain);
    [by right|done|].
  exists htmlInput', effects. split; [done|]. split; [|done].
  destruct steps as [|step steps]; [|by rewrite Hval].
  simpl in Hrun. by injection Hrun as <- _.
Qed.

(** While the user types, the field follows the input element.  On a field
    attached to a block, from the editor as [showEditor] opens it and
    through any events that pass the restrictor, the session returns
    normally; the text of the field is then the text in the input element,
    as typed, whatever the validators say of it; the field is otherwise
    unchanged; the default of the element is still the text before the
    edit; and the change notifications fired lead, each from the text the
    one before left, from the text before the edit to the text of the
    field (none is fired when events are disabled). *)
Theorem typeAll_tracks_input userAgent restrictor_ eventsEnabled this b steps :
  Field.sourceBlock this = Some b ->
  Forall (fun step =>
            FieldTextInput.failsRestrictor userAgent restrictor_ (snd step)
            = false) steps ->
  exists htmlInput' this' effects,
    typeAll userAgent restrictor_ eventsEnabled this
      (FieldTextInput.showEditor this) steps
      = Normal (htmlInput', this', effects)
    /\ Field.text this' = FieldTextInput.value htmlInput'
    /\ Field.text this'
       = default [] (last (Field.text this :: map fst steps))
    /\ this' = Field.set_text this (Field.text this')
    /\ FieldTextInput.defaultValue htmlInput' = Field.text this
    /\ (if eventsEnabled
        then chained (Field.text this) (changes effects) (Field.text this')
        else changes effects = []).
Proof.
  intros Hb Hpass.
  destruct (typeAll_showEditor userAgent restrictor_ eventsEnabled this b
              steps Hb Hpass)
    as (htmlInput' & effects & Hrun & Hval & Hdef & Hchain).
  by eexists _, _, _.
Qed.

Definition inputEvent : FieldTextInput.KeyboardEvent :=
  FieldTextInput.mkKeyboardEvent FieldTextInput.InputEvent 0 0
    false false false true.

Definition chrome : FieldTextInput.UserAgent :=
  FieldTextInput.mkUserAgent false true.

Lemma typeAll_tracks_input_witness :
  exists htmlInput' this' effects,
    typeAll chrome None true (numericField (lit "7"))
      (FieldTextInput.showEditor (numericField (lit "7")))
      [(lit "7a", inputEvent); (lit "7a", inputEvent); (lit "7ab", inputEvent)]
      = Normal (htmlInput', this', effects)
    /\ Field.text this' = lit "7ab"
    /\ chained (lit "7") (changes effects) (lit "7ab").
Proof.
  destruct (typeAll_tracks_input chrome None true (numericField (lit "7"))
              (Field.mkSourceBlock false true)
              [(lit "7a", inputEvent); (lit "7a", inputEvent);
               (lit "7ab", inputEvent)] eq_refl)
    as (htmlInput' & this' & effects & Hrun & _ & Htext & _ & _ & Hchain).
  - repeat constructor.
  - exists htmlInput', this', effects. split; [done|]. split; [done|].
    by rewrite Htext in Hchain.
Defined.

(** A key goes down in the editor: [onHtmlInputKeyDown_] runs, and when it
    hides the widget the closure [widgetDispose_] that [showEditor] handed
    to the widget runs. *)
Definition keyDown (eventsEnabled : bool) (this : Field.Field)
    (htmlInput : FieldTextInput.HtmlInput) (e : FieldTextInput.KeyboardEvent)
    : Completion (Field.Field * list Field.Effect) :=
  let '(htmlInput', keyEffects) :=
    FieldTextInput.onHtmlInputKeyDown_ htmlInput e in
  if existsb (fun k => match k with
                       | FieldTextInput.HideWidget => true
                       | _ => false
                       end) keyEffects
  then FieldTextInput.widgetDispose_ eventsEnabled this htmlInput'
  else Normal (this, []).

(** An edit from start to end: the editor opens, the user types, a key goes
    down. *)
Definition edit (userAgent : FieldTextInput.UserAgent)
    (restrictor_ : option (jsstring -> bool)) (eventsEnabled : bool)
    (this : Field.Field)
    (steps : list (jsstring * FieldTextInput.KeyboardEvent))
    (e : FieldTextInput.KeyboardEvent)
    : Completion (Field.Field * list Field.Effect) :=
  match typeAll userAgent restrictor_ eventsEnabled this
          (FieldTextInput.showEditor this) steps with
  | Normal (htmlInput, this', effects) =>
      match keyDown eventsEnabled this' htmlInput e with
      | Normal (this'', effects') => Normal (this'', effects ++ effects')
      | Throw msg => Throw msg
      end
  | Throw msg => Throw msg
  end.

(** How an edit ends.  On a field attached to a block, after any typing
    that passes the restrictor: Enter and Tab write back the validated text
    of the input element; Escape puts the text before the edit back into
    the element first, so that what is written back is that text as the
    validators rewrite it now; in both cases the text before the edit is
    written when the validators reject.  The validators are called on the
    field as the typing left it, holding the text typed.  Any other key
    leaves the text as typed.  The change notifications of the whole edit
    lead from the text before the edit to the text after it. *)
Theorem edit_commits_or_cancels userAgent restrictor_ eventsEnabled this b
    steps e :
  Field.sourceBlock this = Some b ->
  Forall (fun step =>
            FieldTextInput.failsRestrictor userAgent restrictor_ (snd step)
            = false) steps ->
  let typed := default [] (last (Field.text this :: map fst steps)) in
  let written (t : jsstring) :=
    match Field.callValidator (Field.set_text this typed) t with
    | Some t' => t'
    | None => Field.text this
    end in
  exists this' effects,
    edit userAgent restrictor_ eventsEnabled this steps e
      = Normal (this', effects)
    /\ Field.text this'
       = (if (FieldTextInput.keyCode e =? 13)%Z then written typed
          else if (FieldTextInput.keyCode e =? 27)%Z
               then written (Field.text this)
               else if (FieldTextInput.keyCode e =? 9)%Z then written typed
                    else typed)
    /\ (if eventsEnabled
        then chained (Field.text this) (changes effects) (Field.text this')
        else changes effects = []).
Proof.
  intros Hb Hpass typed written.
  destruct (typeAll_showEditor userAgent restrictor_ eventsEnabled this b
              steps Hb Hpass)
    as (htmlInput & effects & Hrun & Hval & Hdef & Hchain).
  fold typed in Hrun, Hval, Hchain.
  unfold edit. rewrite Hrun.
  assert (forall value,
    exists this' effects',
      FieldTextInput.widgetDispose_ eventsEnabled
        (Field.set_text this typed)
        (FieldTextInput.mkHtmlInput value (Field.text this)
           (FieldTextInput.oldValue_ htmlInput))
        = Normal (this', effects')
      /\ Field.text this' = written value
      /\ (if eventsEnabled
          then chained (Field.text this) (changes (effects ++ effects'))
                       (Field.text this')
          else changes (effects ++ effects') = [])) as Hdispose.
  { intros value.
    destruct (widgetDispose_run eventsEnabled (Field.set_text this typed)
                (FieldTextInput.mkHtmlInput value (Field.text this)
                   (FieldTextInput.oldValue_ htmlInput)) b Hb)
      as (this' & effects' & Hrun' & Htext & Hchanges).
    exists this', effects'. split; [done|]. split; [done|].
    rewrite changes_app, Hchanges.
    change (Field.text (Field.set_text this typed)) with typed.
    destruct eventsEnabled; simpl; [|by rewrite Hchain, app_nil_r].
    apply (chained_app _ typed); [done|].
    destruct (decide (Field.text this' = typed)) as [Hsame|Hsame].
    - by rewrite (bool_decide_eq_true_2 _ Hsame).
    - rewrite (bool_decide_eq_false_2 _ Hsame). simpl. split; [done|].
      split; [done|done]. }
  assert (htmlInput
          = FieldTextInput.mkHtmlInput typed (Field.text this)
              (FieldTextInput.oldValue_ htmlInput)) as Hinput.
  { destruct htmlInput; simpl in *. by subst. }
  unfold keyDown, FieldTextInput.onHtmlInputKeyDown_.
  destruct (FieldTextInput.keyCode e =? 13)%Z.
  { simpl. rewrite Hinput.
    destruct (Hdispose typed) as (this' & effects' & -> & Htext & Hch).
    by exists this', (effects ++ effects'). }
  destruct (FieldTextInput.keyCode e =? 27)%Z.
  { simpl. rewrite Hdef.
    destruct (Hdispose (Field.text this))
      as (this' & effects' & -> & Htext & Hch).
    by exists this', (effects ++ effects'). }
  destruct (FieldTextInput.keyCode e =? 9)%Z.
  { simpl. rewrite Hinput.
    destruct (Hdispose typed) as (this' & effects' & -> & Htext & Hch).
    by exists this', (effects ++ effects'). }
  simpl. exists (Field.set_text this typed), (effects ++ []).
  split; [done|]. split; [done|]. by rewrite app_nil_r.
Qed.

Definition escapeKey : FieldTextInput.KeyboardEvent :=
  FieldTextInput.mkKeyboardEvent FieldTextInput.Keydown 27 0
    false false false true.

(** With the validator that doubles numbers, Escape after typing leaves the
    number before the edit doubled. *)
Example edit_escape_doubles :
  exists effects,
    edit chrome None true (numericField (lit "7"))
      [(lit "21", inputEvent)] escapeKey
    = Normal (numericField (lit "14"), effects)
    /\ changes effects
       = [Field.FireChange (lit "7") (lit "21");
          Field.FireChange (lit "21") (lit "14")].
Proof. eexists. split; reflexivity. Qed.

Lemma edit_commits_or_cancels_witness :
  exists this' effects,
    edit chrome None true (numericField (lit "7"))
      [(lit "21", inputEvent)] escapeKey = Normal (this', effects)
    /\ Field.text this' = lit "14".
Proof.
  destruct (edit_commits_or_cancels chrome None true (numericField (lit "7"))
              (Field.mkSourceBlock false true) [(lit "21", inputEvent)]
              escapeKey eq_refl)
    as (this' & effects & Hrun & Htext & _).
  - repeat constructor.
  - by exists this', effects.
Defined.

(** The restrictor acts on key presses only.  A key press whose character
    fails the restrictor is prevented, and the handler leaves the field and
    the input element as they are and notifies nothing; on Gecko the control
    characters and the combinations with Meta or Ctrl of a, c, v and x are
    let through.  An event of another type is never prevented: on a field
    attached to a block the text in the input element is stored in the
    field, whatever the restrictor says of its characters. *)
Theorem onHtmlInputChange_restricts userAgent (test : jsstring -> bool)
    eventsEnabled this htmlInput e :
  let code := if FieldTextInput.GECKO userAgent
              then FieldTextInput.charCode e
              else FieldTextInput.keyCode e in
  let letThrough :=
    FieldTextInput.GECKO userAgent
    && ((code <? 32)%Z || (code =? 127)%Z
        || ((FieldTextInput.metaKey e || FieldTextInput.ctrlKey e)
            && bool_decide (code ∈ [97; 99; 118; 120]%Z))) in
  (FieldTextInput.eventType e = FieldTextInput.Keypress ->
   FieldTextInput.hasPreventDefault e = true ->
   FieldTextInput.onHtmlInputChange userAgent (Some test) eventsEnabled
     this htmlInput e
   = if negb letThrough && negb (test (FieldTextInput.fromCharCode code))
     then Normal (true, None, htmlInput, (this, []))
     else FieldTextInput.onHtmlInputChange userAgent None eventsEnabled
            this htmlInput e)
  /\ (FieldTextInput.eventType e <> FieldTextInput.Keypress ->
      FieldTextInput.failsRestrictor userAgent (Some test) e = false
      /\ forall b typed,
           Field.sourceBlock this = Some b ->
           inSession this htmlInput ->
           exists cls effects,
             FieldTextInput.onHtmlInputChange userAgent (Some test)
               eventsEnabled this
               (FieldTextInput.mkHtmlInput typed
                  (FieldTextInput.defaultValue htmlInput)
                  (FieldTextInput.oldValue_ htmlInput)) e
             = Normal (false, cls,
                       FieldTextInput.mkHtmlInput typed
                         (FieldTextInput.defaultValue htmlInput) (Some typed),
                       (Field.set_text this typed, effects))).
Proof.
  intros code letThrough. split.
  - intros Hpress Hprevent.
    unfold FieldTextInput.onHtmlInputChange at 1 2.
    assert (FieldTextInput.failsRestrictor userAgent None e = false) as ->
      by (unfold FieldTextInput.failsRestrictor;
          by destruct (FieldTextInput.eventType e)).
    assert (FieldTextInput.failsRestrictor userAgent (Some test) e
            = negb letThrough
              && negb (test (FieldTextInput.fromCharCode code))) as ->.
    { unfold FieldTextInput.failsRestrictor, letThrough, code,
        FieldTextInput.GECKO_KEYCODE_WHITELIST.
      rewrite Hpress, Hprevent.
      destruct (FieldTextInput.GECKO userAgent); simpl;
        [|by rewrite andb_true_r].
      rewrite andb_true_r.
      destruct (_ <? 32)%Z, (_ =? 127)%Z; simpl; try done. }
    by destruct (negb letThrough && _).
  - intros Hother.
    assert (FieldTextInput.failsRestrictor userAgent (Some test) e = false)
      as Hpass
      by (unfold FieldTextInput.failsRestrictor;
          by destruct (FieldTextInput.eventType e)).
    split; [done|]. intros b typed Hb Hses.
    destruct (onHtmlInputChange_run userAgent (Some test) eventsEnabled this b
                htmlInput typed e Hb Hses Hpass)
      as (cls & effects & Hrun & _).
    by exists cls, effects.
Qed.

(** Digits only: a pasted text gets into the field all the same. *)
Example restrictor_lets_paste_through :
  let digitsOnly (s : jsstring) := forallb isDigit s in
  exists cls effects,
    FieldTextInput.onHtmlInputChange chrome (Some digitsOnly) true
      (numericField (lit "7"))
      (FieldTextInput.mkHtmlInput (lit "abc") (lit "7") (Some (lit "7")))
      inputEvent
    = Normal (false, cls,
              FieldTextInput.mkHtmlInput (lit "abc") (lit "7")
                (Some (lit "abc")),
              (numericField (lit "abc"), effects)).
Proof. by eexists _, _. Qed.

(** ** Dropdown fields *)

Lemma updateTextNode_returns this element :
  element = None \/ is_Some (Field.sourceBlock this) ->
  exists element',
    Field.updateTextNode this element = Normal element'
    /\ (element = None -> element' = None).
Proof.
  intros [->|[b Hb]]; [by exists None|].
  destruct element as [el|]; [|by exists None].
  unfold Field.updateTextNode. rewrite Hb.
  destruct (_ >? _)%Z; by eexists.
Qed.

(** [FieldDropdown.setText] on a string returns normally when the field has
    no text element yet or is attached to a block; it changes the text and
    the text element only, and notifies no change. *)
Lemma FieldDropdown_setText_run this t :
  FieldDropdown.textElement_ this = None
  \/ is_Some (Field.sourceBlock (FieldDropdown.field this)) ->
  exists this' effects,
    FieldDropdown.setText this (Some t) = Normal (this', effects)
    /\ FieldDropdown.field this' = Field.set_text (FieldDropdown.field this) t
    /\ FieldDropdown.value this' = FieldDropdown.value this
    /\ FieldDropdown.imageJson_ this' = FieldDropdown.imageJson_ this
    /\ FieldDropdown.menuGenerator_ this' = FieldDropdown.menuGenerator_ this
    /\ FieldDropdown.argType_ this' = FieldDropdown.argType_ this
    /\ (FieldDropdown.textElement_ this = None ->
        FieldDropdown.textElement_ this' = None)
    /\ changes effects = [].
Proof.
  intros Hok. unfold FieldDropdown.setText.
  case_bool_decide as Hsame.
  - exists this, []. split; [done|]. split; [|done].
    subst t. by destruct (FieldDropdown.field this).
  - destruct (updateTextNode_returns
                (Field.set_text (FieldDropdown.field this) t)
                (FieldDropdown.textElement_ this) Hok)
      as (element' & Hrun & Hnone).
    simpl. rewrite Hrun. eexists _, _. split; [reflexivity|].
    simpl. do 5 (split; [done|]). split.
    + intros Hel. by rewrite (Hnone Hel).
    + destruct (Field.sourceBlock (FieldDropdown.field this)) as [b|];
        [|done].
      by destruct (Field.rendered b).
Qed.

Lemma lookUp_first before content (v : jsstring) after :
  v ∉ map snd before ->
  FieldDropdown.lookUp (before ++ (content, v) :: after) v = Some content.
Proof.
  induction before as [|[c w] before IH]; intros Hv; simpl.
  - by rewrite bool_decide_eq_true_2.
  - apply not_elem_of_cons in Hv as [Hne Hv]. simpl in Hne.
    rewrite bool_decide_eq_false_2 by done. by apply IH.
Qed.

Lemma lookUp_none options (v : jsstring) :
  v ∉ map snd options -> FieldDropdown.lookUp options v = None.
Proof.
  induction options as [|[c w] options IH]; intros Hv; simpl; [done|].
  apply not_elem_of_cons in Hv as [Hne Hv]. simpl in Hne.
  rewrite bool_decide_eq_false_2 by done. by apply IH.
Qed.

(** What [setValue] shows for the content found: a label, the alternative
    text of an image (the text is kept when there is none), or the value
    itself when no option has it. *)
Definition shownFor (this : FieldDropdown.Dropdown) (v : jsstring)
    (found : option FieldDropdown.Content) : jsstring :=
  match found with
  | Some (FieldDropdown.TextContent label) => label
  | Some (FieldDropdown.ImageContent image) =>
      default (Field.text (FieldDropdown.field this))
              (FieldDropdown.alt image)
  | None => v
  end.

Lemma FieldDropdown_setValue_run eventsEnabled this v :
  v <> FieldDropdown.value this ->
  FieldDropdown.textElement_ this = None
  \/ is_Some (Field.sourceBlock (FieldDropdown.field this)) ->
  let found :=
    FieldDropdown.lookUp
      (FieldDropdown.getOptions (FieldDropdown.set_value this v)) v in
  exists this' effects,
    FieldDropdown.setValue eventsEnabled this (Some v)
      = Normal (this', effects)
    /\ FieldDropdown.value this' = v
    /\ FieldDropdown.field this'
       = Field.set_text (FieldDropdown.field this) (shownFor this v found)
    /\ FieldDropdown.imageJson_ this'
       = match found with
         | Some (FieldDropdown.ImageContent image) => Some image
         | Some (FieldDropdown.TextContent _) => None
         | None => FieldDropdown.imageJson_ this
         end
    /\ FieldDropdown.menuGenerator_ this' = FieldDropdown.menuGenerator_ this
    /\ FieldDropdown.argType_ this' = FieldDropdown.argType_ this
    /\ (FieldDropdown.textElement_ this = None ->
        FieldDropdown.textElement_ this' = None)
    /\ changes effects
       = if bool_decide
              (is_Some (Field.sourceBlock (FieldDropdown.field this)))
            && eventsEnabled
         then [Field.FireChange (FieldDropdown.value this) v]
         else [].
Proof.
  intros Hnew Hok found. unfold FieldDropdown.setValue.
  rewrite bool_decide_eq_false_2 by done.
  set (fired := if _ && eventsEnabled then _ else []).
  set (this1 := FieldDropdown.set_value
                  (FieldDropdown.set_selectedItem this None) v).
  assert (FieldDropdown.getOptions this1
          = FieldDropdown.getOptions (FieldDropdown.set_value this v))
    as Hopts by done.
  rewrite Hopts. fold found.
  assert (changes fired = fired) as Hfired.
  { subst fired. by destruct (_ && _). }
  destruct found as [[label|image]|].
  - destruct (FieldDropdown_setText_run
                (FieldDropdown.set_imageJson_ this1 None) label Hok)
      as (this' & effects & -> & Hf & Hv & Hi & Hm & Ha & He & Hc).
    exists this', (fired ++ effects).
    rewrite changes_app, Hc, app_nil_r, Hfired.
    by rewrite Hf, Hv, Hi, Hm, Ha.
  - destruct (FieldDropdown.alt image) as [a|] eqn:Halt.
    + destruct (FieldDropdown_setText_run
                  (FieldDropdown.set_imageJson_ this1 (Some image)) a Hok)
        as (this' & effects & -> & Hf & Hv & Hi & Hm & Ha & He & Hc).
      exists this', (fired ++ effects).
      rewrite changes_app, Hc, app_nil_r, Hfired.
      simpl. rewrite Halt. by rewrite Hf, Hv, Hi, Hm, Ha.
    + simpl. eexists _, _. split; [reflexivity|]. simpl.
      rewrite Halt, app_nil_r, Hfired. simpl.
      do 2 (split; [by destruct (FieldDropdown.field this)|]).
      done.
  - destruct (FieldDropdown_setText_run this1 v Hok)
      as (this' & effects & -> & Hf & Hv & Hi & Hm & Ha & He & Hc).
    exists this', (fired ++ effects).
    rewrite changes_app, Hc, app_nil_r, Hfired.
    by rewrite Hf, Hv, Hi, Hm, Ha.
Qed.

(** [setValue] of a dropdown.  The value [null] and the value the field has
    already change nothing.  Any other value is stored, whether an option
    has it or not, and notified once when the field is attached and events
    are enabled.  The text shown is the label of the first option that has
    the value (for an image its alternative text and the image is kept;
    without an alternative text the text stays), and the value itself when
    no option has it. *)
Theorem FieldDropdown_setValue_shows_label eventsEnabled this v :
  FieldDropdown.textElement_ this = None
  \/ is_Some (Field.sourceBlock (FieldDropdown.field this)) ->
  let options := FieldDropdown.getOptions (FieldDropdown.set_value this v) in
  FieldDropdown.setValue eventsEnabled this None = Normal (this, [])
  /\ FieldDropdown.setValue eventsEnabled this
       (Some (FieldDropdown.value this)) = Normal (this, [])
  /\ (v <> FieldDropdown.value this ->
      exists this' effects,
        FieldDropdown.setValue eventsEnabled this (Some v)
          = Normal (this', effects)
        /\ FieldDropdown.getValue this' = v
        /\ changes effects
           = (if bool_decide
                   (is_Some (Field.sourceBlock (FieldDropdown.field this)))
                 && eventsEnabled
              then [Field.FireChange (FieldDropdown.value this) v]
              else [])
        /\ (forall before label after,
              options = before ++ (FieldDropdown.TextContent label, v) :: after ->
              v ∉ map snd before ->
              Field.text (FieldDropdown.field this') = label
              /\ FieldDropdown.imageJson_ this' = None)
        /\ (forall before image after,
              options = before ++ (FieldDropdown.ImageContent image, v) :: after ->
              v ∉ map snd before ->
              Field.text (FieldDropdown.field this')
              = default (Field.text (FieldDropdown.field this))
                        (FieldDropdown.alt image)
              /\ FieldDropdown.imageJson_ this' = Some image)
        /\ (v ∉ map snd options ->
            Field.text (FieldDropdown.field this') = v
            /\ FieldDropdown.imageJson_ this' = FieldDropdown.imageJson_ this)).
Proof.
  intros Hok options. split; [done|]. split.
  - unfold FieldDropdown.setValue. by rewrite bool_decide_eq_true_2.
  - intros Hnew.
    destruct (FieldDropdown_setValue_run eventsEnabled this v Hnew Hok)
      as (this' & effects & Hrun & Hv & Hf & Hi & _ & _ & _ & Hc).
    fold options in Hf, Hi.
    exists this', effects. split; [done|]. split; [done|]. split; [done|].
    split; [|split].
    + intros before label after Hopts Hfirst.
      rewrite Hopts, (lookUp_first before _ v after Hfirst) in Hf, Hi.
      by rewrite Hf, Hi.
    + intros before image after Hopts Hfirst.
      rewrite Hopts, (lookUp_first before _ v after Hfirst) in Hf, Hi.
      by rewrite Hf, Hi.
    + intros Hnone. rewrite (lookUp_none options v Hnone) in Hf, Hi.
      by rewrite Hf, Hi.
Qed.

(** A dropdown of two colours on a rendered block. *)
Definition colourOptions : list FieldDropdown.MenuOption :=
  [(FieldDropdown.TextContent (lit "red"), lit "RED");
   (FieldDropdown.TextContent (lit "blue"), lit "BLUE")].

Definition colourDropdown : FieldDropdown.Dropdown :=
  FieldDropdown.mkDropdown
    (Field.mkField (lit "red") (Some (Field.mkSourceBlock false true))
                   None Field.defaultClassValidator 50 false)
    (lit "RED") (FieldDropdown.StaticOptions colourOptions)
    None None None None None (Some [lit "dropdown"]).

Lemma FieldDropdown_setValue_shows_label_witness :
  exists this' effects,
    FieldDropdown.setValue true colourDropdown (Some (lit "BLUE"))
      = Normal (this', effects)
    /\ FieldDropdown.getValue this' = lit "BLUE"
    /\ Field.text (FieldDropdown.field this') = lit "blue".
Proof.
  destruct (FieldDropdown_setValue_shows_label true colourDropdown (lit "BLUE"))
    as (_ & _ & Hset); [right; by eexists|].
  destruct Hset as (this' & effects & Hrun & Hv & _ & Hlabel & _);
    [discriminate|].
  exists this', effects. split; [done|]. split; [done|].
  apply (Hlabel [(FieldDropdown.TextContent (lit "red"), lit "RED")]
           (lit "blue") []); [reflexivity|].
  vm_compute. intros [[=]|Hin]%elem_of_cons. by apply elem_of_nil in Hin.
Defined.

(** A value no option has is stored and shown as it is. *)
Example FieldDropdown_setValue_unknown :
  exists effects,
    FieldDropdown.setValue true colourDropdown (Some (lit "GREEN"))
    = Normal (FieldDropdown.mkDropdown
                (Field.mkField (lit "GREEN")
                   (Some (Field.mkSourceBlock false true))
                   None Field.defaultClassValidator 50 false)
                (lit "GREEN") (FieldDropdown.StaticOptions colourOptions)
                None None None None None (Some [lit "dropdown"]),
              effects)
    /\ changes effects = [Field.FireChange (lit "RED") (lit "GREEN")].
Proof. eexists. split; reflexivity. Qed.

(** [onItemSelected] on a dropdown attached to a block: an item that the
    validators reject leaves the dropdown exactly as it is and notifies
    nothing; otherwise the value selected is the one the validators return,
    which replaces the value of the item.  Detached, the validators are not
    asked. *)
Theorem onItemSelected_validates eventsEnabled this item :
  (forall b,
     Field.sourceBlock (FieldDropdown.field this) = Some b ->
     (Field.callValidator (FieldDropdown.field this) item = None ->
      FieldDropdown.onItemSelected eventsEnabled this item
      = Normal (this, []))
     /\ (forall v,
           Field.callValidator (FieldDropdown.field this) item = Some v ->
           exists this' effects,
             FieldDropdown.onItemSelected eventsEnabled this item
               = Normal (this', effects)
             /\ FieldDropdown.getValue this' = v
             /\ changes effects
                = if eventsEnabled
                     && negb (bool_decide (v = FieldDropdown.value this))
                  then [Field.FireChange (FieldDropdown.value this) v]
                  else []))
  /\ (Field.sourceBlock (FieldDropdown.field this) = None ->
      FieldDropdown.onItemSelected eventsEnabled this item
      = FieldDropdown.setValue eventsEnabled this (Some item)).
Proof.
  split.
  - intros b Hb. unfold FieldDropdown.onItemSelected. rewrite Hb. split.
    + by intros ->.
    + intros v ->.
      destruct (decide (v = FieldDropdown.value this)) as [Hsame|Hnew].
      * exists this, []. unfold FieldDropdown.setValue.
        rewrite !(bool_decide_eq_true_2 _ Hsame), andb_false_r.
        by rewrite Hsame.
      * destruct (FieldDropdown_setValue_run eventsEnabled this v Hnew)
          as (this' & effects & Hrun & Hv & _ & _ & _ & _ & _ & Hc).
        { right. by eexists. }
        exists this', effects. split; [done|]. split; [done|].
        rewrite Hc, Hb, (bool_decide_eq_false_2 _ Hnew), andb_true_r.
        by rewrite bool_decide_eq_true_2 by (by eexists).
  - intros Hb. unfold FieldDropdown.onItemSelected. by rewrite Hb.
Qed.

Lemma substring_inner (t : jsstring) (p s : Z) :
  (0 <= p)%Z -> (0 <= s)%Z -> (p + s < Z.of_nat (length t))%Z ->
  let inner := FieldDropdown.substring t p (Z.of_nat (length t) - s) in
  inner <> []
  /\ t = take (Z.to_nat p) t ++ inner
         ++ drop (Z.to_nat (Z.of_nat (length t) - s)) t.
Proof.
  intros Hp Hs Hlen. unfold FieldDropdown.substring.
  set (len := Z.of_nat (length t)) in *.
  replace (Z.min (Z.max p 0) len) with p by lia.
  replace (Z.min (Z.max (len - s) 0) len) with (len - s)%Z by lia.
  replace (Z.min p (len - s)) with p by lia.
  replace (Z.max p (len - s)) with (len - s)%Z by lia.
  cbn zeta. split.
  - intros Hnil. apply (f_equal length) in Hnil.
    rewrite length_take, length_drop in Hnil. simpl in Hnil. lia.
  - rewrite <-(take_drop (Z.to_nat p) t) at 1. f_equal.
    rewrite <-(take_drop (Z.to_nat (len - s - p)) (drop (Z.to_nat p) t)) at 1.
    f_equal. rewrite drop_drop. f_equal. lia.
Qed.

Section Trim.
Variable replaceMessageReferences : jsstring -> jsstring.
Variable shortestStringLength : list jsstring -> Z.
Variable commonWordPrefix : list jsstring -> Z -> Z.
Variable commonWordSuffix : list jsstring -> Z -> Z.

Abbreviation trimOptions :=
  (FieldDropdown.trimOptions replaceMessageReferences shortestStringLength
     commonWordPrefix commonWordSuffix).
Abbreviation localize := (FieldDropdown.localize replaceMessageReferences).

(** [trimOptions] touches the options, the prefix and the suffix only. *)
Lemma trimOptions_frame this :
  FieldDropdown.field (trimOptions this) = FieldDropdown.field this
  /\ FieldDropdown.value (trimOptions this) = FieldDropdown.value this
  /\ FieldDropdown.imageJson_ (trimOptions this)
     = FieldDropdown.imageJson_ this
  /\ FieldDropdown.textElement_ (trimOptions this)
     = FieldDropdown.textElement_ this
  /\ FieldDropdown.argType_ (trimOptions this) = FieldDropdown.argType_ this.
Proof.
  unfold FieldDropdown.trimOptions. simpl.
  destruct (FieldDropdown.menuGenerator_ this); [|done].
  repeat (match goal with |- context [if ?c then _ else _] =>
            destruct c end; simpl; try done).
Qed.

Lemma trimOptions_static this options :
  FieldDropdown.menuGenerator_ this = FieldDropdown.StaticOptions options ->
  exists options',
    FieldDropdown.menuGenerator_ (trimOptions this)
    = FieldDropdown.StaticOptions options'.
Proof.
  intros Hgen. unfold FieldDropdown.trimOptions. simpl. rewrite Hgen.
  repeat (match goal with |- context [if ?c then _ else _] =>
            destruct c end; simpl; try by eexists).
Qed.

(** [trimOptions] on an array of options never changes the values, their
    number or their order.  It trims only when no option is an image, there
    are two options at least, a common prefix or suffix is found and the
    shortest label is longer than the two together; otherwise the options
    are the localized ones and no prefix or suffix is set.  When it trims,
    and the lengths found are not negative and [shortest] is at most the
    length of every label, every label left is the localized label without
    its first [prefixLength] and its last [suffixLength] characters, and
    none is empty. *)
Theorem trimOptions_keeps_values this options :
  FieldDropdown.menuGenerator_ this = FieldDropdown.StaticOptions options ->
  let strings := map FieldDropdown.labelOf (map localize options) in
  let shortest := shortestStringLength strings in
  let prefixLength := commonWordPrefix strings shortest in
  let suffixLength := commonWordSuffix strings shortest in
  let trims :=
    negb (existsb FieldDropdown.isImage (map localize options)
          || (Z.of_nat (length options) <? 2)%Z)
    && negb ((prefixLength =? 0)%Z && (suffixLength =? 0)%Z)
    && negb (shortest <=? prefixLength + suffixLength)%Z in
  exists options',
    FieldDropdown.menuGenerator_ (trimOptions this)
      = FieldDropdown.StaticOptions options'
    /\ map snd options' = map snd options
    /\ FieldDropdown.field (trimOptions this) = FieldDropdown.field this
    /\ FieldDropdown.value (trimOptions this) = FieldDropdown.value this
    /\ (trims = false ->
        options' = map localize options
        /\ FieldDropdown.prefixField (trimOptions this) = None
        /\ FieldDropdown.suffixField (trimOptions this) = None)
    /\ (trims = true ->
        (0 <= prefixLength)%Z -> (0 <= suffixLength)%Z ->
        (forall s, s ∈ strings -> (shortest <= Z.of_nat (length s))%Z) ->
        Forall2 (fun o o' =>
            let label := FieldDropdown.labelOf (localize o) in
            exists label',
              o' = (FieldDropdown.TextContent label', snd o)
              /\ label' <> []
              /\ label
                 = take (Z.to_nat prefixLength) label ++ label'
                   ++ drop (Z.to_nat (Z.of_nat (length label) - suffixLength))
                        label)
          options options').
Proof.
  intros Hgen strings shortest prefixLength suffixLength trims.
  assert (map snd (map localize options) = map snd options) as Hvalues.
  { rewrite map_map. apply map_ext. intros [[label|image] v]; done. }
  unfold FieldDropdown.trimOptions. simpl. rewrite Hgen.
  rewrite length_map. fold strings shortest prefixLength suffixLength.
  unfold trims.
  destruct (existsb _ _ || _) eqn:Hfew; simpl.
  { eexists. split; [reflexivity|]. split; [done|]. by repeat split. }
  destruct ((prefixLength =? 0)%Z && (suffixLength =? 0)%Z) eqn:Hnone; simpl.
  { eexists. split; [reflexivity|]. split; [done|]. by repeat split. }
  destruct (shortest <=? prefixLength + suffixLength)%Z eqn:Hshort; simpl.
  { eexists. split; [reflexivity|]. split; [done|]. by repeat split. }
  eexists. split; [reflexivity|]. split; [|split; [done|split; [done|]]].
  { rewrite <-Hvalues, (map_map _ snd (map localize options)). done. }
  split; [done|]. intros _ Hp Hs Hall.
  apply Z.leb_gt in Hshort.
  apply Forall2_fmap_r, Forall2_fmap_r, Forall_Forall2_diag, Forall_forall.
  intros o Ho. simpl.
  assert (shortest <= Z.of_nat (length (FieldDropdown.labelOf (localize o))))%Z
    as Hlen.
  { apply Hall. unfold strings. rewrite <-list_fmap_compose.
    by apply (list_elem_of_fmap_2
                (fun o => FieldDropdown.labelOf (localize o))). }
  destruct (substring_inner (FieldDropdown.labelOf (localize o))
              prefixLength suffixLength Hp Hs) as [Hne Hsplit]; [lia|].
  eexists. split; [|split; [exact Hne | exact Hsplit]].
  by destruct o as [[label|image] v].
Qed.

End Trim.

(** Two options with the common first word "set". *)
Definition setOptions : list FieldDropdown.MenuOption :=
  [(FieldDropdown.TextContent (lit "set red"), lit "RED");
   (FieldDropdown.TextContent (lit "set blue"), lit "BLUE")].

Definition setDropdown : FieldDropdown.Dropdown :=
  FieldDropdown.mkDropdown
    (Field.mkField [] None None Field.defaultClassValidator 50 false)
    [] (FieldDropdown.StaticOptions setOptions)
    None None None None None None.

(** Helpers for the example: the length of the shortest string, and the
    lengths of the common prefix ("set ") and suffix (none). *)
Definition shortestOf (strings : list jsstring) : Z :=
  match strings with
  | [] => 0
  | s :: strings' =>
      fold_left (fun m s' => Z.min m (Z.of_nat (length s'))) strings'
                (Z.of_nat (length s))
  end.

Example trimOptions_scenario :
  let this' := FieldDropdown.trimOptions id shortestOf (fun _ _ => 4%Z)
                 (fun _ _ => 0%Z) setDropdown in
  FieldDropdown.getOptions this'
  = [(FieldDropdown.TextContent (lit "red"), lit "RED");
     (FieldDropdown.TextContent (lit "blue"), lit "BLUE")]
  /\ FieldDropdown.prefixField this' = Some (lit "set")
  /\ FieldDropdown.suffixField this' = None.
Proof. repeat split. Qed.

Lemma trimOptions_keeps_values_witness :
  exists options',
    FieldDropdown.menuGenerator_
      (FieldDropdown.trimOptions id shortestOf (fun _ _ => 4%Z)
         (fun _ _ => 0%Z) setDropdown)
    = FieldDropdown.StaticOptions options'
    /\ map snd options' = [lit "RED"; lit "BLUE"].
Proof.
  destruct (trimOptions_keeps_values id shortestOf (fun _ _ => 4%Z)
              (fun _ _ => 0%Z) setDropdown setOptions eq_refl)
    as (options' & Hgen & Hvalues & _).
  by exists options'.
Defined.

(** The constructor of a dropdown.  Without options it throws a TypeError.
    With an array of options it returns a dropdown whose value is the value
    of the first option left by [trimOptions], with the validator given,
    the argument type "dropdown" and no notification; its text is the label
    of that option (the alternative text of an image), except when that
    value is the empty string, the value the prototype has: then the text
    stays empty. *)
Theorem FieldDropdown_create_selects_first replaceMessageReferences
    shortestStringLength commonWordPrefix commonWordSuffix
    MAX_DISPLAY_LENGTH eventsEnabled options opt_validator :
  let create :=
    FieldDropdown.create replaceMessageReferences shortestStringLength
      commonWordPrefix commonWordSuffix MAX_DISPLAY_LENGTH eventsEnabled in
  let trimmed :=
    FieldDropdown.getOptions
      (FieldDropdown.trimOptions replaceMessageReferences shortestStringLength
         commonWordPrefix commonWordSuffix
         (FieldDropdown.mkDropdown
            (Field.mkField [] None None Field.defaultClassValidator
                           MAX_DISPLAY_LENGTH false)
            [] (FieldDropdown.StaticOptions options)
            None None None None None None)) in
  (options = [] ->
   create (FieldDropdown.StaticOptions options) opt_validator
   = Throw "TypeError: Cannot read property '1' of undefined")
  /\ (forall generate,
        generate [] [] = [] ->
        create (FieldDropdown.DynamicOptions generate) opt_validator
        = Throw "TypeError: Cannot read property '1' of undefined")
  /\ (forall content v rest,
        trimmed = (content, v) :: rest ->
        exists this,
          create (FieldDropdown.StaticOptions options) opt_validator
            = Normal this
          /\ FieldDropdown.getValue this = v
          /\ FieldDropdown.getOptions this = trimmed
          /\ Field.text (FieldDropdown.field this)
             = (if bool_decide (v = []) then []
                else match content with
                     | FieldDropdown.TextContent label => label
                     | FieldDropdown.ImageContent image =>
                         default [] (FieldDropdown.alt image)
                     end)
          /\ Field.validator_ (FieldDropdown.field this) = opt_validator
          /\ Field.sourceBlock (FieldDropdown.field this) = None
          /\ Field.getArgTypes (FieldDropdown.argType_ this)
             = Some (lit "dropdown")).
Proof.
  intros create trimmed. split; [by intros ->|]. split.
  - intros generate Hnone.
    unfold create, FieldDropdown.create, FieldDropdown.trimOptions,
      FieldDropdown.getOptions.
    simpl. by rewrite Hnone.
  - intros content v rest Htrim. unfold create, FieldDropdown.create.
    set (proto := FieldDropdown.mkDropdown _ _ _ _ _ _ _ _ _) in *.
    set (this0 := FieldDropdown.trimOptions _ _ _ _ proto) in *.
    fold trimmed. rewrite Htrim. cbn [snd].
    destruct (trimOptions_frame replaceMessageReferences
                shortestStringLength commonWordPrefix commonWordSuffix proto)
      as (Hfield & Hvalue & Himage & Helement & Hargs).
    destruct (trimOptions_static replaceMessageReferences
                shortestStringLength commonWordPrefix commonWordSuffix proto
                options eq_refl) as (options' & Hgen).
    fold this0 in Hgen, Hfield, Hvalue, Himage, Helement, Hargs.
    simpl in Hfield, Hvalue, Himage, Helement, Hargs.
    assert (options' = trimmed) as ->.
    { unfold trimmed, FieldDropdown.getOptions. by rewrite Hgen. }
    destruct (decide (v = [])) as [->|Hv].
    + unfold FieldDropdown.setValue.
      rewrite Hvalue, bool_decide_eq_true_2 by done.
      eexists. split; [reflexivity|]. simpl.
      rewrite Hvalue, Hfield, Hargs. simpl.
      split; [done|]. split; [|done].
      unfold FieldDropdown.getOptions. simpl. by rewrite Hgen.
    + destruct (FieldDropdown_setValue_run eventsEnabled this0 v)
        as (this' & effects & Hrun & Hv' & Hf & Hi & Hm & Ha & _ & _).
      { by rewrite Hvalue. }
      { by left. }
      rewrite Hrun. eexists. split; [reflexivity|]. simpl.
      rewrite Hv', Hf, Ha, Hargs, Hfield. simpl.
      split; [done|]. split.
      { unfold FieldDropdown.getOptions. simpl. by rewrite Hm, Hgen. }
      split; [|done].
      rewrite bool_decide_eq_false_2 by done.
      assert (FieldDropdown.getOptions (FieldDropdown.set_value this0 v)
              = (content, v) :: rest) as ->.
      { unfold FieldDropdown.getOptions. simpl. rewrite Hgen.
        exact Htrim. }
      simpl. rewrite bool_decide_eq_true_2 by done.
      destruct content as [label|image]; [done|].
      simpl. by rewrite Hfield.
Qed.

Example FieldDropdown_create_scenario :
  exists this,
    FieldDropdown.create id shortestOf (fun _ _ => 4%Z) (fun _ _ => 0%Z)
      50 true (FieldDropdown.StaticOptions setOptions) None
    = Normal this
    /\ FieldDropdown.getValue this = lit "RED"
    /\ Field.text (FieldDropdown.field this) = lit "red"
    /\ FieldDropdown.prefixField this = Some (lit "set").
Proof. eexists. repeat split. Qed.

(** The first option has the empty value: nothing is shown. *)
Example FieldDropdown_create_empty_value :
  exists this,
    FieldDropdown.create id shortestOf (fun _ _ => 0%Z) (fun _ _ => 0%Z)
      50 true
      (FieldDropdown.StaticOptions
         [(FieldDropdown.TextContent (lit "none"), []);
          (FieldDropdown.TextContent (lit "some"), lit "SOME")]) None
    = Normal this
    /\ FieldDropdown.getValue this = []
    /\ Field.text (FieldDropdown.field this) = [].
Proof. eexists. repeat split. Qed.

(** ** Unhiding twice *)
Section UnhideTwice.
Context {N : Number}.
Variable ty : ConnRef -> option ConnectionType.
Implicit Types (ws : Workspace) (r : ConnRef) (c : Connection)
  (k : ConnectionNode) (b : Block).

(** The connections of [V] are visible and registered. *)
Definition settled (V : list ConnRef) ws : Prop :=
  forall r, r ∈ V ->
    exists c, connections ws !! r = Some c
              /\ hidden c = false /\ inDB c = true.

(** On connections that are visible and registered [unhideAll] changes
    nothing. *)
Lemma unhideAll_settled k : forall ws,
  (forall r, typeOf ws r = ty r) ->
  settled (visited ty k) ws ->
  RenderedConnection.unhideAll k ws = Normal (leafBlocks ty k, ws).
Proof.
  revert k.
  apply (ConnectionNode_tree_ind
    (fun b => forall ws,
       (forall r, typeOf ws r = ty r) ->
       settled (flat_map (visited ty) (revealed b)) ws ->
       RenderedConnection.unhideEach (revealed b) ws
       = Normal (flat_map (leafBlocks ty) (revealed b), ws))
    (fun k => forall ws,
       (forall r, typeOf ws r = ty r) ->
       settled (visited ty k) ws ->
       RenderedConnection.unhideAll k ws = Normal (leafBlocks ty k, ws))).
  - intros id c o n p ins Ho Hn Hp Hins ws Hty.
    pose proof (Forall_revealed _ id c o n p ins Ho Hn Hp Hins) as Hall.
    induction Hall as [|k ks Hk _ IH]; intros Hset; simpl; [done|].
    unfold bind, ret. rewrite (Hk ws Hty), IH; [done|..].
    + intros r Hr. apply Hset. simpl. apply elem_of_app. by right.
    + intros r Hr. apply Hset. simpl. apply elem_of_app. by left.
  - intros r tgt IH ws Hty Hset.
    rewrite visited_unfold in Hset.
    destruct (Hset r) as (c & Hr & Hh & Hin); [by left|].
    assert (follows ty r = RenderedConnection.followsDown (type c)) as Hf.
    { apply follows_type. rewrite <-Hty. unfold typeOf. by rewrite Hr. }
    rewrite unhideAll_unfold, leafBlocks_unfold, Hf.
    unfold bind at 1.
    rewrite (setHidden_settled ws r c false Hr Hh Hin).
    unfold bind at 1. unfold getConnection at 1. rewrite Hr.
    rewrite Hf in Hset.
    destruct (RenderedConnection.followsDown (type c)); simpl; [|done].
    destruct tgt as [b|]; [|done].
    unfold bind, ret. rewrite (IH b eq_refl ws Hty).
    + by case_bool_decide.
    + intros r' Hr'. apply Hset. by right.
Qed.

(** What [unhideAll] comes to, connection by connection: those it visits
    are as [setHidden(false)] leaves them, the others as they were. *)
Definition unhides k : Prop :=
  forall ws,
    wf ws -> (forall r, typeOf ws r = ty r) ->
    (forall r, r ∈ visited ty k -> is_Some (connections ws !! r)) ->
    exists ws',
      RenderedConnection.unhideAll k ws = Normal (leafBlocks ty k, ws')
      /\ wf ws'
      /\ forall r,
           connections ws' !! r
           = if decide (r ∈ visited ty k)
             then (fun c => shown c false) <$> connections ws !! r
             else connections ws !! r.

Lemma shown_typeOf ws ws' (V : list ConnRef) :
  (forall r, connections ws' !! r
             = if decide (r ∈ V)
               then (fun c => shown c false) <$> connections ws !! r
               else connections ws !! r) ->
  forall r, typeOf ws' r = typeOf ws r.
Proof.
  intros Hc r. unfold typeOf. rewrite Hc.
  case_decide; [|done]. by destruct (connections ws !! r).
Qed.

Lemma unhideEach_precise ks :
  Forall unhides ks ->
  forall ws,
    wf ws -> (forall r, typeOf ws r = ty r) ->
    (forall r, r ∈ flat_map (visited ty) ks ->
               is_Some (connections ws !! r)) ->
    exists ws',
      RenderedConnection.unhideEach ks ws
        = Normal (flat_map (leafBlocks ty) ks, ws')
      /\ wf ws'
      /\ forall r,
           connections ws' !! r
           = if decide (r ∈ flat_map (visited ty) ks)
             then (fun c => shown c false) <$> connections ws !! r
             else connections ws !! r.
Proof.
  induction 1 as [|k ks Hk _ IH]; intros ws Hwf Hty Hknown; simpl.
  - by exists ws.
  - simpl in Hknown.
    destruct (Hk ws Hwf Hty) as (ws1 & Hrun1 & Hwf1 & Hc1).
    { intros r Hr. apply Hknown, elem_of_app. by left. }
    destruct (IH ws1 Hwf1) as (ws2 & Hrun2 & Hwf2 & Hc2).
    + intros r. rewrite (shown_typeOf ws ws1 _ Hc1). apply Hty.
    + intros r Hr. rewrite Hc1.
      destruct (Hknown r) as [c ->]; [apply elem_of_app; by right|].
      case_decide; by eexists.
    + exists ws2. split; [unfold bind, ret; by rewrite Hrun1, Hrun2|].
      split; [done|]. intros r. rewrite Hc2, Hc1.
      destruct (decide (r ∈ visited ty k)) as [H1|H1];
        destruct (decide (r ∈ flat_map (visited ty) ks)) as [H2|H2].
      * rewrite decide_True by (apply elem_of_app; by left).
        destruct (connections ws !! r); simpl; [|done].
        by rewrite shown_shown.
      * by rewrite decide_True by (apply elem_of_app; by left).
      * by rewrite decide_True by (apply elem_of_app; by right).
      * rewrite decide_False; [done|]. by intros [?|?]%elem_of_app.
Qed.

Lemma unhideAll_precise k : unhides k.
Proof.
  revert k.
  apply (ConnectionNode_tree_ind
    (fun b => Forall unhides (revealed b)) unhides).
  - intros id c o n p ins Ho Hn Hp Hins. by apply Forall_revealed.
  - intros r tgt IH ws Hwf Hty Hknown.
    rewrite visited_unfold in Hknown.
    destruct (Hknown r) as [c Hr]; [by left|].
    destruct (setHidden_spec ws r c false Hwf Hr) as (ws1 & Hrun1 & Hwf1 & Hc1).
    assert (connections ws1 !! r = Some (shown c false)) as Hr1
      by (rewrite Hc1; apply lookup_insert_eq).
    assert (forall r', connections ws1 !! r'
                       = if decide (r' ∈ [r])
                         then (fun c => shown c false) <$> connections ws !! r'
                         else connections ws !! r') as Hc1'.
    { intros r'. rewrite Hc1, lookup_insert.
      destruct (decide (r = r')) as [<-|Hne].
      - rewrite decide_True by (by left). by rewrite Hr.
      - rewrite decide_False; [done|].
        by intros ?%list_elem_of_singleton. }
    assert (follows ty r = RenderedConnection.followsDown (type c)) as Hf.
    { apply follows_type. rewrite <-Hty. unfold typeOf. by rewrite Hr. }
    rewrite unhideAll_unfold, visited_unfold, leafBlocks_unfold, Hf.
    unfold bind at 1. rewrite Hrun1.
    unfold bind at 1. unfold getConnection at 1. rewrite Hr1.
    change (type (shown c false)) with (type c).
    rewrite Hf in Hknown.
    destruct (RenderedConnection.followsDown (type c)); simpl;
      [|by exists ws1].
    destruct tgt as [b|]; [|by exists ws1].
    destruct (unhideEach_precise (revealed b) (IH b eq_refl) ws1 Hwf1)
      as (ws2 & Hrun2 & Hwf2 & Hc2).
    + intros r'. rewrite (shown_typeOf ws ws1 _ Hc1'). apply Hty.
    + intros r' Hr'. rewrite Hc1'.
      destruct (Hknown r') as [c' ->]; [by right|].
      case_decide; by eexists.
    + exists ws2. split.
      { unfold bind, ret. rewrite Hrun2. by case_bool_decide. }
      split; [done|]. intros r'. rewrite Hc2, Hc1'.
      destruct (decide (r' ∈ [r])) as [H1|H1];
        destruct (decide (r' ∈ flat_map (visited ty) (revealed b)))
          as [H2|H2].
      * rewrite decide_True by (apply list_elem_of_singleton in H1; subst;
                                by left).
        destruct (connections ws !! r'); simpl; [|done].
        by rewrite shown_shown.
      * rewrite decide_True; [done|].
        apply list_elem_of_singleton in H1. subst. by left.
      * by rewrite decide_True by (by right).
      * rewrite decide_False; [done|].
        intros [->|?]%elem_of_cons; [|done]. apply H1. by left.
Qed.

End UnhideTwice.

(** [unhideAll] is idempotent: on a well-formed workspace that holds the
    connections it visits, the call returns normally, and the same call
    again returns the same blocks and changes nothing, neither a connection
    nor a database. *)
Theorem unhideAll_idempotent {N : Number} (ws : Workspace) k :
  wf ws ->
  (forall r, r ∈ visited (typeOf ws) k -> is_Some (connections ws !! r)) ->
  exists renderList ws',
    RenderedConnection.unhideAll k ws = Normal (renderList, ws')
    /\ RenderedConnection.unhideAll k ws' = Normal (renderList, ws').
Proof.
  intros Hwf Hknown.
  destruct (unhideAll_precise (typeOf ws) k ws Hwf (fun _ => eq_refl) Hknown)
    as (ws' & Hrun & Hwf' & Hc').
  exists (leafBlocks (typeOf ws) k), ws'. split; [done|].
  apply unhideAll_settled.
  - apply (shown_typeOf ws ws' _ Hc').
  - intros r Hr. destruct (Hknown r Hr) as [c Hc].
    exists (shown c false). split; [|done].
    by rewrite Hc', decide_True, Hc.
Qed.

Lemma unhideAll_idempotent_witness :
  exists renderList (ws' : @Workspace ZExact),
    RenderedConnection.unhideAll (mkNode 0 (Some block10)) chainWorkspace
      = Normal (renderList, ws')
    /\ RenderedConnection.unhideAll (mkNode 0 (Some block10)) ws'
       = Normal (renderList, ws').
Proof.
  apply (unhideAll_idempotent chainWorkspace (mkNode 0 (Some block10))
           chainWorkspace_wf).
  intros r Hr. vm_compute in Hr.
  repeat (apply elem_of_cons in Hr as [->|Hr]; [by eexists|]).
  by apply elem_of_nil in Hr.
Defined.

(** ** The order of the index

    The search takes the index to be in x-then-y order.  [moveTo] and
    [setHidden] keep it so: a connection changes place only while it is out
    of its database, and it enters at the position the order gives it. *)
Section IndexOrder.
Context {N : Number} {O : OrderLaws N}.
Implicit Types (ws : Workspace) (r : ConnRef) (c e : Connection)
  (es : list (ConnRef * Connection)).

Lemma precedes_asym c e :
  ConnectionDB.precedes c e = true -> ConnectionDB.precedes e c = false.
Proof.
  unfold ConnectionDB.precedes.
  intros [Hlt|[Heq Hlt]%andb_true_iff]%orb_true_iff; apply orb_false_iff.
  - split; [by apply ltb_asym|].
    destruct (eqb (x e) (x c)) eqn:Heq; [|done].
    by rewrite (eqb_not_ltb _ _ Heq) in Hlt.
  - split; [by apply eqb_not_ltb|].
    by rewrite (ltb_asym _ _ Hlt), andb_false_r.
Qed.

Lemma precedes_trans c1 c2 c3 :
  ConnectionDB.precedes c1 c2 = true -> ConnectionDB.precedes c2 c3 = true ->
  ConnectionDB.precedes c1 c3 = true.
Proof.
  unfold ConnectionDB.precedes.
  intros [H12|[E12 H12]%andb_true_iff]%orb_true_iff
         [H23|[E23 H23]%andb_true_iff]%orb_true_iff; apply orb_true_iff.
  - left. by eapply ltb_trans.
  - left. by eapply ltb_eqb.
  - left. by eapply eqb_ltb.
  - right. apply andb_true_iff. split; [by eapply eqb_trans|by eapply ltb_trans].
Qed.

(** Entering at the position the order gives keeps the order. *)
Lemma sortedIndex_insert es r c :
  ConnectionDB.sortedIndex es = true ->
  ConnectionDB.sortedIndex
    (take (ConnectionDB.findPositionForConnection es c) es
     ++ (r, c) :: drop (ConnectionDB.findPositionForConnection es c) es)
  = true.
Proof.
  induction es as [|[o0 e0] es IH]; [done|].
  intros Hs. pose proof Hs as [Hall Hs']%sortedIndex_cons.
  cbn [ConnectionDB.findPositionForConnection].
  destruct (ConnectionDB.precedes c e0) eqn:H0.
  - cbn [take drop app]. apply sortedIndex_cons. split; [|done].
    intros o e [[= -> ->]|Hin]%elem_of_cons; [by apply precedes_asym|].
    destruct (ConnectionDB.precedes e c) eqn:He; [|done].
    by rewrite <-(Hall o e Hin), (precedes_trans e c e0 He H0).
  - cbn [take drop app]. apply sortedIndex_cons. split; [|by apply IH].
    intros o e [Hin|[[= -> ->]|Hin]%elem_of_cons]%elem_of_app.
    + apply (Hall o). by eapply subseteq_take.
    + done.
    + apply (Hall o). by eapply subseteq_drop.
Qed.

Lemma sortedIndex_sublist es es' :
  sublist es' es -> ConnectionDB.sortedIndex es = true ->
  ConnectionDB.sortedIndex es' = true.
Proof.
  induction 1 as [|[o0 e0] es1 es2 Hsub IH|[o0 e0] es1 es2 Hsub IH]; [done|..].
  - rewrite !sortedIndex_cons. intros [Hall Hs]. split; [|by apply IH].
    intros o e Hin. apply (Hall o). by eapply elem_of_sublist.
  - rewrite sortedIndex_cons. intros [_ Hs]. by apply IH.
Qed.

(** The order looks at coordinates only. *)
Lemma sortedIndex_coordinates es es' :
  Forall2 (fun v v' : ConnRef * Connection =>
             x v.2 = x v'.2 /\ y v.2 = y v'.2) es es' ->
  ConnectionDB.sortedIndex es = ConnectionDB.sortedIndex es'.
Proof.
  induction 1 as [|[o1 e1] [o2 e2] es1 es2 [Hx Hy] Hall IH]; [done|].
  simpl in *. rewrite IH. f_equal.
  clear IH. induction Hall as [|[o3 e3] [o4 e4] ? ? [Hx' Hy'] _ IH]; [done|].
  simpl in *. rewrite IH. unfold ConnectionDB.precedes.
  by rewrite Hx, Hy, Hx', Hy'.
Qed.

Lemma splice_sublist r (l L : list ConnRef) :
  ConnectionDB.splice r l = Some L -> sublist L l.
Proof.
  revert L. induction l as [|e l IH]; intros L; simpl; [done|].
  destruct (decide (e = r)) as [->|Hne].
  - intros [= ->]. by apply sublist_cons.
  - destruct (ConnectionDB.splice r l) as [L'|]; [|done].
    intros [= <-]. apply sublist_skip. by apply IH.
Qed.

Lemma deref_sublist (m : gmap ConnRef Connection) (l L : list ConnRef) es :
  sublist L l -> deref m l = Some es ->
  exists es', deref m L = Some es' /\ sublist es' es.
Proof.
  intros Hsub. revert es.
  induction Hsub as [|o l1 l2 Hsub IH|o l1 l2 Hsub IH]; intros es; simpl.
  - intros [= <-]. by exists [].
  - destruct (m !! o) as [c|]; [|done].
    destruct (deref m l2) as [es2|]; [|done]. intros [= <-].
    destruct (IH es2 eq_refl) as (es1 & -> & Hsub').
    eexists. split; [done|]. by apply sublist_skip.
  - destruct (m !! o) as [c|]; [|done].
    destruct (deref m l2) as [es2|]; [|done]. intros [= <-].
    destruct (IH es2 eq_refl) as (es1 & -> & Hsub').
    eexists. split; [done|]. by apply sublist_cons.
Qed.

Lemma deref_app (m : gmap ConnRef Connection) (l1 l2 : list ConnRef) :
  deref m (l1 ++ l2)
  = match deref m l1, deref m l2 with
    | Some es1, Some es2 => Some (es1 ++ es2)
    | _, _ => None
    end.
Proof.
  induction l1 as [|o l1 IH]; simpl; [by destruct (deref m l2)|].
  destruct (m !! o) as [c|]; [|done]. rewrite IH.
  by destruct (deref m l1), (deref m l2).
Qed.

Lemma deref_take (m : gmap ConnRef Connection) (l : list ConnRef) es i :
  deref m l = Some es ->
  deref m (take i l) = Some (take i es)
  /\ deref m (drop i l) = Some (drop i es).
Proof.
  revert es i. induction l as [|o l IH]; intros es i; simpl.
  - intros [= <-]. by destruct i.
  - destruct (m !! o) as [c|] eqn:Ho; [|done].
    destruct (deref m l) as [es'|] eqn:Hes; [|done]. intros [= <-].
    destruct i as [|i]; simpl; [by rewrite Ho, Hes|].
    destruct (IH es' i eq_refl) as [-> ->]. by rewrite Ho.
Qed.

(** The entries of a list into which [r] has entered at position [i]. *)
Lemma deref_insert (m : gmap ConnRef Connection) r c' (L : list ConnRef) es i :
  r ∉ L -> deref m L = Some es ->
  deref (<[r := c']> m) (take i L ++ r :: drop i L)
  = Some (take i es ++ (r, c') :: drop i es).
Proof.
  intros Hr Hes.
  assert (deref (<[r := c']> m) L = Some es) as Hes'.
  { rewrite <-Hes. apply deref_ext. intros o Ho.
    rewrite lookup_insert_ne; [done|]. by intros ->. }
  destruct (deref_take _ L es i Hes') as [Htake Hdrop].
  rewrite deref_app, Htake. simpl. by rewrite lookup_insert_eq, Hdrop.
Qed.

(** The entries of a list when a connection changes but for its
    coordinates. *)
Lemma deref_update (m : gmap ConnRef Connection) r c c' (l : list ConnRef) es :
  m !! r = Some c -> x c' = x c -> y c' = y c ->
  deref m l = Some es ->
  exists es', deref (<[r := c']> m) l = Some es'
    /\ Forall2 (fun v v' : ConnRef * Connection =>
                  x v.2 = x v'.2 /\ y v.2 = y v'.2) es' es.
Proof.
  intros Hr Hx Hy. revert es. induction l as [|o l IH]; intros es; simpl.
  - intros [= <-]. by exists [].
  - destruct (m !! o) as [co|] eqn:Ho; [|done].
    destruct (deref m l) as [es0|]; [|done]. intros [= <-].
    destruct (IH es0 eq_refl) as (es1 & -> & Hall).
    destruct (decide (o = r)) as [->|Hne].
    + rewrite lookup_insert_eq. eexists. split; [done|].
      constructor; [|done]. simpl. by simplify_eq.
    + rewrite lookup_insert_ne, Ho by done. eexists. split; [done|].
      by constructor.
Qed.

(** Every database is in index order. *)
Definition inOrder ws : Prop :=
  forall d l es,
    databases ws !! d = Some l -> deref (connections ws) l = Some es ->
    ConnectionDB.sortedIndex es = true.

(** A database other than that of [r] does not list [r]: its entries are
    what they were when [r] changes. *)
Lemma inOrder_other ws r c c' d l es :
  wf ws -> inOrder ws -> connections ws !! r = Some c -> d <> db c ->
  databases ws !! d = Some l ->
  deref (<[r := c']> (connections ws)) l = Some es ->
  ConnectionDB.sortedIndex es = true.
Proof.
  intros Hwf Hord Hr Hne Hd Hes. apply (Hord d l es Hd).
  rewrite <-Hes. apply deref_ext. intros o Ho.
  rewrite lookup_insert_ne; [done|]. intros <-.
  destruct (wf_entry ws Hwf d l r Hd Ho) as (c0 & Hr0 & Hd0). congruence.
Qed.

(** The entries of the database of [r] without [r] are in order. *)
Lemma inOrder_without ws r c l L es :
  wf ws -> inOrder ws -> connections ws !! r = Some c ->
  databases ws !! db c = Some l ->
  (if inDB c then ConnectionDB.splice r l = Some L else L = l) ->
  deref (connections ws) L = Some es ->
  ConnectionDB.sortedIndex es = true.
Proof.
  intros Hwf Hord Hr Hd HL Hes.
  destruct (inDB c); [|subst L; by apply (Hord (db c) l)].
  destruct (wf_deref ws (db c) l Hwf Hd) as [esl Hesl].
  destruct (deref_sublist _ l L esl (splice_sublist r l L HL) Hesl)
    as (es' & Hes' & Hsub).
  assert (es' = es) as -> by congruence.
  apply (sortedIndex_sublist esl); [done|]. by apply (Hord (db c) l).
Qed.

Lemma moveTo_inOrder ws r c a b :
  wf ws -> inOrder ws -> connections ws !! r = Some c ->
  exists ws',
    RenderedConnection.moveTo r a b ws = Normal (tt, ws')
    /\ wf ws' /\ inOrder ws'
    /\ connections ws' = <[r := moved c a b]> (connections ws).
Proof.
  intros Hwf Hord Hr.
  destruct (moveTo_spec ws r c a b Hwf Hr) as (ws' & Hrun & Hwf' & Hc).
  exists ws'. split; [done|]. split; [done|]. split; [|done].
  destruct (wf_moveTo_data ws r c Hwf Hr) as (l & L & es & Hd & HL & Hnr & Hes).
  pose proof (moveTo_run ws r c a b l L es Hr Hd HL Hnr Hes) as Hrun'.
  cbn zeta in Hrun'. rewrite Hrun in Hrun'. injection Hrun' as ->.
  pose proof (inOrder_without ws r c l L es Hwf Hord Hr Hd HL Hes) as Hsorted.
  intros d l' es'. simpl.
  destruct (decide (d = db c)) as [->|Hne].
  - rewrite lookup_insert_eq. intros [= <-].
    destruct (hidden c).
    + intros Hes'. rewrite <-Hsorted. f_equal.
      assert (Some es' = Some es) as [= ->]; [|done].
      rewrite <-Hes', <-Hes. apply deref_ext. intros o Ho.
      rewrite lookup_insert_ne; [done|]. by intros ->.
    + rewrite (deref_insert _ r _ L es _ Hnr Hes). intros [= <-].
      rewrite <-(findPosition_xy es (set_xy c a b) (moved c a b)) by done.
      by apply sortedIndex_insert.
  - rewrite lookup_insert_ne by done. intros Hd' Hes'.
    by apply (inOrder_other ws r c (moved c a b) d l' es').
Qed.

Lemma setHidden_inOrder ws r c h :
  wf ws -> inOrder ws -> connections ws !! r = Some c ->
  exists ws',
    RenderedConnection.setHidden r h ws = Normal (tt, ws')
    /\ wf ws' /\ inOrder ws'
    /\ connections ws' = <[r := shown c h]> (connections ws).
Proof.
  intros Hwf Hord Hr.
  destruct (setHidden_spec ws r c h Hwf Hr) as (ws' & Hrun & Hwf' & Hc).
  exists ws'. split; [done|]. split; [done|]. split; [|done].
  destruct (wf_moveTo_data ws r c Hwf Hr) as (l & L & es & Hd & HL & Hnr & Hes).
  pose proof (setHidden_run ws r c h l L es Hr Hd HL Hnr Hes) as Hrun'.
  cbn zeta in Hrun'. rewrite Hrun in Hrun'. injection Hrun' as ->.
  pose proof (inOrder_without ws r c l L es Hwf Hord Hr Hd HL Hes) as Hsorted.
  intros d l' es'. simpl.
  destruct (decide (d = db c)) as [->|Hne].
  - rewrite lookup_insert_eq. intros [= <-].
    destruct h; [|destruct (inDB c) eqn:Hin].
    + intros Hes'. rewrite <-Hsorted. f_equal.
      assert (Some es' = Some es) as [= ->]; [|done].
      rewrite <-Hes', <-Hes. apply deref_ext. intros o Ho.
      rewrite lookup_insert_ne; [done|]. by intros ->.
    + intros Hes'.
      destruct (wf_deref ws (db c) l Hwf Hd) as [esl Hesl].
      destruct (deref_update (connections ws) r c (shown c false) l esl Hr
                  eq_refl eq_refl Hesl) as (es1 & Hes1 & Hall).
      assert (es1 = es') as -> by congruence.
      rewrite (sortedIndex_coordinates es' esl Hall).
      by apply (Hord (db c) l).
    + rewrite (deref_insert _ r _ L es _ Hnr Hes). intros [= <-].
      rewrite <-(findPosition_xy es c (shown c false)) by done.
      by apply sortedIndex_insert.
  - rewrite lookup_insert_ne by done. intros Hd' Hes'.
    by apply (inOrder_other ws r c (shown c h) d l' es').
Qed.

(** Whatever is moved, hidden and shown, in whatever order, every index
    stays in x-then-y order: on a well-formed workspace whose databases are
    in order, a sequence of [moveTo] and [setHidden] calls on connections of
    the workspace returns normally and leaves a well-formed workspace whose
    databases are in order. *)
Theorem performAll_keeps_order ops : forall ws,
  wf ws -> inOrder ws ->
  (forall op, op ∈ ops -> is_Some (connections ws !! target op)) ->
  exists ws',
    performAll ops ws = Normal (tt, ws') /\ wf ws' /\ inOrder ws'.
Proof.
  induction ops as [|op ops IH]; intros ws Hwf Hord Hknown; simpl.
  - by exists ws.
  - destruct (Hknown op) as [c Hr]; [by left|].
    assert (exists ws1 c1,
      perform op ws = Normal (tt, ws1) /\ wf ws1 /\ inOrder ws1
      /\ connections ws1 = <[target op := c1]> (connections ws))
      as (ws1 & c1 & Hrun1 & Hwf1 & Hord1 & Hc1).
    { destruct op as [r a b|r h]; simpl in *.
      - destruct (moveTo_inOrder ws r c a b Hwf Hord Hr)
          as (ws1 & ? & ? & ? & ?). by exists ws1, (moved c a b).
      - destruct (setHidden_inOrder ws r c h Hwf Hord Hr)
          as (ws1 & ? & ? & ? & ?). by exists ws1, (shown c h). }
    destruct (IH ws1 Hwf1 Hord1) as (ws' & Hrun & Hwf' & Hord').
    { intros op' Hop'. rewrite Hc1.
      destruct (decide (target op' = target op)) as [->|Hne].
      - rewrite lookup_insert_eq. by eexists.
      - rewrite lookup_insert_ne by done. apply Hknown. by right. }
    exists ws'. split; [|done]. unfold bind. by rewrite Hrun1.
Qed.

End IndexOrder.

(** Order of a given workspace, by computation. *)
Lemma inOrder_by_computation {N : Number} (ws : Workspace) :
  map_Forall (fun (d : nat) (l : list nat) =>
      from_option ConnectionDB.sortedIndex true (deref (connections ws) l)
      = true)
    (databases ws) ->
  inOrder ws.
Proof.
  intros Hall d l es Hd Hes. specialize (Hall d l Hd). simpl in Hall.
  by rewrite Hes in Hall.
Qed.

Lemma scenarioWorkspace_wf : wf scenarioWorkspace.
Proof.
  apply wf_by_computation;
    match goal with |- ?G => exact (bool_decide_unpack G I) end.
Qed.

Lemma scenarioWorkspace_inOrder : inOrder scenarioWorkspace.
Proof.
  apply inOrder_by_computation.
  match goal with |- ?G => exact (bool_decide_unpack G I) end.
Qed.

(** In the scenario of the search, in binary64: the entry at x = 10 moves to
    x = 200, behind the entry at x = 100, and the entry at x = 0 is hidden
    and shown again, which puts it back in front. *)
Definition reorderings : list (@Op F64) :=
  [@MoveTo F64 1 200%float 0%float; SetHidden 0 true; SetHidden 0 false].

Example reorderings_scenario :
  exists ws',
    performAll reorderings scenarioWorkspace = Normal (tt, ws')
    /\ databases ws' !! 0 = Some [0; 2; 1].
Proof. eexists. split; vm_compute; reflexivity. Qed.

Lemma performAll_keeps_order_witness :
  exists ws',
    performAll reorderings scenarioWorkspace = Normal (tt, ws')
    /\ inOrder ws'
    /\ databases ws' !! 0 = Some [0; 2; 1].
Proof.
  destruct (performAll_keeps_order (O := F64_order) reorderings
              scenarioWorkspace scenarioWorkspace_wf scenarioWorkspace_inOrder)
    as (ws' & Hrun & _ & Hord).
  - intros op Hop.
    repeat (apply elem_of_cons in Hop as [->|Hop]; [by eexists|]).
    by apply elem_of_nil in Hop.
  - exists ws'. split; [done|]. split; [done|].
    destruct reorderings_scenario as (ws'' & Hrun' & Hdb).
    rewrite Hrun in Hrun'. by injection Hrun' as ->.
Defined.
